(** * libdialog/dialog/task_pool.h: blocking task queue, worker and pool

    A shallow embedding of [task_queue], [task_worker] and [task_pool].
    Every method of [task_queue] runs its whole body under [mutex_], so a
    method call is one atomic transition of the shared state.  The only place
    where the lock is given up is [condition_.wait] inside [dequeue]: a thread
    whose wait predicate is false stays blocked and evaluates the predicate
    again at every wake-up (notified or spurious).  A step of a blocked thread
    is therefore another evaluation of the same check.

    The model has two layers.  In [task_pool] any blocked thread may
    evaluate its check at any time and the call of a unit always returns:
    this layer has every behaviour of the program and more, so what holds of
    all its runs holds of the program.  The layer [scheduler] on top of it
    keeps the set of threads asleep in [condition_.wait], which only
    [condition_.notify_one], [condition_.notify_all] or a spurious wake-up
    release, and lets the call of a unit return only when the task is able
    to; statements that some run exists are made in this layer. *)

From stdpp Require Import base numbers list strings.

(** ** namespace atomic *)
Module atomic.

(** Modelled from the spec: [atomic::type], [atomic::load] and
    [atomic::store] are declared outside this header.  The spec asks for the
    cross-thread flags to be atomics with no compound invariant, so a flag is
    a cell read and written in one indivisible step. *)
Definition type (A : Type) : Type := A.

(** Modelled from the spec: [atomic::load], see [type]. *)
Definition load {A : Type} (cell : type A) : A := cell.

(** Modelled from the spec: [atomic::store], see [type]; the result is the
    new content of the cell. *)
Definition store {A : Type} (cell : type A) (v : A) : type A := v.

End atomic.

(** ** std::packaged_task, std::future and their shared state *)
Module future.

(** std::future_errc, the codes this header can run into. *)
Inductive future_errc :=
| broken_promise
| promise_already_satisfied
| no_state.

(** What a callable may throw.  [std_exception] and [future_error] derive
    from std::exception, [foreign_exception] stands for any other thrown
    object (an int, a user type). *)
Inductive exception :=
| std_exception (msg : string)
| future_error (code : future_errc)
| foreign_exception.

Definition errc_message (c : future_errc) : string :=
  match c with
  | broken_promise => "Broken promise"%string
  | promise_already_satisfied => "Promise already satisfied"%string
  | no_state => "No associated state"%string
  end.

(** [e.what()] for the handler [catch (std::exception& e)]; [None] when the
    handler does not match the thrown object. *)
Definition what (e : exception) : option string :=
  match e with
  | std_exception msg => Some msg
  | future_error c => Some ("std::future_error: " +:+ errc_message c)%string
  | foreign_exception => None
  end.

(** Result of calling [std::bind(f, args...)()]: the return value (a value of
    [std::result_of<F(ARGS...)>::type], here an integer) or a thrown object. *)
Inductive outcome :=
| returns (v : Z)
| throws (e : exception).

Definition callable := unit -> outcome.

(** The state shared by a packaged_task and its future. *)
Inductive shared_state :=
| pending
| ready (v : Z)
| failed (e : exception).

#[global] Instance future_errc_eq_dec : EqDecision future_errc.
Proof. solve_decision. Defined.

#[global] Instance exception_eq_dec : EqDecision exception.
Proof. solve_decision. Defined.

#[global] Instance shared_state_eq_dec : EqDecision shared_state.
Proof. solve_decision. Defined.

(** All shared states ever allocated; a future is an index into it. *)
Abbreviation heap := (list shared_state).

(** [std::packaged_task<return_type()>]: the stored callable and the shared
    state it fulfils. *)
Record packaged_task := { stored : callable; state : nat }.

(** [std::make_shared<std::packaged_task<...>>(...)] followed by
    [task->get_future()]. *)
Definition make_task (c : callable) (fs : heap) : packaged_task * heap :=
  ({| stored := c; state := length fs |}, (fs ++ [pending])%list).

(** [packaged_task::operator()]: runs the stored callable and stores its
    value or the object it throws in the shared state; nothing escapes.  A
    second call throws [future_error]. *)
Definition invoke (p : packaged_task) (fs : heap) : heap * option exception :=
  match fs !! state p with
  | Some pending =>
      match stored p tt with
      | returns v => (<[state p := ready v]> fs, None)
      | throws e => (<[state p := failed e]> fs, None)
      end
  | Some _ => (fs, Some (future_error promise_already_satisfied))
  | None => (fs, Some (future_error no_state))
  end.

(** [~packaged_task], run when the last [shared_ptr] to the task goes away:
    a shared state that is not yet ready is abandoned, i.e. made ready with
    [future_error(broken_promise)]. *)
Definition abandon (p : packaged_task) (fs : heap) : heap :=
  match fs !! state p with
  | Some pending => <[state p := failed (future_error broken_promise)]> fs
  | _ => fs
  end.

End future.

(** ** class task_queue *)
Module task_queue.
Import future.

(** [function_t] is [std::function<void()>].  The only targets this header
    ever stores are the closures built by [enqueue], which capture the
    shared pointer [task] and call the packaged_task it points to;
    each owns the one [shared_ptr] to its packaged_task (function objects are
    moved, never copied), so destroying the closure destroys the task. *)
Definition function_t := packaged_task.

(** Destructor of a [function_t] variable ([None]: an empty std::function). *)
Definition release (o : option function_t) (fs : heap) : heap :=
  match o with
  | Some f => abandon f fs
  | None => fs
  end.

(** The data members: [valid_], [valid] and [queue_]; [mutex_] and
    [condition_] are accounted for by the atomicity of the methods. *)
Record t := { valid_ : atomic.type bool; valid : bool; queue_ : list function_t }.

(** [task_queue()]: [valid_(true)], and the default initializer of [valid]. *)
Definition create : t := {| valid_ := true; valid := true; queue_ := [] |}.

Definition invalidate (q : t) : t :=
  {| valid_ := false; valid := valid q; queue_ := queue_ q |}.

(** [queue_.empty()] *)
Definition is_nil (l : list function_t) : bool :=
  match l with
  | [] => true
  | _ :: _ => false
  end.

(** The predicate of [condition_.wait]. *)
Definition wait_pred (q : t) : bool := negb (is_nil (queue_ q)) || negb (valid_ q).

(** A call of [dequeue] either is still inside [condition_.wait] or has
    returned its boolean. *)
Inductive wait_result :=
| blocked
| returned (r : bool).

(** [dequeue(out)], one evaluation under the lock.  [out] is the caller's
    variable: it is written only on the successful path, where the move
    assignment destroys its previous target.  The branch for an empty
    [queue_] after the validity test is [queue_.front()] on an empty queue;
    the wait predicate excludes it. *)
Definition dequeue (out : option function_t) (q : t) (fs : heap)
  : wait_result * option function_t * t * heap :=
  if wait_pred q then
    if negb (valid_ q) then (returned false, out, q, fs)
    else
      match queue_ q with
      | f :: rest =>
          (returned true, Some f,
           {| valid_ := valid_ q; valid := valid q; queue_ := rest |},
           release out fs)
      | [] => (returned true, None, q, release out fs)
      end
  else (blocked, out, q, fs).

Definition enqueue (c : callable) (q : t) (fs : heap) : nat * t * heap :=
  let '(task, fs') := make_task c fs in
  (state task,
   {| valid_ := valid_ q; valid := valid q; queue_ := queue_ q ++ [task] |},
   fs').

Definition empty (q : t) : bool := is_nil (queue_ q).

(** The loop of [clear]: [queue_.pop()] destroys the front element. *)
Fixpoint pop_all (pend : list function_t) (fs : heap) : list function_t * heap :=
  match pend with
  | [] => ([], fs)
  | f :: rest => pop_all rest (abandon f fs)
  end.

Definition clear (q : t) (fs : heap) : t * heap :=
  let '(rest, fs') := pop_all (queue_ q) fs in
  ({| valid_ := valid_ q; valid := valid q; queue_ := rest |}, fs').

Definition is_valid (q : t) : bool := valid_ q.

(** [~task_queue()]: [invalidate()], then the members are destroyed, and with
    [queue_] every element still in it. *)
Definition destroy (q : t) (fs : heap) : t * heap :=
  let q' := invalidate q in
  ({| valid_ := valid_ q'; valid := valid q'; queue_ := [] |},
   foldl (fun h f => abandon f h) fs (queue_ q')).

(** The public methods as data, to quantify over "every operation". *)
Inductive call :=
| call_enqueue (c : callable)
| call_dequeue (out : option function_t)
| call_clear
| call_invalidate
| call_empty
| call_is_valid.

Inductive reply :=
| reply_future (h : nat)
| reply_dequeue (r : wait_result) (out : option function_t)
| reply_void
| reply_bool (b : bool).

Definition apply (m : call) (q : t) (fs : heap) : reply * t * heap :=
  match m with
  | call_enqueue c => let '(h, q', fs') := enqueue c q fs in (reply_future h, q', fs')
  | call_dequeue out =>
      let '(r, out', q', fs') := dequeue out q fs in (reply_dequeue r out', q', fs')
  | call_clear => let '(q', fs') := clear q fs in (reply_void, q', fs')
  | call_invalidate => (reply_void, invalidate q, fs)
  | call_empty => (reply_bool (empty q), q, fs)
  | call_is_valid => (reply_bool (is_valid q), q, fs)
  end.

(** A history of calls, with the replies in order. *)
Fixpoint apply_all (ms : list call) (q : t) (fs : heap) : list reply * t * heap :=
  match ms with
  | [] => ([], q, fs)
  | m :: ms' =>
      let '(r, q', fs') := apply m q fs in
      let '(rs, q'', fs'') := apply_all ms' q' fs' in
      (r :: rs, q'', fs'')
  end.

(** The queue with its vestigial member overwritten. *)
Definition with_valid (b : bool) (q : t) : t :=
  {| valid_ := valid_ q; valid := b; queue_ := queue_ q |}.

End task_queue.

(** ** Observations

    What an outside observer can record of a run, in the order it happens. *)
Inductive event :=
| submitted (f : task_queue.function_t)
| dequeued (f : task_queue.function_t)
| executed (f : task_queue.function_t)
| invalidated
| stopped (i : nat)
| joined (i : nat).

(** ** The diagnostic sink *)
Module logger.

(** Modelled from the spec: [LOG_ERROR] comes from logger.h, outside this
    header; the spec describes it as a sink that receives one failure
    description per report.  [stderr] is the stream written by [fprintf]. *)
Record sinks := { log_error : list string; stderr : list string }.

Definition silent : sinks := {| log_error := []; stderr := [] |}.

(** The body of the handler [catch (std::exception& e)] of the worker. *)
Definition report (msg : string) (out : sinks) : sinks :=
  {| log_error := log_error out ++ [("Could not execute task: " +:+ msg)%string];
     stderr := stderr out ++ [("Exception: " +:+ msg +:+ String (Ascii.ascii_of_nat 10) EmptyString)%string] |}.

End logger.

(** ** class task_worker *)
Module task_worker.
Import future logger.

(** Where the thread started by [start] is. *)
Inductive location :=
| unstarted
| at_loop
| in_dequeue
| in_task
| exited
| terminated
| deleted.

(** [stop_], the local variable [task] of the thread function, and the
    thread's position.  [queue_] is a reference to the pool's queue and is
    passed to [step] instead. *)
Record t := { stop_ : atomic.type bool; task : option task_queue.function_t; at_ : location }.

Definition create : t := {| stop_ := false; task := None; at_ := unstarted |}.

(** [start()]: assigning to a thread that is already running terminates the
    program. *)
Definition start (w : t) : t :=
  {| stop_ := stop_ w; task := task w;
     at_ := match at_ w with unstarted => at_loop | _ => terminated end |}.

Definition goto (l : location) (w : t) : t :=
  {| stop_ := stop_ w; task := task w; at_ := l |}.

(** One step of the thread function of [start]. *)
Definition step (w : t) (q : task_queue.t) (fs : heap) (out : sinks)
  : option (list event * t * task_queue.t * heap * sinks) :=
  match at_ w with
  | at_loop =>
      if atomic.load (stop_ w)
      then Some ([], {| stop_ := stop_ w; task := None; at_ := exited |},
                 q, task_queue.release (task w) fs, out)
      else Some ([], goto in_dequeue w, q, fs, out)
  | in_dequeue =>
      let '(r, task', q', fs') := task_queue.dequeue (task w) q fs in
      match r with
      | task_queue.blocked => Some ([], w, q', fs', out)
      | task_queue.returned false => Some ([], goto at_loop w, q', fs', out)
      | task_queue.returned true =>
          Some (match task' with Some f => [dequeued f] | None => [] end,
                {| stop_ := stop_ w; task := task'; at_ := in_task |},
                q', fs', out)
      end
  | in_task =>
      match task w with
      | Some f =>
          let '(fs', thrown) := invoke f fs in
          match thrown with
          | None => Some ([executed f], goto at_loop w, q, fs', out)
          | Some e =>
              match what e with
              | Some msg => Some ([executed f], goto at_loop w, q, fs', report msg out)
              | None => Some ([executed f], goto terminated w, q, fs', out)
              end
          end
      | None => Some ([], goto at_loop w, q, fs, report "bad_function_call" out)
      end
  | unstarted | exited | terminated | deleted => None
  end.

(** The first statement of [stop()]. *)
Definition request_stop (w : t) : t :=
  {| stop_ := atomic.store (stop_ w) true; task := task w; at_ := at_ w |}.

(** [worker_.joinable()] *)
Definition joinable (w : t) : bool :=
  match at_ w with
  | unstarted | deleted => false
  | _ => true
  end.

(** [worker_.join()] returns once the thread function has returned. *)
Definition join_returns (w : t) : bool :=
  match at_ w with
  | exited => true
  | _ => false
  end.

End task_worker.

(** ** class task_pool, with the threads and clients around it *)
Module task_pool.
Import future logger.

(** Progress of [~task_pool()]: not called; in the loop at worker [i], before
    or after the store of [stop()]; finished, members destroyed. *)
Inductive destructor :=
| not_running
| deleting (i : nat) (stop_stored : bool)
| destroyed.

Record system := {
  queue_ : task_queue.t;
  workers_ : list task_worker.t;
  futures : heap;
  output : sinks;
  dtor : destructor
}.

(** The loop of the constructor. *)
Fixpoint spawn (n : nat) (ws : list task_worker.t) : list task_worker.t :=
  match n with
  | 0 => ws
  | S k => spawn k (ws ++ [task_worker.start task_worker.create])
  end.

(** [task_pool(num_workers)] *)
Definition create (num_workers : nat) : system :=
  {| queue_ := task_queue.create; workers_ := spawn num_workers [];
     futures := []; output := silent; dtor := not_running |}.

Inductive action :=
| submit (c : callable)
| worker (i : nat)
| clear
| invalidate
| empty
| is_valid
| teardown.

Definition set_worker (i : nat) (w : task_worker.t) (s : system) : list task_worker.t :=
  <[i := w]> (workers_ s).

(** The next step of the thread that runs [~task_pool()]. *)
Definition teardown_step (s : system) : option (list event * system) :=
  match dtor s with
  | not_running =>
      Some ([invalidated],
            {| queue_ := task_queue.invalidate (queue_ s); workers_ := workers_ s;
               futures := futures s; output := output s; dtor := deleting 0 false |})
  | deleting i false =>
      match workers_ s !! i with
      | Some w =>
          Some ([stopped i],
                {| queue_ := queue_ s;
                   workers_ := set_worker i (task_worker.request_stop w) s;
                   futures := futures s; output := output s; dtor := deleting i true |})
      | None =>
          let '(q', fs') := task_queue.destroy (queue_ s) (futures s) in
          Some ([], {| queue_ := q'; workers_ := workers_ s; futures := fs';
                       output := output s; dtor := destroyed |})
      end
  | deleting i true =>
      match workers_ s !! i with
      | Some w =>
          if negb (task_worker.joinable w) || task_worker.join_returns w
          then Some ([joined i],
                     {| queue_ := queue_ s;
                        workers_ := set_worker i (task_worker.goto task_worker.deleted w) s;
                        futures := futures s; output := output s;
                        dtor := deleting (S i) false |})
          else None
      | None => None
      end
  | destroyed => None
  end.

(** What a call or a thread step does to a pool that still exists. *)
Definition perform (a : action) (s : system) : option (list event * system) :=
  match a with
  | submit c =>
      let '(h, q', fs') := task_queue.enqueue c (queue_ s) (futures s) in
      Some ([submitted {| stored := c; state := h |}],
            {| queue_ := q'; workers_ := workers_ s; futures := fs';
               output := output s; dtor := dtor s |})
  | worker i =>
      match workers_ s !! i with
      | Some w =>
          match task_worker.step w (queue_ s) (futures s) (output s) with
          | Some (evs, w', q', fs', out') =>
              Some (evs, {| queue_ := q'; workers_ := set_worker i w' s;
                            futures := fs'; output := out'; dtor := dtor s |})
          | None => None
          end
      | None => None
      end
  | clear =>
      let '(q', fs') := task_queue.clear (queue_ s) (futures s) in
      Some ([], {| queue_ := q'; workers_ := workers_ s; futures := fs';
                   output := output s; dtor := dtor s |})
  | invalidate =>
      Some ([invalidated],
            {| queue_ := task_queue.invalidate (queue_ s); workers_ := workers_ s;
               futures := futures s; output := output s; dtor := dtor s |})
  | empty | is_valid => Some ([], s)
  | teardown => teardown_step s
  end.

(** One atomic step of the whole system; [None] when the step cannot be taken
    (a join that has to wait, a thread that is not running, a destroyed
    pool). *)
Definition step (a : action) (s : system) : option (list event * system) :=
  match dtor s with
  | destroyed => None
  | _ => perform a s
  end.

(** A schedule, run from left to right. *)
Fixpoint run (tr : list action) (s : system) : option (list event * system) :=
  match tr with
  | [] => Some ([], s)
  | a :: tr' =>
      match step a s with
      | Some (evs, s') =>
          match run tr' s' with
          | Some (evs', s'') => Some (evs ++ evs', s'')
          | None => None
          end
      | None => None
      end
  end.

(** States a pool can be in. *)
Definition reachable (s : system) : Prop :=
  exists n tr evs, run tr (create n) = Some (evs, s).

End task_pool.

(** ** The threads asleep in [condition_.wait], and the time a task takes

    A step of [task_pool] is a step of [scheduler] when the thread that
    takes it is able to: a worker whose wait predicate was false sleeps
    until it is notified or woken spuriously, and a worker inside [task()]
    moves on only when the call returns. *)
Module scheduler.
Import future task_pool.

(** The pool, and the workers asleep in [condition_.wait]. *)
Record t := { pool : system; asleep : list nat }.

Definition create (num_workers : nat) : t :=
  {| pool := task_pool.create num_workers; asleep := [] |}.

(** The steps of [task_pool.action]; [submit] names the thread released by
    [condition_.notify_one], and [spurious] is a wake-up without a
    notification. *)
Inductive move :=
| submit (c : callable) (woken : option nat)
| worker (i : nat)
| spurious (i : nat)
| clear
| invalidate
| empty
| is_valid
| teardown.

Definition remove (i : nat) (sl : list nat) : list nat :=
  filter (fun k => k <> i) sl.

(** [condition_.notify_one()]: with threads waiting, one of them is
    released; with none waiting, nothing happens. *)
Definition notify_one (woken : option nat) (sl : list nat) : option (list nat) :=
  match woken with
  | Some i => if bool_decide (i ∈ sl) then Some (remove i sl) else None
  | None =>
      match sl with
      | [] => Some []
      | _ :: _ => None
      end
  end.

(** [condition_.notify_all()] *)
Definition notify_all (sl : list nat) : list nat := [].

(** The unit a worker is inside the call of. *)
Definition in_call (w : task_worker.t) : option task_queue.function_t :=
  match task_worker.at_ w with
  | task_worker.in_task => task_worker.task w
  | _ => None
  end.

(** A thread that evaluates the wait predicate of [dequeue] and finds it
    false goes to sleep, atomically with the release of the lock. *)
Definition goes_to_sleep (w : task_worker.t) (q : task_queue.t) : bool :=
  match task_worker.at_ w with
  | task_worker.in_dequeue => negb (task_queue.wait_pred q)
  | _ => false
  end.

(** The steps of [~task_pool()] that notify: [queue_.invalidate()], and
    [~task_queue()] when the members are destroyed. *)
Definition teardown_notifies (s : system) : bool :=
  match dtor s with
  | not_running => true
  | deleting i false =>
      match workers_ s !! i with
      | Some _ => false
      | None => true
      end
  | _ => false
  end.

Definition with_sleepers (sl : list nat) (r : option (list event * system))
  : option (list event * t) :=
  match r with
  | Some (evs, s) => Some (evs, {| pool := s; asleep := sl |})
  | None => None
  end.

Section tasks.

(** [completes f fs]: the call of the unit [f], with the futures in the
    state [fs], returns or throws; otherwise it is still running or waiting
    (for ever, if [completes f] is false of every state). *)
Variable completes : task_queue.function_t -> heap -> bool.

Definition call_returns (w : task_worker.t) (fs : heap) : bool :=
  match in_call w with
  | Some f => completes f fs
  | None => true
  end.

Definition step (m : move) (st : t) : option (list event * t) :=
  match m with
  | submit c woken =>
      match notify_one woken (asleep st) with
      | Some sl => with_sleepers sl (task_pool.step (task_pool.submit c) (pool st))
      | None => None
      end
  | worker i =>
      match workers_ (pool st) !! i with
      | Some w =>
          if bool_decide (i ∈ asleep st) || negb (call_returns w (futures (pool st)))
          then None
          else with_sleepers
                 (if goes_to_sleep w (queue_ (pool st)) then i :: asleep st
                  else asleep st)
                 (task_pool.step (task_pool.worker i) (pool st))
      | None => None
      end
  | spurious i =>
      if bool_decide (i ∈ asleep st)
      then Some ([], {| pool := pool st; asleep := remove i (asleep st) |})
      else None
  | clear =>
      with_sleepers (notify_all (asleep st)) (task_pool.step task_pool.clear (pool st))
  | invalidate =>
      with_sleepers (notify_all (asleep st))
        (task_pool.step task_pool.invalidate (pool st))
  | empty => with_sleepers (asleep st) (task_pool.step task_pool.empty (pool st))
  | is_valid => with_sleepers (asleep st) (task_pool.step task_pool.is_valid (pool st))
  | teardown =>
      with_sleepers
        (if teardown_notifies (pool st) then notify_all (asleep st) else asleep st)
        (task_pool.step task_pool.teardown (pool st))
  end.

Fixpoint run (ms : list move) (st : t) : option (list event * t) :=
  match ms with
  | [] => Some ([], st)
  | m :: ms' =>
      match step m st with
      | Some (evs, st') =>
          match run ms' st' with
          | Some (evs', st'') => Some (evs ++ evs', st'')
          | None => None
          end
      | None => None
      end
  end.

Definition reachable (st : t) : Prop :=
  exists n ms evs, run ms (create n) = Some (evs, st).

End tasks.

(** The step of [task_pool] under a move, and the move of a step in which
    nobody is woken. *)
Definition action_of (m : move) : option action :=
  match m with
  | submit c _ => Some (task_pool.submit c)
  | worker i => Some (task_pool.worker i)
  | spurious _ => None
  | clear => Some task_pool.clear
  | invalidate => Some task_pool.invalidate
  | empty => Some task_pool.empty
  | is_valid => Some task_pool.is_valid
  | teardown => Some task_pool.teardown
  end.

Definition move_of (a : action) : move :=
  match a with
  | task_pool.submit c => submit c None
  | task_pool.worker i => worker i
  | task_pool.clear => clear
  | task_pool.invalidate => invalidate
  | task_pool.empty => empty
  | task_pool.is_valid => is_valid
  | task_pool.teardown => teardown
  end.

(** Schedules in which only the workers and the destructor move, and
    schedules in which only worker [i] moves. *)
Definition worker_or_teardown (m : move) : bool :=
  match m with
  | worker _ | teardown => true
  | _ => false
  end.

Definition only_worker (i : nat) (m : move) : bool :=
  match m with
  | worker j => bool_decide (j = i)
  | _ => false
  end.

End scheduler.

(** * Vocabulary of the proofs

    The steps as relations, the projections of a run, the invariants and
    the concrete runs used below. *)
Section vocabulary.
Import future logger task_pool.

(** The step of a worker thread as a relation. *)
Inductive worker_move (w : task_worker.t) (q : task_queue.t) (fs : heap) (out : sinks)
  : list event -> task_worker.t -> task_queue.t -> heap -> sinks -> Prop :=
| move_exit :
    task_worker.at_ w = task_worker.at_loop ->
    task_worker.stop_ w = true ->
    worker_move w q fs out []
      {| task_worker.stop_ := task_worker.stop_ w; task_worker.task := None;
         task_worker.at_ := task_worker.exited |}
      q (task_queue.release (task_worker.task w) fs) out
| move_enter :
    task_worker.at_ w = task_worker.at_loop ->
    task_worker.stop_ w = false ->
    worker_move w q fs out [] (task_worker.goto task_worker.in_dequeue w) q fs out
| move_wait :
    task_worker.at_ w = task_worker.in_dequeue ->
    task_queue.queue_ q = [] ->
    task_queue.valid_ q = true ->
    worker_move w q fs out [] w q fs out
| move_closed :
    task_worker.at_ w = task_worker.in_dequeue ->
    task_queue.valid_ q = false ->
    worker_move w q fs out [] (task_worker.goto task_worker.at_loop w) q fs out
| move_take f rest :
    task_worker.at_ w = task_worker.in_dequeue ->
    task_queue.valid_ q = true ->
    task_queue.queue_ q = f :: rest ->
    worker_move w q fs out [dequeued f]
      {| task_worker.stop_ := task_worker.stop_ w; task_worker.task := Some f;
         task_worker.at_ := task_worker.in_task |}
      {| task_queue.valid_ := task_queue.valid_ q; task_queue.valid := task_queue.valid q;
         task_queue.queue_ := rest |}
      (task_queue.release (task_worker.task w) fs) out
| move_run f l out' :
    task_worker.at_ w = task_worker.in_task ->
    task_worker.task w = Some f ->
    (l, out') =
      match (invoke f fs).2 with
      | None => (task_worker.at_loop, out)
      | Some e =>
          match what e with
          | Some msg => (task_worker.at_loop, report msg out)
          | None => (task_worker.terminated, out)
          end
      end ->
    worker_move w q fs out [executed f] (task_worker.goto l w) q (invoke f fs).1 out'
| move_empty_function :
    task_worker.at_ w = task_worker.in_task ->
    task_worker.task w = None ->
    worker_move w q fs out [] (task_worker.goto task_worker.at_loop w) q fs
      (report "bad_function_call" out).

(** The step of the pool as a relation. *)
Inductive pool_move (s : system) : action -> list event -> system -> Prop :=
| pool_submit c :
    pool_move s (submit c)
      [submitted {| stored := c; state := length (futures s) |}]
      {| queue_ :=
           {| task_queue.valid_ := task_queue.valid_ (queue_ s);
              task_queue.valid := task_queue.valid (queue_ s);
              task_queue.queue_ :=
                task_queue.queue_ (queue_ s) ++
                [{| stored := c; state := length (futures s) |}] |};
         workers_ := workers_ s; futures := futures s ++ [pending];
         output := output s; dtor := dtor s |}
| pool_worker i w evs w' q' fs' out' :
    workers_ s !! i = Some w ->
    worker_move w (queue_ s) (futures s) (output s) evs w' q' fs' out' ->
    pool_move s (worker i) evs
      {| queue_ := q'; workers_ := <[i := w']> (workers_ s); futures := fs';
         output := out'; dtor := dtor s |}
| pool_clear :
    pool_move s clear []
      {| queue_ :=
           {| task_queue.valid_ := task_queue.valid_ (queue_ s);
              task_queue.valid := task_queue.valid (queue_ s);
              task_queue.queue_ := [] |};
         workers_ := workers_ s;
         futures := foldl (fun h f => abandon f h) (futures s) (task_queue.queue_ (queue_ s));
         output := output s; dtor := dtor s |}
| pool_invalidate :
    pool_move s invalidate [invalidated]
      {| queue_ := task_queue.invalidate (queue_ s); workers_ := workers_ s;
         futures := futures s; output := output s; dtor := dtor s |}
| pool_empty : pool_move s empty [] s
| pool_is_valid : pool_move s is_valid [] s
| pool_teardown_invalidate :
    dtor s = not_running ->
    pool_move s teardown [invalidated]
      {| queue_ := task_queue.invalidate (queue_ s); workers_ := workers_ s;
         futures := futures s; output := output s; dtor := deleting 0 false |}
| pool_teardown_stop i w :
    dtor s = deleting i false ->
    workers_ s !! i = Some w ->
    pool_move s teardown [stopped i]
      {| queue_ := queue_ s;
         workers_ := <[i := task_worker.request_stop w]> (workers_ s);
         futures := futures s; output := output s; dtor := deleting i true |}
| pool_teardown_members i :
    dtor s = deleting i false ->
    workers_ s !! i = None ->
    pool_move s teardown []
      {| queue_ :=
           {| task_queue.valid_ := false;
              task_queue.valid := task_queue.valid (queue_ s);
              task_queue.queue_ := [] |};
         workers_ := workers_ s;
         futures := foldl (fun h f => abandon f h) (futures s) (task_queue.queue_ (queue_ s));
         output := output s; dtor := destroyed |}
| pool_teardown_join i w :
    dtor s = deleting i true ->
    workers_ s !! i = Some w ->
    task_worker.at_ w = task_worker.unstarted \/
    task_worker.at_ w = task_worker.deleted \/
    task_worker.at_ w = task_worker.exited ->
    pool_move s teardown [joined i]
      {| queue_ := queue_ s;
         workers_ := <[i := task_worker.goto task_worker.deleted w]> (workers_ s);
         futures := futures s; output := output s; dtor := deleting (S i) false |}.

(** What the destructor has done so far, read off the state. *)
Definition teardown_inv (s : system) : Prop :=
  (dtor s <> not_running -> task_queue.valid_ (queue_ s) = false) /\
  (forall i w, workers_ s !! i = Some w -> task_worker.stop_ w = true ->
               dtor s <> not_running).

(** The units submitted, dequeued and executed in a run, in order. *)
Definition submissions (evs : list event) : list task_queue.function_t :=
  omap (fun e => match e with submitted f => Some f | _ => None end) evs.

Definition dequeues (evs : list event) : list task_queue.function_t :=
  omap (fun e => match e with dequeued f => Some f | _ => None end) evs.

Definition executions (evs : list event) : list task_queue.function_t :=
  omap (fun e => match e with executed f => Some f | _ => None end) evs.

(** The unit a worker has taken off the queue and not yet called. *)
Definition in_flight (w : task_worker.t) : list task_queue.function_t :=
  match task_worker.at_ w, task_worker.task w with
  | task_worker.in_task, Some f => [f]
  | _, _ => []
  end.

(** Schedules made of submissions and worker steps only. *)
Definition producer_consumer (a : action) : bool :=
  match a with
  | submit _ | worker _ => true
  | _ => false
  end.

(** Some worker's variable [task] holds [g]. *)
Definition holds (ws : list task_worker.t) (g : task_queue.function_t) : Prop :=
  exists i w, ws !! i = Some w /\ task_worker.task w = Some g.

(** Every unit in the queue has a future of its own that is still
    unresolved, and no worker holds a unit that is also in the queue. *)
Definition well_formed (s : system) : Prop :=
  NoDup (state <$> task_queue.queue_ (queue_ s)) /\
  (forall f, f ∈ task_queue.queue_ (queue_ s) -> futures s !! state f = Some pending) /\
  (forall g, holds (workers_ s) g ->
             state g < length (futures s) /\
             state g ∉ state <$> task_queue.queue_ (queue_ s)).

(** A future state that is resolved stays as it is. *)
Definition resolved_stable (fs fs' : heap) : Prop :=
  forall h st, fs !! h = Some st -> st <> pending -> fs' !! h = Some st.

(** The future [h] exists and no unit that could fulfil it is left, neither
    in the queue nor in a worker's hands. *)
Definition unowned (h : nat) (s : system) : Prop :=
  h < length (futures s) /\
  (h ∉ state <$> task_queue.queue_ (queue_ s)) /\
  (forall g, holds (workers_ s) g -> state g <> h).

(** The state of a unit [f] submitted to an invalidated queue: no worker
    holds it, and either it is still queued with its future unresolved, or
    the backlog has been destroyed and its future holds a broken promise. *)
Definition stranded (f : task_queue.function_t) (s : system) : Prop :=
  task_queue.valid_ (queue_ s) = false /\
  state f < length (futures s) /\
  (forall g, holds (workers_ s) g -> state g <> state f) /\
  ((f ∈ task_queue.queue_ (queue_ s) /\ futures s !! state f = Some pending) \/
   ((state f ∉ state <$> task_queue.queue_ (queue_ s)) /\
    futures s !! state f = Some (failed (future_error broken_promise)))).

(** Steps that destroy a backlog. *)
Definition discards (a : action) : bool :=
  match a with
  | clear => true
  | _ => false
  end.

(** A worker about to call its unit holds one whose future is unresolved;
    any other unit still in a worker's variable has been called already; and
    no worker has let an exception escape. *)
Definition settled (w : task_worker.t) (fs : heap) : Prop :=
  match task_worker.at_ w with
  | task_worker.in_task =>
      exists g, task_worker.task w = Some g /\ fs !! state g = Some pending
  | task_worker.terminated => False
  | _ => forall g, task_worker.task w = Some g ->
                   exists st, fs !! state g = Some st /\ st <> pending
  end.

(** Nothing has reached the sink, every worker is [settled], and two workers
    about to call a unit hold units with different futures. *)
Definition orderly (s : system) : Prop :=
  output s = silent /\
  (forall i w, workers_ s !! i = Some w -> settled w (futures s)) /\
  (forall i j wi wj gi gj,
     i <> j ->
     workers_ s !! i = Some wi -> workers_ s !! j = Some wj ->
     task_worker.at_ wi = task_worker.in_task ->
     task_worker.at_ wj = task_worker.in_task ->
     task_worker.task wi = Some gi -> task_worker.task wj = Some gj ->
     state gi <> state gj).

(** Concrete tasks, schedules and the states they lead to. *)
Definition boom : callable := fun _ => throws (std_exception "boom").
Definition answer : callable := fun _ => returns 42.

(** One worker; a throwing task, then a normal one; the worker runs until it
    blocks on the empty queue. *)
Definition throw_then_return : list action :=
  [submit boom; submit answer;
   worker 0; worker 0; worker 0; worker 0; worker 0; worker 0; worker 0; worker 0].

(** Two submissions, the worker takes and runs the first, a third
    submission, and the worker is back in [dequeue]. *)
Definition fifo_schedule : list action :=
  [submit boom; submit answer; worker 0; worker 0; worker 0; submit answer; worker 0].

Definition fifo_events : list event :=
  [submitted {| stored := boom; state := 0 |};
   submitted {| stored := answer; state := 1 |};
   dequeued {| stored := boom; state := 0 |};
   executed {| stored := boom; state := 0 |};
   submitted {| stored := answer; state := 2 |}].

Definition fifo_pool : system :=
  {| queue_ :=
       {| task_queue.valid_ := true; task_queue.valid := true;
          task_queue.queue_ :=
            [{| stored := answer; state := 1 |}; {| stored := answer; state := 2 |}] |};
     workers_ :=
       [{| task_worker.stop_ := false;
           task_worker.task := Some {| stored := boom; state := 0 |};
           task_worker.at_ := task_worker.in_dequeue |}];
     futures := [failed (std_exception "boom"); pending; pending];
     output := silent;
     dtor := not_running |}.

(** A pool with one worker whose queue has been invalidated, and the same
    pool after [answer] has been submitted to it. *)
Definition invalidated_pool : system :=
  {| queue_ := task_queue.invalidate task_queue.create;
     workers_ := [task_worker.start task_worker.create];
     futures := []; output := silent; dtor := not_running |}.

Definition stranded_pool : system :=
  {| queue_ :=
       {| task_queue.valid_ := false; task_queue.valid := true;
          task_queue.queue_ := [{| stored := answer; state := 0 |}] |};
     workers_ := [task_worker.start task_worker.create];
     futures := [pending]; output := silent; dtor := not_running |}.

(** A pool with two units pending, and the same pool after [clear]. *)
Definition backlog_pool : system :=
  {| queue_ :=
       {| task_queue.valid_ := true; task_queue.valid := true;
          task_queue.queue_ :=
            [{| stored := boom; state := 0 |}; {| stored := answer; state := 1 |}] |};
     workers_ := [task_worker.start task_worker.create];
     futures := [pending; pending]; output := silent; dtor := not_running |}.

Definition cleared_pool : system :=
  {| queue_ := task_queue.create;
     workers_ := [task_worker.start task_worker.create];
     futures := [failed (future_error broken_promise);
                 failed (future_error broken_promise)];
     output := silent; dtor := not_running |}.

(** A submission, then the destructor: it invalidates, stops the worker,
    the worker leaves its loop, the destructor joins it and destroys the
    members. *)
Definition teardown_schedule : list action :=
  [submit answer; teardown; teardown; worker 0; teardown; teardown].

Definition teardown_events : list event :=
  [submitted {| stored := answer; state := 0 |}; invalidated; stopped 0; joined 0].

Definition torn_down_pool : system :=
  {| queue_ :=
       {| task_queue.valid_ := false; task_queue.valid := true;
          task_queue.queue_ := [] |};
     workers_ :=
       [{| task_worker.stop_ := true; task_worker.task := None;
           task_worker.at_ := task_worker.deleted |}];
     futures := [failed (future_error broken_promise)];
     output := silent; dtor := destroyed |}.

(** The state a future gets when its unit is called: the value the stored
    callable returns, or the object it throws. *)
Definition fulfilled (f : task_queue.function_t) : shared_state :=
  match stored f tt with
  | returns v => ready v
  | throws e => failed e
  end.

(** Every unresolved future still has its unit: in the queue, or in the
    hands of a worker that is about to call it. *)
Definition accounted (s : system) : Prop :=
  forall h,
    futures s !! h = Some pending ->
    (h ∈ state <$> task_queue.queue_ (queue_ s)) \/
    exists i w g,
      workers_ s !! i = Some w /\ task_worker.at_ w = task_worker.in_task /\
      task_worker.task w = Some g /\ state g = h.

(** How far the destructor has come: the workers before the one it is at
    are deleted, the one it waits for has its stop flag set, and at the end
    all are deleted and the queue is empty. *)
Definition teardown_progress (s : system) : Prop :=
  match dtor s with
  | not_running => True
  | deleting i b =>
      (forall j w, j < i -> workers_ s !! j = Some w ->
                   task_worker.at_ w = task_worker.deleted) /\
      (b = true ->
       exists w, workers_ s !! i = Some w /\ task_worker.stop_ w = true)
  | destroyed =>
      (forall j w, workers_ s !! j = Some w ->
                   task_worker.at_ w = task_worker.deleted) /\
      task_queue.queue_ (queue_ s) = []
  end.

(** Schedules in which only the workers and the destructor move. *)
Definition worker_or_teardown (a : action) : bool :=
  match a with
  | worker _ | teardown => true
  | _ => false
  end.

(** A worker of a pool has been started, and its thread has ended only if
    its stop flag is set. *)
Definition lifecycle (w : task_worker.t) : Prop :=
  task_worker.at_ w <> task_worker.unstarted /\
  (task_worker.at_ w = task_worker.exited \/
   task_worker.at_ w = task_worker.deleted ->
   task_worker.stop_ w = true).

(** From [s] the workers and the destructor alone can bring the destructor
    to its end. *)
Definition can_finish (s : system) : Prop :=
  exists tr evs s',
    forallb worker_or_teardown tr = true /\
    run tr s = Some (evs, s') /\
    dtor s' = destroyed.

(** More concrete runs: a worker that has taken [boom] and is about to call
    it; the pool [fifo_pool] after [clear]; and the pool [stranded_pool]
    after its worker has gone three steps round its loop. *)
Definition held_schedule : list action := [submit boom; worker 0; worker 0].

Definition held_events : list event :=
  [submitted {| stored := boom; state := 0 |};
   dequeued {| stored := boom; state := 0 |}].

Definition held_pool : system :=
  {| queue_ := task_queue.create;
     workers_ :=
       [{| task_worker.stop_ := false;
           task_worker.task := Some {| stored := boom; state := 0 |};
           task_worker.at_ := task_worker.in_task |}];
     futures := [pending]; output := silent; dtor := not_running |}.

Definition cleared_fifo_pool : system :=
  {| queue_ := task_queue.create;
     workers_ := workers_ fifo_pool;
     futures := [failed (std_exception "boom");
                 failed (future_error broken_promise);
                 failed (future_error broken_promise)];
     output := silent; dtor := not_running |}.

Definition spinning_pool : system :=
  {| queue_ := queue_ stranded_pool;
     workers_ :=
       [{| task_worker.stop_ := false; task_worker.task := None;
           task_worker.at_ := task_worker.in_dequeue |}];
     futures := [pending]; output := silent; dtor := not_running |}.

(** [k] steps of one worker thread with nobody else touching the queue. *)
Fixpoint worker_steps (k : nat) (w : task_worker.t) (q : task_queue.t)
    (fs : heap) (out : sinks)
  : option (task_worker.t * task_queue.t * heap * sinks) :=
  match k with
  | 0 => Some (w, q, fs, out)
  | S k' =>
      match task_worker.step w q fs out with
      | Some (_, w', q', fs', out') => worker_steps k' w' q' fs' out'
      | None => None
      end
  end.

(** A worker blocked in [dequeue]. *)
Definition blocked_worker : task_worker.t :=
  {| task_worker.stop_ := false; task_worker.task := None;
     task_worker.at_ := task_worker.in_dequeue |}.

(** A pool without workers after two submissions and a [clear] between
    them. *)
Definition idle_schedule : list action := [submit boom; clear; submit answer].

Definition idle_events : list event :=
  [submitted {| stored := boom; state := 0 |};
   submitted {| stored := answer; state := 1 |}].

Definition idle_pool : system :=
  {| queue_ :=
       {| task_queue.valid_ := true; task_queue.valid := true;
          task_queue.queue_ := [{| stored := answer; state := 1 |}] |};
     workers_ := [];
     futures := [failed (future_error broken_promise); pending];
     output := silent; dtor := not_running |}.

(** The stops and joins of a run, in order. *)
Definition stop_join_events (evs : list event) : list event :=
  omap (fun e => match e with
                 | stopped _ | joined _ => Some e
                 | _ => None
                 end) evs.

(** Stop and join of the workers [0] to [k - 1], one worker after the
    other. *)
Fixpoint stop_join_upto (k : nat) : list event :=
  match k with
  | 0 => []
  | S j => stop_join_upto j ++ [stopped j; joined j]
  end.

(** The stops and joins a destructor of a pool of [n] workers has done when
    it is at [d]. *)
Definition stop_join_log (n : nat) (d : destructor) : list event :=
  match d with
  | not_running => []
  | deleting i b => stop_join_upto i ++ (if b then [stopped i] else [])
  | destroyed => stop_join_upto n
  end.

(** The destructor's loop index stays within [workers_]. *)
Definition dtor_bounded (s : system) : Prop :=
  match dtor s with
  | deleting i b =>
      if b then i < length (workers_ s) else i <= length (workers_ s)
  | _ => True
  end.

(** Only the destructor deletes a worker, and only those it has passed. *)
Definition undeleted (s : system) : Prop :=
  forall j w,
    workers_ s !! j = Some w ->
    task_worker.at_ w = task_worker.deleted ->
    match dtor s with
    | not_running => False
    | deleting i _ => j < i
    | destroyed => True
    end.

(** No worker is inside a call that may fail to return. *)
Definition never_blocks (completes : task_queue.function_t -> heap -> bool)
    (s : system) : Prop :=
  forall i w f,
    workers_ s !! i = Some w ->
    task_worker.at_ w = task_worker.in_task ->
    task_worker.task w = Some f ->
    forall fs, completes f fs = true.

(** With the queue invalid nobody is asleep; a sleeper is a worker inside
    [dequeue]; and while units are pending some worker is awake. *)
Definition released (st : scheduler.t) : Prop :=
  task_queue.valid_ (queue_ (scheduler.pool st)) = false ->
  scheduler.asleep st = [].

Definition sleepers_wait (st : scheduler.t) : Prop :=
  forall i, i ∈ scheduler.asleep st ->
    exists w, workers_ (scheduler.pool st) !! i = Some w /\
              task_worker.at_ w = task_worker.in_dequeue.

Definition someone_awake (st : scheduler.t) : Prop :=
  task_queue.queue_ (queue_ (scheduler.pool st)) <> [] ->
  workers_ (scheduler.pool st) <> [] ->
  exists j, j < length (workers_ (scheduler.pool st)) /\ j ∉ scheduler.asleep st.

(** Tasks whose call always returns, and tasks whose call never does. *)
Definition prompt : task_queue.function_t -> heap -> bool := fun _ _ => true.
Definition hanging : task_queue.function_t -> heap -> bool := fun _ _ => false.

(** Two workers go to sleep in [dequeue]; the destructor invalidates the
    queue, stops the first worker, which leaves its loop, joins it, does
    the same with the second, and destroys the members. *)
Definition two_worker_teardown : list scheduler.move :=
  [scheduler.worker 0; scheduler.worker 0; scheduler.worker 1; scheduler.worker 1;
   scheduler.teardown;
   scheduler.teardown; scheduler.worker 0; scheduler.worker 0; scheduler.teardown;
   scheduler.teardown; scheduler.worker 1; scheduler.worker 1; scheduler.teardown;
   scheduler.teardown].

Definition two_worker_events : list event :=
  [invalidated; stopped 0; joined 0; stopped 1; joined 1].

Definition two_worker_end : scheduler.t :=
  {| scheduler.pool :=
       {| queue_ :=
            {| task_queue.valid_ := false; task_queue.valid := true;
               task_queue.queue_ := [] |};
          workers_ :=
            [{| task_worker.stop_ := true; task_worker.task := None;
                task_worker.at_ := task_worker.deleted |};
             {| task_worker.stop_ := true; task_worker.task := None;
                task_worker.at_ := task_worker.deleted |}];
          futures := []; output := silent; dtor := destroyed |};
     scheduler.asleep := [] |}.

(** The same run up to the moment both workers sleep. *)
Definition both_asleep : scheduler.t :=
  {| scheduler.pool :=
       {| queue_ := task_queue.create;
          workers_ := [blocked_worker; blocked_worker];
          futures := []; output := silent; dtor := not_running |};
     scheduler.asleep := [1; 0] |}.

(** [held_pool] and [backlog_pool] with everybody awake. *)
Definition held_awake : scheduler.t :=
  {| scheduler.pool := held_pool; scheduler.asleep := [] |}.

Definition held_moves : list scheduler.move :=
  [scheduler.submit boom None; scheduler.worker 0; scheduler.worker 0].

Definition backlog_awake : scheduler.t :=
  {| scheduler.pool := backlog_pool; scheduler.asleep := [] |}.

Definition backlog_moves : list scheduler.move :=
  [scheduler.submit boom None; scheduler.submit answer None].

End vocabulary.

(** * Properties of the queue *)
Section queue_facts.
Import future task_queue.

Implicit Types (q : task_queue.t) (fs : heap) (out : option function_t).

Lemma wait_pred_false q : wait_pred q = false <-> queue_ q = [] /\ valid_ q = true.
Proof.
  unfold wait_pred. destruct q as [v v' [|f l]]; simpl; destruct v; simpl;
    intuition congruence.
Qed.

Lemma pop_all_nil pend fs : (pop_all pend fs).1 = [].
Proof. revert fs. induction pend as [|f rest IH]; intros fs; simpl; auto. Qed.

Lemma pop_all_foldl pend fs : (pop_all pend fs).2 = foldl (fun h f => abandon f h) fs pend.
Proof. revert fs. induction pend as [|f rest IH]; intros fs; simpl; auto. Qed.

Lemma clear_eq q fs :
  clear q fs =
  ({| valid_ := valid_ q; valid := valid q; queue_ := [] |},
   foldl (fun h f => abandon f h) fs (queue_ q)).
Proof.
  unfold clear. rewrite <- pop_all_foldl, <- (pop_all_nil (queue_ q) fs).
  destruct (pop_all (queue_ q) fs); reflexivity.
Qed.

(** C1: [dequeue] stays blocked exactly while the pending sequence is empty
    and the queue is valid; when it returns, it returns [false] exactly on an
    invalidated queue, leaving the sequence, the caller's variable and the
    futures as they were, and otherwise it returns [true] with the head unit
    moved into the caller's variable and removed from the sequence. *)
Theorem dequeue_blocks_closes_or_takes_head out q fs :
  match dequeue out q fs with
  | (blocked, out', q', fs') =>
      queue_ q = [] /\ valid_ q = true /\ out' = out /\ q' = q /\ fs' = fs
  | (returned false, out', q', fs') =>
      valid_ q = false /\ out' = out /\ q' = q /\ fs' = fs
  | (returned true, out', q', fs') =>
      valid_ q = true /\
      exists f, out' = Some f /\ queue_ q = f :: queue_ q' /\
                valid_ q' = valid_ q /\ valid q' = valid q /\
                fs' = release out fs
  end.
Proof.
  unfold dequeue. case_eq (wait_pred q); intros Hp.
  - case_eq (valid_ q); intros Hv; simpl.
    + unfold wait_pred in Hp. rewrite Hv in Hp. simpl in Hp.
      destruct (queue_ q) as [|f rest] eqn:Hq; simpl in Hp; [discriminate|].
      split; [reflexivity|]. exists f. simpl. auto.
    + auto.
  - apply wait_pred_false in Hp as [Hq Hv]. auto.
Qed.

Lemma dequeue_valid_nil out q fs :
  valid_ q = true -> queue_ q = [] -> dequeue out q fs = (blocked, out, q, fs).
Proof.
  intros Hv Hq. unfold dequeue, wait_pred. by rewrite Hv, Hq.
Qed.

Lemma dequeue_valid_cons out q fs f rest :
  valid_ q = true -> queue_ q = f :: rest ->
  dequeue out q fs =
  (returned true, Some f,
   {| valid_ := valid_ q; valid := valid q; queue_ := rest |}, release out fs).
Proof.
  intros Hv Hq. unfold dequeue, wait_pred. by rewrite Hv, Hq.
Qed.

Lemma dequeue_invalid out q fs :
  valid_ q = false -> dequeue out q fs = (returned false, out, q, fs).
Proof.
  intros Hv. unfold dequeue, wait_pred. by rewrite Hv, orb_true_r.
Qed.

(** C4: a second [invalidate] changes nothing: the state after two calls is
    the state after one, the call is a total function (nothing is thrown),
    and every later call of a queue method, in particular the check of a
    waiter woken by the second notification, gives the same reply. *)
Theorem invalidate_idempotent q :
  invalidate (invalidate q) = invalidate q /\
  valid_ (invalidate q) = false /\
  (forall m fs, apply m (invalidate (invalidate q)) fs = apply m (invalidate q) fs) /\
  (forall out fs, dequeue out (invalidate q) fs = (returned false, out, invalidate q, fs)).
Proof.
  assert (Hidem : invalidate (invalidate q) = invalidate q) by reflexivity.
  repeat split; auto.
  intros out fs. unfold dequeue, wait_pred. simpl.
  rewrite orb_true_r. reflexivity.
Qed.

Lemma apply_valid__false m q fs :
  valid_ q = false -> valid_ (apply m q fs).1.2 = false.
Proof.
  intros Hv. destruct m; simpl; auto.
  - unfold dequeue, wait_pred. rewrite Hv, orb_true_r. simpl. exact Hv.
  - rewrite clear_eq. simpl. exact Hv.
Qed.

Lemma apply_all_cons m ms q fs :
  apply_all (m :: ms) q fs =
  (let r := apply m q fs in
   let rs := apply_all ms r.1.2 r.2 in
   (r.1.1 :: rs.1.1, rs.1.2, rs.2)).
Proof.
  simpl. destruct (apply m q fs) as [[r q'] fs']. simpl.
  destruct (apply_all ms q' fs') as [[rs q''] fs'']. reflexivity.
Qed.

(** C7: once [valid_] is false no history of queue calls (enqueue, dequeue,
    clear, invalidate, empty, is_valid) makes it true again: after any such
    history [is_valid] returns false. *)
Theorem invalidation_is_irreversible (ms : list call) q fs :
  valid_ q = false ->
  is_valid (apply_all ms q fs).1.2 = false.
Proof.
  revert q fs. induction ms as [|m ms IH]; intros q fs Hv.
  - exact Hv.
  - rewrite apply_all_cons. simpl. apply IH. by apply apply_valid__false.
Qed.

Lemma apply_with_valid m q fs b :
  apply m (with_valid b q) fs =
  (let r := apply m q fs in (r.1.1, with_valid b r.1.2, r.2)).
Proof.
  destruct m; simpl; try reflexivity.
  - unfold dequeue, wait_pred. simpl.
    destruct (negb (is_nil (queue_ q)) || negb (valid_ q)); [|reflexivity].
    destruct (negb (valid_ q)); [reflexivity|].
    destruct (queue_ q); reflexivity.
  - rewrite !clear_eq. reflexivity.
Qed.

Lemma apply_valid_unchanged m q fs : valid (apply m q fs).1.2 = valid q.
Proof.
  destruct m; simpl; try reflexivity.
  - unfold dequeue.
    destruct (wait_pred q); [|reflexivity].
    destruct (negb (valid_ q)); [reflexivity|].
    destruct (queue_ q); reflexivity.
  - rewrite clear_eq. reflexivity.
Qed.

(** C9: the member [valid] is vestigial.  The constructor sets it to true;
    no method reads it (with any other value in it, every method gives the
    same reply, the same futures and the same [valid_] and [queue_]); no
    method writes it (the value put in is the value found afterwards); so it
    is true after every history of calls on a fresh queue. *)
Theorem valid_member_is_vestigial :
  valid create = true /\
  (forall m q fs b,
     apply m (with_valid b q) fs =
     (let r := apply m q fs in (r.1.1, with_valid b r.1.2, r.2))) /\
  (forall m q fs, valid (apply m q fs).1.2 = valid q) /\
  (forall ms fs, valid (apply_all ms create fs).1.2 = true).
Proof.
  split; [reflexivity|]. split; [exact apply_with_valid|].
  split; [exact apply_valid_unchanged|].
  intros ms. generalize create (eq_refl : valid create = true).
  induction ms as [|m ms IH]; intros q Hq fs.
  - exact Hq.
  - rewrite apply_all_cons. simpl. apply IH.
    by rewrite apply_valid_unchanged.
Qed.

(** C10: [dequeue] returns false exactly when, at a check that finds the wait
    predicate satisfied, the queue is invalid; and after [clear] a waiter
    that re-checks a still valid queue finds the predicate false and goes on
    waiting, with nothing changed (on an invalid queue it returns false). *)
Theorem dequeue_closed_iff_invalid out q fs :
  ((dequeue out q fs).1.1.1 = returned false <->
   wait_pred q = true /\ valid_ q = false) /\
  (let r := clear q fs in
   dequeue out r.1 r.2 =
   (if valid_ q then blocked else returned false, out, r.1, r.2)).
Proof.
  split.
  - unfold dequeue, wait_pred.
    destruct (valid_ q), (queue_ q); simpl; intuition congruence.
  - rewrite clear_eq. unfold dequeue, wait_pred. simpl.
    destruct (valid_ q); reflexivity.
Qed.

End queue_facts.

(** * The steps of a worker and of the pool, case by case *)
Section step_cases.
Import future logger task_pool.

Lemma worker_step_move w q fs out evs w' q' fs' out' :
  task_worker.step w q fs out = Some (evs, w', q', fs', out') ->
  worker_move w q fs out evs w' q' fs' out'.
Proof.
  unfold task_worker.step. intros H.
  destruct (task_worker.at_ w) eqn:Hat; try discriminate.
  - unfold atomic.load in H.
    destruct (task_worker.stop_ w) eqn:Hs; inversion H; subst.
    + pose proof (move_exit w q' fs out' Hat Hs) as M. by rewrite Hs in M.
    + by apply move_enter.
  - destruct (task_queue.valid_ q) eqn:Hv.
    + destruct (task_queue.queue_ q) as [|f rest] eqn:Hq.
      * rewrite (dequeue_valid_nil _ _ _ Hv Hq) in H. inversion H; subst.
        by apply move_wait.
      * rewrite (dequeue_valid_cons _ _ _ _ _ Hv Hq) in H. inversion H; subst.
        by apply move_take.
    + rewrite (dequeue_invalid _ _ _ Hv) in H. inversion H; subst.
      by apply move_closed.
  - destruct (task_worker.task w) as [f|] eqn:Ht.
    + destruct (invoke f fs) as [fs1 thrown] eqn:Hi.
      replace fs1 with (invoke f fs).1 in * by (by rewrite Hi).
      destruct thrown as [e|].
      * destruct (what e) as [msg|] eqn:Hw; inversion H; subst;
          eapply move_run; eauto; rewrite Hi; simpl; by rewrite Hw.
      * inversion H; subst. eapply move_run; eauto. by rewrite Hi.
    + inversion H; subst. by apply move_empty_function.
Qed.

(** [invoke] and [abandon] only ever write an unresolved state, and only the
    one of the task they are applied to. *)
Lemma invoke_lookup f fs h :
  (invoke f fs).1 !! h =
  if decide (h = state f /\ fs !! h = Some pending)
  then Some (match stored f tt with returns v => ready v | throws e => failed e end)
  else fs !! h.
Proof.
  unfold invoke. case_decide as Hd.
  - destruct Hd as [-> Hp]. rewrite Hp.
    apply lookup_lt_Some in Hp as Hlt.
    destruct (stored f tt); simpl; by rewrite list_lookup_insert_eq.
  - destruct (fs !! state f) as [[| |]|] eqn:Hs; simpl; try reflexivity.
    assert (state f <> h) by (intros <-; apply Hd; auto).
    destruct (stored f tt); simpl; by rewrite list_lookup_insert_ne.
Qed.

Lemma invoke_length f fs : length (invoke f fs).1 = length fs.
Proof.
  unfold invoke. destruct (fs !! state f) as [[| |]|]; simpl; auto.
  destruct (stored f tt); simpl; by rewrite length_insert.
Qed.

Lemma abandon_lookup f fs h :
  abandon f fs !! h =
  if decide (h = state f /\ fs !! h = Some pending)
  then Some (failed (future_error broken_promise))
  else fs !! h.
Proof.
  unfold abandon. case_decide as Hd.
  - destruct Hd as [-> Hp]. rewrite Hp.
    apply lookup_lt_Some in Hp as Hlt. by rewrite list_lookup_insert_eq.
  - destruct (fs !! state f) as [[| |]|] eqn:Hs; simpl; try reflexivity.
    assert (state f <> h) by (intros <-; apply Hd; auto).
    by rewrite list_lookup_insert_ne.
Qed.

Lemma abandon_length f fs : length (abandon f fs) = length fs.
Proof.
  unfold abandon. destruct (fs !! state f) as [[| |]|]; simpl; auto.
  by rewrite length_insert.
Qed.

Lemma release_lookup o fs h :
  task_queue.release o fs !! h =
  match o with
  | Some f =>
      if decide (h = state f /\ fs !! h = Some pending)
      then Some (failed (future_error broken_promise))
      else fs !! h
  | None => fs !! h
  end.
Proof. destruct o; simpl; [apply abandon_lookup|reflexivity]. Qed.

Lemma release_length o fs : length (task_queue.release o fs) = length fs.
Proof. destruct o; simpl; [apply abandon_length|reflexivity]. Qed.

(** Destroying a whole backlog. *)
Lemma abandon_all_length pend fs :
  length (foldl (fun h f => abandon f h) fs pend) = length fs.
Proof.
  revert fs. induction pend as [|f rest IH]; intros fs; simpl; [done|].
  by rewrite IH, abandon_length.
Qed.

Lemma abandon_all_lookup pend fs h :
  foldl (fun h f => abandon f h) fs pend !! h =
  if decide (h ∈ state <$> pend /\ fs !! h = Some pending)
  then Some (failed (future_error broken_promise))
  else fs !! h.
Proof.
  revert fs. induction pend as [|f rest IH]; intros fs; cbn [foldl].
  - rewrite fmap_nil. case_decide as Hd; [|done].
    destruct Hd as [Hd _]. by apply not_elem_of_nil in Hd.
  - rewrite IH, abandon_lookup, fmap_cons.
    pose proof (elem_of_cons (state <$> rest) h (state f)) as Hcons.
    repeat case_decide; try done; exfalso; intuition congruence.
Qed.

End step_cases.

Section pool_cases.
Import future logger task_pool.

Lemma step_move a s evs s' :
  step a s = Some (evs, s') -> dtor s <> destroyed /\ pool_move s a evs s'.
Proof.
  unfold step. intros H.
  assert (Hd : dtor s <> destroyed) by (intros E; rewrite E in H; discriminate).
  split; [exact Hd|].
  assert (H' : perform a s = Some (evs, s'))
    by (destruct (dtor s); [exact H|exact H|congruence]).
  clear H. unfold perform in H'. destruct a.
  - simpl in H'. inversion H'; subst. apply pool_submit.
  - destruct (workers_ s !! i) as [w|] eqn:Hw; [|discriminate].
    destruct (task_worker.step w (queue_ s) (futures s) (output s))
      as [[[[[evs0 w'] q'] fs'] out']|] eqn:Hs; [|discriminate].
    inversion H'; subst. apply worker_step_move in Hs.
    by eapply pool_worker.
  - rewrite clear_eq in H'. inversion H'; subst. apply pool_clear.
  - inversion H'; subst. apply pool_invalidate.
  - inversion H'; subst. apply pool_empty.
  - inversion H'; subst. apply pool_is_valid.
  - unfold teardown_step in H'.
    destruct (dtor s) as [|i [|]|] eqn:Hdt; [| | |congruence].
    + inversion H'; subst. by apply pool_teardown_invalidate.
    + destruct (workers_ s !! i) as [w|] eqn:Hw; [|discriminate].
      destruct (negb (task_worker.joinable w) || task_worker.join_returns w) eqn:Hj;
        [|discriminate].
      inversion H'; subst. eapply pool_teardown_join; eauto.
      unfold task_worker.joinable, task_worker.join_returns in Hj.
      destruct (task_worker.at_ w); simpl in Hj; auto; discriminate.
    + destruct (workers_ s !! i) as [w|] eqn:Hw.
      * inversion H'; subst. by eapply pool_teardown_stop.
      * unfold task_queue.destroy in H'. inversion H'; subst.
        by eapply pool_teardown_members.
Qed.

End pool_cases.

(** * Runs of the pool *)
Section runs.
Import future logger task_pool.

Lemma run_cons a tr s evs s' :
  run (a :: tr) s = Some (evs, s') ->
  exists ev s1 evs',
    step a s = Some (ev, s1) /\ run tr s1 = Some (evs', s') /\ evs = ev ++ evs'.
Proof.
  simpl. destruct (step a s) as [[ev s1]|]; [|discriminate].
  destruct (run tr s1) as [[evs' s2]|] eqn:Hr; [|discriminate].
  intros [= <- <-]. by exists ev, s1, evs'.
Qed.

(** A property kept by every step holds at the end of every run. *)
Lemma run_invariant (P : system -> Prop) :
  (forall a s ev s1, P s -> step a s = Some (ev, s1) -> P s1) ->
  forall tr s evs s', P s -> run tr s = Some (evs, s') -> P s'.
Proof.
  intros Hstep. induction tr as [|a tr IH]; intros s evs s' HP Hrun.
  - inversion Hrun; by subst.
  - apply run_cons in Hrun as (ev & s1 & evs' & Hs & Hr & ->). eauto.
Qed.

Lemma spawn_eq n ws :
  spawn n ws = ws ++ replicate n (task_worker.start task_worker.create).
Proof.
  revert ws. induction n as [|n IH]; intros ws; simpl.
  - by rewrite app_nil_r.
  - rewrite IH, <- app_assoc. reflexivity.
Qed.

Lemma create_workers n i w :
  workers_ (create n) !! i = Some w ->
  w = task_worker.start task_worker.create.
Proof.
  simpl. rewrite spawn_eq. simpl. intros H.
  apply lookup_replicate in H. tauto.
Qed.

Lemma worker_move_stop w q fs out evs w' q' fs' out' :
  worker_move w q fs out evs w' q' fs' out' ->
  task_worker.stop_ w' = task_worker.stop_ w.
Proof. destruct 1; reflexivity. Qed.

Lemma worker_move_valid w q fs out evs w' q' fs' out' :
  worker_move w q fs out evs w' q' fs' out' ->
  task_queue.valid_ q' = task_queue.valid_ q /\
  task_queue.valid q' = task_queue.valid q.
Proof. destruct 1; auto. Qed.

(** No step of the pool, whoever takes it, makes an invalid queue valid. *)
Lemma step_stays_invalid a s ev s1 :
  task_queue.valid_ (queue_ s) = false ->
  step a s = Some (ev, s1) ->
  task_queue.valid_ (queue_ s1) = false.
Proof.
  intros Hv Hs. apply step_move in Hs as [_ Hm].
  destruct Hm; simpl; auto.
  match goal with H : worker_move _ _ _ _ _ _ _ _ _ |- _ =>
    apply worker_move_valid in H as [-> _] end.
  exact Hv.
Qed.

Lemma teardown_inv_create n : teardown_inv (create n).
Proof.
  split; [done|]. intros i w Hw Hs.
  apply create_workers in Hw. subst w. discriminate.
Qed.

Lemma teardown_inv_step a s ev s1 :
  teardown_inv s -> step a s = Some (ev, s1) -> teardown_inv s1.
Proof.
  intros [Hq Hw] Hs. apply step_move in Hs as [_ Hm].
  destruct Hm; split; simpl in *; auto; try congruence.
  - match goal with H : worker_move _ _ _ _ _ _ _ _ _ |- _ =>
      apply worker_move_valid in H as [-> _] end. exact Hq.
  - intros j wj Hj Hstop.
    apply list_lookup_insert_Some in Hj as [(-> & <- & _)|[_ Hj]]; [|eauto].
    match goal with H : worker_move _ _ _ _ _ _ _ _ _ |- _ =>
      apply worker_move_stop in H end.
    eapply Hw; [eassumption|congruence].
  - intros _. apply Hq. congruence.
  - intros _. apply Hq. congruence.
Qed.

(** Which step can emit which event, and how the destructor advances. *)
Lemma pool_move_events s a ev s1 :
  pool_move s a ev s1 ->
  (forall i, stopped i ∈ ev -> dtor s = deleting i false) /\
  (forall i, joined i ∈ ev -> dtor s = deleting i true) /\
  (dtor s = not_running -> dtor s1 = not_running \/ ev = [invalidated]) /\
  (forall i, dtor s1 = deleting i true -> dtor s = deleting i true \/ ev = [stopped i]).
Proof.
  assert (Hnil : forall e : event, e ∈ @nil event -> False)
    by (intros e He; by apply not_elem_of_nil in He).
  assert (Hone : forall e e' : event, e ∈ [e'] -> e = e')
    by (intros e e' He; by apply list_elem_of_singleton in He).
  destruct 1 as [c|i w evs w' q' fs' out' Hw Hm| | | | |Hd|i w Hd Hw|i Hd Hw|i w Hd Hw Hat];
    simpl; repeat split; intros; auto;
    try (exfalso; eapply Hnil; eassumption);
    try match goal with H : _ ∈ [_] |- _ => apply Hone in H; try discriminate end;
    try congruence.
  - exfalso. destruct Hm;
      try (eapply Hnil; eassumption);
      match goal with H : _ ∈ [_] |- _ => apply Hone in H; discriminate end.
  - exfalso. destruct Hm;
      try (eapply Hnil; eassumption);
      match goal with H : _ ∈ [_] |- _ => apply Hone in H; discriminate end.
  - right. congruence.
Qed.

Lemma stop_follows_invalidate tr s evs s' :
  run tr s = Some (evs, s') ->
  dtor s = not_running ->
  forall k i, evs !! k = Some (stopped i) ->
              exists j, j < k /\ evs !! j = Some invalidated.
Proof.
  revert s evs. induction tr as [|a tr IH]; intros s evs Hrun Hd k i Hk.
  - inversion Hrun; subst. by rewrite lookup_nil in Hk.
  - apply run_cons in Hrun as (ev & s1 & evs' & Hs & Hr & ->).
    apply step_move in Hs as [_ Hm].
    apply pool_move_events in Hm as (Hstop & _ & Hnext & _).
    apply lookup_app_Some in Hk as [Hk|[Hlen Hk]].
    + apply list_elem_of_lookup_2 in Hk. apply Hstop in Hk. congruence.
    + destruct (Hnext Hd) as [Hd1| ->].
      * destruct (IH _ _ Hr Hd1 _ _ Hk) as (j & Hj & Hev).
        exists (length ev + j). split; [lia|].
        rewrite lookup_app_r by lia.
        by replace (length ev + j - length ev) with j by lia.
      * exists 0. simpl in *. split; [|done].
        destruct k; [|lia]. simpl in Hlen. lia.
Qed.

Lemma join_follows_stop tr s evs s' :
  run tr s = Some (evs, s') ->
  forall k i, evs !! k = Some (joined i) ->
              dtor s = deleting i true \/
              exists j, j < k /\ evs !! j = Some (stopped i).
Proof.
  revert s evs. induction tr as [|a tr IH]; intros s evs Hrun k i Hk.
  - inversion Hrun; subst. by rewrite lookup_nil in Hk.
  - apply run_cons in Hrun as (ev & s1 & evs' & Hs & Hr & ->).
    apply step_move in Hs as [_ Hm].
    apply pool_move_events in Hm as (_ & Hjoin & _ & Hprev).
    apply lookup_app_Some in Hk as [Hk|[Hlen Hk]].
    + apply list_elem_of_lookup_2 in Hk. left. by apply Hjoin.
    + destruct (IH _ _ Hr _ _ Hk) as [Hd1|(j & Hj & Hev)].
      * destruct (Hprev _ Hd1) as [Hd| ->]; [by left|].
        right. exists 0. simpl in *. split; [|done].
        destruct k; [|lia]. simpl in Hlen. lia.
      * right. exists (length ev + j). split; [lia|].
        rewrite lookup_app_r by lia.
        by replace (length ev + j - length ev) with j by lia.
Qed.

End runs.

(** * Order of submission, removal and execution *)
Section fifo.
Import future logger task_pool.

Lemma submissions_app evs evs' :
  submissions (evs ++ evs') = submissions evs ++ submissions evs'.
Proof. apply omap_app. Qed.

Lemma dequeues_app evs evs' : dequeues (evs ++ evs') = dequeues evs ++ dequeues evs'.
Proof. apply omap_app. Qed.

Lemma executions_app evs evs' :
  executions (evs ++ evs') = executions evs ++ executions evs'.
Proof. apply omap_app. Qed.

Lemma worker_move_queue w q fs out evs w' q' fs' out' :
  worker_move w q fs out evs w' q' fs' out' ->
  submissions evs = [] /\
  task_queue.queue_ q = dequeues evs ++ task_queue.queue_ q' /\
  in_flight w ++ dequeues evs = executions evs ++ in_flight w'.
Proof.
  destruct 1 as [Hat Hs|Hat Hs|Hat Hq Hv|Hat Hv|f rest Hat Hv Hq|f l o Hat Ht Hl|Hat Ht];
    unfold in_flight; simpl; rewrite ?Hat, ?Ht; simpl; auto.
  repeat split.
  destruct ((invoke f fs).2) as [e|]; [destruct (what e)|];
    inversion Hl; subst; reflexivity.
Qed.

Lemma step_queue a s ev s1 :
  producer_consumer a = true ->
  step a s = Some (ev, s1) ->
  task_queue.queue_ (queue_ s) ++ submissions ev =
  dequeues ev ++ task_queue.queue_ (queue_ s1).
Proof.
  intros Ha Hs. apply step_move in Hs as [_ Hm].
  destruct Hm; try discriminate; simpl.
  - reflexivity.
  - match goal with H : worker_move _ _ _ _ _ _ _ _ _ |- _ =>
      apply worker_move_queue in H as (-> & -> & _) end.
    by rewrite app_nil_r.
Qed.

Lemma step_single_worker a s ev s1 w :
  producer_consumer a = true ->
  workers_ s = [w] ->
  step a s = Some (ev, s1) ->
  exists w1, workers_ s1 = [w1] /\
             in_flight w ++ dequeues ev = executions ev ++ in_flight w1.
Proof.
  intros Ha Hw Hs. apply step_move in Hs as [_ Hm].
  destruct Hm as [c|i w0 evs w' q' fs' out' Hi Hm| | | | | | | |];
    try discriminate; simpl.
  - exists w. by rewrite app_nil_r.
  - rewrite Hw in Hi |- *. destruct i as [|i]; [|by destruct i].
    injection Hi as <-. exists w'. split; [reflexivity|].
    by apply worker_move_queue in Hm as (_ & _ & ->).
Qed.

Lemma forallb_Forall {A} (p : A -> bool) (l : list A) :
  forallb p l = true -> Forall (fun a => p a = true) l.
Proof.
  induction l as [|a l IH]; simpl; intros H; constructor;
    apply andb_true_iff in H as [Ha Hl]; auto.
Qed.

Lemma run_queue tr s evs s' :
  Forall (fun a => producer_consumer a = true) tr ->
  run tr s = Some (evs, s') ->
  task_queue.queue_ (queue_ s) ++ submissions evs =
  dequeues evs ++ task_queue.queue_ (queue_ s').
Proof.
  intros Htr. revert s evs. induction Htr as [|a tr Ha Htr IH]; intros s evs Hrun.
  - inversion Hrun; subst. by rewrite app_nil_r.
  - apply run_cons in Hrun as (ev & s1 & evs' & Hs & Hr & ->).
    rewrite submissions_app, dequeues_app.
    rewrite app_assoc, (step_queue _ _ _ _ Ha Hs).
    rewrite <- !app_assoc. f_equal. by apply IH.
Qed.

Lemma run_single_worker tr s evs s' w :
  Forall (fun a => producer_consumer a = true) tr ->
  workers_ s = [w] ->
  run tr s = Some (evs, s') ->
  exists w', workers_ s' = [w'] /\
             in_flight w ++ dequeues evs = executions evs ++ in_flight w'.
Proof.
  intros Htr. revert s evs w.
  induction Htr as [|a tr Ha Htr IH]; intros s evs w Hw Hrun.
  - inversion Hrun; subst. exists w. by rewrite app_nil_r.
  - apply run_cons in Hrun as (ev & s1 & evs' & Hs & Hr & ->).
    destruct (step_single_worker _ _ _ _ _ Ha Hw Hs) as (w1 & Hw1 & Hev).
    destruct (IH _ _ _ Hw1 Hr) as (w' & Hw' & Hevs).
    exists w'. split; [exact Hw'|].
    rewrite dequeues_app, executions_app.
    by rewrite app_assoc, Hev, <- app_assoc, Hevs, app_assoc.
Qed.

Lemma in_flight_length w : length (in_flight w) <= 1.
Proof.
  unfold in_flight.
  destruct (task_worker.at_ w), (task_worker.task w); simpl; lia.
Qed.

(** C2: in a run of submissions and worker steps on a fresh pool, the units
    handed out by successful [dequeue] calls are, in this order, the first of
    the units submitted, and what is left in the queue are the others in
    order; with one worker the units executed are the dequeued ones in the
    same order, but for the at most one unit taken and not yet called, so
    execution order is submission order. *)
Theorem fifo_order n tr evs s :
  forallb producer_consumer tr = true ->
  run tr (create n) = Some (evs, s) ->
  submissions evs = dequeues evs ++ task_queue.queue_ (queue_ s) /\
  (n = 1 ->
   executions evs `prefix_of` submissions evs /\
   exists held, length held <= 1 /\ dequeues evs = executions evs ++ held).
Proof.
  intros Htr Hrun. apply forallb_Forall in Htr.
  pose proof (run_queue _ _ _ _ Htr Hrun) as Hq.
  simpl in Hq. split; [exact Hq|].
  intros ->.
  destruct (run_single_worker tr (create 1) evs s
              (task_worker.start task_worker.create) Htr eq_refl Hrun)
    as (w' & _ & Hw).
  simpl in Hw. split.
  - rewrite Hq, Hw, <- app_assoc. by eexists.
  - exists (in_flight w'). split; [apply in_flight_length|exact Hw].
Qed.

End fifo.

(** * Ownership of the units and their futures *)
Section ownership.
Import future logger task_pool.

Lemma holds_insert ws i w' g :
  holds (<[i := w']> ws) g ->
  task_worker.task w' = Some g \/
  exists j w, j <> i /\ ws !! j = Some w /\ task_worker.task w = Some g.
Proof.
  intros (j & w & Hj & Ht).
  apply list_lookup_insert_Some in Hj as [(-> & <- & _)|[Hne Hj]]; [by left|].
  right. exists j, w. auto.
Qed.

Lemma holds_insert_same ws i w w' g :
  ws !! i = Some w ->
  task_worker.task w' = task_worker.task w \/ task_worker.task w' = None ->
  holds (<[i := w']> ws) g -> holds ws g.
Proof.
  intros Hi Ht Hg. apply holds_insert in Hg as [Hg|(j & wj & _ & Hj & Hg)].
  - destruct Ht as [Ht|Ht]; [|congruence]. exists i, w. split; [done|congruence].
  - exists j, wj. auto.
Qed.

Lemma resolved_stable_refl fs : resolved_stable fs fs.
Proof. by intros h st Hh _. Qed.

Lemma resolved_stable_trans fs1 fs2 fs3 :
  resolved_stable fs1 fs2 -> resolved_stable fs2 fs3 -> resolved_stable fs1 fs3.
Proof. intros H12 H23 h st Hh Hst. eauto. Qed.

Lemma release_stable o fs : resolved_stable fs (task_queue.release o fs).
Proof.
  intros h st Hh Hst. rewrite release_lookup. destruct o; [|done].
  case_decide as Hd; [|done]. destruct Hd as [_ Hd]. congruence.
Qed.

Lemma invoke_stable f fs : resolved_stable fs (invoke f fs).1.
Proof.
  intros h st Hh Hst. rewrite invoke_lookup.
  case_decide as Hd; [|done]. destruct Hd as [_ Hd]. congruence.
Qed.

Lemma release_other o fs h :
  (forall g, o = Some g -> state g <> h) -> task_queue.release o fs !! h = fs !! h.
Proof.
  intros Hh. rewrite release_lookup. destruct o as [g|]; [|done].
  case_decide as Hd; [|done]. destruct Hd as [-> _]. by destruct (Hh g).
Qed.

Lemma invoke_other f fs h : state f <> h -> (invoke f fs).1 !! h = fs !! h.
Proof.
  intros Hh. rewrite invoke_lookup.
  case_decide as Hd; [|done]. destruct Hd as [-> _]. done.
Qed.

(** What a worker step does to the futures. *)
Lemma worker_move_futures w q fs out evs w' q' fs' out' :
  worker_move w q fs out evs w' q' fs' out' ->
  length fs' = length fs /\
  resolved_stable fs fs' /\
  (forall h, (forall g, task_worker.task w = Some g -> state g <> h) ->
             fs' !! h = fs !! h).
Proof.
  destruct 1; rewrite ?release_length, ?invoke_length;
    (split; [reflexivity|]); split;
    auto using resolved_stable_refl, release_stable, invoke_stable, release_other.
  intros h Hh. apply invoke_other. auto.
Qed.

(** What it does to the queue and to its variable [task]. *)
Lemma worker_move_task w q fs out evs w' q' fs' out' :
  worker_move w q fs out evs w' q' fs' out' ->
  (task_queue.queue_ q' = task_queue.queue_ q /\
   (task_worker.task w' = task_worker.task w \/ task_worker.task w' = None)) \/
  (exists f, task_worker.task w' = Some f /\
             task_queue.queue_ q = f :: task_queue.queue_ q' /\
             task_queue.valid_ q = true).
Proof. destruct 1; simpl; eauto 6. Qed.

(** Which units it can report as dequeued or executed. *)
Lemma worker_move_reports w q fs out evs w' q' fs' out' :
  worker_move w q fs out evs w' q' fs' out' ->
  (forall g, executed g ∈ evs -> task_worker.task w = Some g) /\
  (forall g, dequeued g ∈ evs ->
             task_queue.valid_ q = true /\
             exists rest, task_queue.queue_ q = g :: rest).
Proof.
  assert (Hnil : forall e : event, e ∈ @nil event -> False)
    by (intros e He; by apply not_elem_of_nil in He).
  assert (Hone : forall e e' : event, e ∈ [e'] -> e = e')
    by (intros e e' He; by apply list_elem_of_singleton in He).
  destruct 1; split; intros g Hg;
    try (by destruct (Hnil _ Hg)); apply Hone in Hg; try discriminate;
    injection Hg as ->; eauto.
Qed.

Lemma well_formed_create n : well_formed (create n).
Proof.
  split; [constructor|]. split.
  - intros f Hf. by apply not_elem_of_nil in Hf.
  - intros g (i & w & Hw & Ht). apply create_workers in Hw. by subst w.
Qed.

Lemma abandon_all_stable pend fs :
  resolved_stable fs (foldl (fun h f => abandon f h) fs pend).
Proof.
  intros h st Hh Hst. rewrite abandon_all_lookup.
  case_decide as Hd; [|done]. destruct Hd as [_ Hd]. congruence.
Qed.

Lemma well_formed_step a s ev s1 :
  well_formed s -> step a s = Some (ev, s1) -> well_formed s1.
Proof.
  intros (Hnd & Hpend & Hheld) Hs. apply step_move in Hs as [_ Hm].
  assert (Hlt : forall f, f ∈ task_queue.queue_ (queue_ s) ->
                          state f < length (futures s)).
  { intros f Hf. eapply lookup_lt_Some, Hpend, Hf. }
  destruct Hm as [c|i w evs w' q' fs' out' Hw Hm| | | | |Hd|i w Hd Hw|i Hd Hw|i w Hd Hw Hat];
    unfold well_formed; simpl; try by auto.
  - (* submit *)
    rewrite fmap_app, length_app. simpl. split_and!.
    + apply NoDup_app. split; [exact Hnd|]. split; [|apply NoDup_singleton].
      intros h Hh Hh'. apply list_elem_of_singleton in Hh'. subst h.
      apply list_elem_of_fmap in Hh as (f & Hf & Hin). apply Hlt in Hin. lia.
    + intros f Hf. apply elem_of_app in Hf as [Hf|Hf].
      * apply lookup_app_l_Some. by apply Hpend.
      * apply list_elem_of_singleton in Hf. subst f. simpl.
        by rewrite lookup_app_r, Nat.sub_diag by lia.
    + intros g Hg. apply Hheld in Hg as [Hb Hn]. split; [lia|].
      intros Hin. apply elem_of_app in Hin as [Hin|Hin]; [done|].
      apply list_elem_of_singleton in Hin. lia.
  - (* worker *)
    pose proof (worker_move_task _ _ _ _ _ _ _ _ _ Hm) as Hq.
    apply worker_move_futures in Hm as (Hlen & _ & Hfr).
    assert (Hown : forall h, h ∈ state <$> task_queue.queue_ (queue_ s) ->
                             fs' !! h = futures s !! h).
    { intros h Hh. apply Hfr. intros g Hg <-.
      destruct (Hheld g) as [_ Hn]; [by exists i, w|]. by apply Hn. }
    destruct Hq as [[Hq Ht]|(f & Ht & Hq & _)].
    + rewrite Hq, Hlen. split_and!; [exact Hnd| |].
      * intros f Hf. rewrite Hown; [by apply Hpend|].
        apply list_elem_of_fmap. eauto.
      * intros g Hg. eapply Hheld, holds_insert_same; eauto.
    + rewrite Hq in Hnd, Hown. simpl in Hnd. apply NoDup_cons in Hnd as [Hf Hnd].
      rewrite Hlen. split_and!; [exact Hnd| |].
      * intros f' Hf'. rewrite Hown.
        -- apply Hpend. rewrite Hq. by apply list_elem_of_further.
        -- simpl. apply list_elem_of_further, list_elem_of_fmap. eauto.
      * intros g Hg. apply holds_insert in Hg as [Hg|(j & wj & _ & Hj & Hg)].
        -- assert (g = f) as -> by congruence. split; [|exact Hf].
           apply Hlt. rewrite Hq. apply list_elem_of_here.
        -- destruct (Hheld g) as [Hb Hn]; [by exists j, wj|].
           split; [exact Hb|]. rewrite Hq in Hn. simpl in Hn.
           intros Hin. apply Hn. by apply list_elem_of_further.
  - (* clear *)
    rewrite abandon_all_length. split_and!; [constructor| |].
    + intros f Hf. by apply not_elem_of_nil in Hf.
    + intros g Hg. split; [by apply Hheld|]. simpl. apply not_elem_of_nil.
  - (* stop *)
    split_and!; [exact Hnd|exact Hpend|].
    intros g Hg. eapply Hheld, (holds_insert_same _ i w _ g Hw); [|exact Hg]. by left.
  - (* members *)
    rewrite abandon_all_length. split_and!; [constructor| |].
    + intros f Hf. by apply not_elem_of_nil in Hf.
    + intros g Hg. split; [by apply Hheld|]. simpl. apply not_elem_of_nil.
  - (* join *)
    split_and!; [exact Hnd|exact Hpend|].
    intros g Hg. eapply Hheld, (holds_insert_same _ i w _ g Hw); [|exact Hg]. by left.
Qed.

Lemma reachable_well_formed s : reachable s -> well_formed s.
Proof.
  intros (n & tr & evs & Hrun).
  eapply (run_invariant well_formed); [|apply well_formed_create|exact Hrun].
  intros a s0 ev s1. apply well_formed_step.
Qed.

Lemma run_app tr1 tr2 s evs1 s1 evs2 s2 :
  run tr1 s = Some (evs1, s1) ->
  run tr2 s1 = Some (evs2, s2) ->
  run (tr1 ++ tr2) s = Some (evs1 ++ evs2, s2).
Proof.
  revert s evs1. induction tr1 as [|a tr1 IH]; intros s evs1 H1 H2.
  - inversion H1; subst. exact H2.
  - apply run_cons in H1 as (ev & s0 & evs0 & Hs & Hr & ->).
    simpl. rewrite Hs, (IH _ _ Hr H2). by rewrite app_assoc.
Qed.

Lemma reachable_run tr s evs s' :
  reachable s -> run tr s = Some (evs, s') -> reachable s'.
Proof.
  intros (n & tr0 & evs0 & Hrun0) Hrun.
  exists n, (tr0 ++ tr), (evs0 ++ evs). by eapply run_app.
Qed.

End ownership.

(** * Futures of units that are discarded or never consumed *)
Section discarded.
Import future logger task_pool.

Lemma step_resolved_stable a s ev s1 :
  step a s = Some (ev, s1) -> resolved_stable (futures s) (futures s1).
Proof.
  intros Hs. apply step_move in Hs as [_ Hm].
  destruct Hm; simpl; auto using resolved_stable_refl, abandon_all_stable.
  - intros h st Hh _. by apply lookup_app_l_Some.
  - match goal with H : worker_move _ _ _ _ _ _ _ _ _ |- _ =>
      by apply worker_move_futures in H as (_ & H & _) end.
Qed.

Lemma run_resolved_stable tr s evs s' :
  run tr s = Some (evs, s') -> resolved_stable (futures s) (futures s').
Proof.
  revert s evs. induction tr as [|a tr IH]; intros s evs Hrun.
  - inversion Hrun; subst. apply resolved_stable_refl.
  - apply run_cons in Hrun as (ev & s1 & evs' & Hs & Hr & ->).
    eapply resolved_stable_trans; [by eapply step_resolved_stable|by eapply IH].
Qed.

Lemma step_unowned h a s ev s1 :
  unowned h s -> step a s = Some (ev, s1) ->
  unowned h s1 /\
  (forall g, dequeued g ∈ ev \/ executed g ∈ ev -> state g <> h).
Proof.
  intros (Hlt & Hq & Hw) Hs. apply step_move in Hs as [_ Hm].
  assert (Hnil : forall e : event, e ∈ @nil event -> False)
    by (intros e He; by apply not_elem_of_nil in He).
  assert (Hone : forall e e' : event, e ∈ [e'] -> e = e')
    by (intros e e' He; by apply list_elem_of_singleton in He).
  destruct Hm as [c|i w evs w' q' fs' out' Hi Hm| | | | |Hd|i w Hd Hi|i Hd Hi|i w Hd Hi Hat];
    unfold unowned; simpl;
    try (split; [|intros g [Hg|Hg]; try (by destruct (Hnil _ Hg));
                  apply Hone in Hg; discriminate]);
    rewrite ?abandon_all_length; try (by auto using not_elem_of_nil).
  - (* submit *)
    rewrite length_app, fmap_app. simpl. split_and!; [lia| |done].
    intros Hin. apply elem_of_app in Hin as [Hin|Hin]; [done|].
    apply list_elem_of_singleton in Hin. lia.
  - (* worker *)
    pose proof (worker_move_task _ _ _ _ _ _ _ _ _ Hm) as Ht.
    pose proof (worker_move_reports _ _ _ _ _ _ _ _ _ Hm) as [Hex Hdq].
    apply worker_move_futures in Hm as (Hlen & _ & _).
    rewrite Hlen. split.
    + destruct Ht as [[Hq' Ht]|(f & Ht & Hq' & _)].
      * rewrite Hq'. split_and!; [done|done|].
        intros g Hg. eapply Hw, holds_insert_same; eauto.
      * rewrite Hq' in Hq. simpl in Hq. apply not_elem_of_cons in Hq as [Hf Hq].
        split_and!; [done|done|].
        intros g Hg. apply holds_insert in Hg as [Hg|(j & wj & _ & Hj & Hg)].
        -- assert (g = f) as -> by congruence. done.
        -- apply Hw. by exists j, wj.
    + intros g [Hg|Hg].
      * apply Hdq in Hg as (_ & rest & Hg). rewrite Hg in Hq. simpl in Hq.
        apply not_elem_of_cons in Hq as [Hf _]. done.
      * apply Hw. exists i, w. split; [done|by apply Hex].
  - (* stop *)
    split_and!; [done|done|]. intros g Hg.
    eapply Hw, (holds_insert_same _ i w _ g Hi); [|exact Hg]. by left.
  - (* join *)
    split_and!; [done|done|]. intros g Hg.
    eapply Hw, (holds_insert_same _ i w _ g Hi); [|exact Hg]. by left.
Qed.

Lemma run_unowned h tr s evs s' :
  unowned h s -> run tr s = Some (evs, s') ->
  unowned h s' /\
  (forall g, dequeued g ∈ evs \/ executed g ∈ evs -> state g <> h).
Proof.
  revert s evs. induction tr as [|a tr IH]; intros s evs Hu Hrun.
  - inversion Hrun; subst. split; [done|].
    intros g [Hg|Hg]; by apply not_elem_of_nil in Hg.
  - apply run_cons in Hrun as (ev & s1 & evs' & Hs & Hr & ->).
    destruct (step_unowned _ _ _ _ _ Hu Hs) as [Hu1 Hev].
    destruct (IH _ _ Hu1 Hr) as [Hu' Hevs]. split; [done|].
    intros g [Hg|Hg]; apply elem_of_app in Hg as [Hg|Hg]; eauto.
Qed.

Lemma stranded_destroy f q fs :
  state f < length fs ->
  (f ∈ q /\ fs !! state f = Some pending) \/
  ((state f ∉ state <$> q) /\
   fs !! state f = Some (failed (future_error broken_promise))) ->
  foldl (fun h g => abandon g h) fs q !! state f =
  Some (failed (future_error broken_promise)).
Proof.
  intros Hlt H. rewrite abandon_all_lookup.
  case_decide as Hd; [done|]. destruct H as [[Hin Hp]|[_ Hf]]; [|done].
  destruct Hd. split; [|done]. by apply list_elem_of_fmap_2.
Qed.

Lemma step_stranded f a s ev s1 :
  stranded f s -> step a s = Some (ev, s1) ->
  stranded f s1 /\
  (forall g, dequeued g ∈ ev \/ executed g ∈ ev -> state g <> state f).
Proof.
  intros (Hv & Hlt & Hw & Hst) Hs.
  pose proof (step_stays_invalid _ _ _ _ Hv Hs) as Hv1.
  apply step_move in Hs as [_ Hm].
  assert (Hnil : forall e : event, e ∈ @nil event -> False)
    by (intros e He; by apply not_elem_of_nil in He).
  assert (Hone : forall e e' : event, e ∈ [e'] -> e = e')
    by (intros e e' He; by apply list_elem_of_singleton in He).
  destruct Hm as [c|i w evs w' q' fs' out' Hi Hm| | | | |Hd|i w Hd Hi|i Hd Hi|i w Hd Hi Hat];
    unfold stranded; simpl in *;
    try (split; [|intros g [Hg|Hg]; try (by destruct (Hnil _ Hg));
                  apply Hone in Hg; discriminate]);
    rewrite ?abandon_all_length; try (by auto).
  - (* submit *)
    rewrite length_app, fmap_app. simpl. split_and!; [done|lia|done|].
    destruct Hst as [[Hin Hp]|[Hn Hf]]; [left|right].
    + split; [apply elem_of_app; by left|by apply lookup_app_l_Some].
    + split; [|by apply lookup_app_l_Some].
      intros Hin. apply elem_of_app in Hin as [Hin|Hin]; [done|].
      apply list_elem_of_singleton in Hin. lia.
  - (* worker *)
    pose proof (worker_move_task _ _ _ _ _ _ _ _ _ Hm) as Ht.
    pose proof (worker_move_reports _ _ _ _ _ _ _ _ _ Hm) as [Hex Hdq].
    apply worker_move_futures in Hm as (Hlen & _ & Hfr).
    assert (Hsame : fs' !! state f = futures s !! state f).
    { apply Hfr. intros g Hg. apply Hw. by exists i, w. }
    assert (Hq' : task_queue.queue_ q' = task_queue.queue_ (queue_ s) /\
                  (task_worker.task w' = task_worker.task w \/
                   task_worker.task w' = None)).
    { destruct Ht as [Ht|(g & _ & _ & Hv')]; [done|congruence]. }
    destruct Hq' as [Hq' Ht']. rewrite Hq', Hlen, Hsame. split.
    + split_and!; [done|done| |done].
      intros g Hg. eapply Hw, holds_insert_same; eauto.
    + intros g [Hg|Hg].
      * apply Hdq in Hg as [Hv' _]. congruence.
      * apply Hw. exists i, w. split; [done|by apply Hex].
  - (* clear *)
    split_and!; [done|done|done|]. right. split; [apply not_elem_of_nil|].
    by apply stranded_destroy.
  - (* stop *)
    split_and!; [done|done| |done]. intros g Hg.
    eapply Hw, (holds_insert_same _ i w _ g Hi); [|exact Hg]. by left.
  - (* members *)
    split_and!; [done|done|done|]. right. split; [apply not_elem_of_nil|].
    by apply stranded_destroy.
  - (* join *)
    split_and!; [done|done| |done]. intros g Hg.
    eapply Hw, (holds_insert_same _ i w _ g Hi); [|exact Hg]. by left.
Qed.

Lemma run_stranded f tr s evs s' :
  stranded f s -> run tr s = Some (evs, s') ->
  stranded f s' /\
  (forall g, dequeued g ∈ evs \/ executed g ∈ evs -> state g <> state f).
Proof.
  revert s evs. induction tr as [|a tr IH]; intros s evs Hu Hrun.
  - inversion Hrun; subst. split; [done|].
    intros g [Hg|Hg]; by apply not_elem_of_nil in Hg.
  - apply run_cons in Hrun as (ev & s1 & evs' & Hs & Hr & ->).
    destruct (step_stranded _ _ _ _ _ Hu Hs) as [Hu1 Hev].
    destruct (IH _ _ Hu1 Hr) as [Hu' Hevs]. split; [done|].
    intros g [Hg|Hg]; apply elem_of_app in Hg as [Hg|Hg]; eauto.
Qed.

End discarded.

(** * The handler of the worker is never entered *)
Section silent_sink.
Import future logger task_pool.

Lemma settled_mono w fs fs' :
  (forall h, fs !! h = Some pending -> (forall g, task_worker.task w = Some g -> state g = h) ->
             task_worker.at_ w = task_worker.in_task -> fs' !! h = Some pending) ->
  resolved_stable fs fs' ->
  settled w fs -> settled w fs'.
Proof.
  unfold settled. intros Hp Hr.
  destruct (task_worker.at_ w) eqn:Hat; try done;
    try (intros H g Hg; destruct (H g Hg) as (st & Hst & Hne); eauto).
  intros (g & Hg & Hpend). exists g. split; [done|].
  apply Hp; [done| |done]. intros g' Hg'. congruence.
Qed.

Lemma orderly_create n : orderly (create n).
Proof.
  split; [done|]. split.
  - intros i w Hw. apply create_workers in Hw. subst w. by intros g Hg.
  - intros i j wi wj gi gj _ Hi _ Hat. apply create_workers in Hi. by subst wi.
Qed.

Lemma release_resolved o fs h :
  (forall g, o = Some g -> exists st, fs !! state g = Some st /\ st <> pending) ->
  task_queue.release o fs !! h = fs !! h.
Proof.
  intros Ho. rewrite release_lookup. destruct o as [g|]; [|done].
  case_decide as Hd; [|done]. destruct Hd as [-> Hp].
  destruct (Ho g eq_refl) as (st & Hst & Hne). congruence.
Qed.

Lemma orderly_step a s ev s1 :
  well_formed s -> orderly s -> step a s = Some (ev, s1) -> orderly s1.
Proof.
  intros (Hnd & Hpend & Hheld) (Hout & Hset & Hdis) Hs.
  apply step_move in Hs as [_ Hm].
  destruct Hm as [c|i w evs w' q' fs' out' Hi Hm| | | | |Hd|i w Hd Hi|i Hd Hi|i w Hd Hi Hat];
    unfold orderly; simpl; try by auto.
  - (* submit *)
    split_and!; [done| |done]. intros i w Hi.
    eapply settled_mono; [| |by eapply Hset].
    + intros h Hh _ _. by apply lookup_app_l_Some.
    + intros h st Hh _. by apply lookup_app_l_Some.
  - (* worker *)
    pose proof (Hset i w Hi) as Hw. unfold settled in Hw.
    destruct Hm as [Hat Hs|Hat Hs|Hat Hq Hv|Hat Hv|f rest Hat Hv Hq|f l o Hat Ht Hl|Hat Ht];
      rewrite Hat in Hw.
    + (* exit *)
      assert (Hsame : forall h, task_queue.release (task_worker.task w) (futures s) !! h
                                = futures s !! h)
        by (intros h; by apply release_resolved).
      split_and!; [done| |].
      * intros j wj Hj.
        apply list_lookup_insert_Some in Hj as [(-> & <- & _)|[Hne Hj]].
        -- by intros g Hg.
        -- eapply settled_mono; [| |by eapply Hset].
           ++ intros h Hh _ _. by rewrite Hsame.
           ++ intros h st Hh _. by rewrite Hsame.
      * intros j k wj wk gj gk Hjk Hj Hk Hatj Hatk Htj Htk.
        apply list_lookup_insert_Some in Hj as [(-> & <- & _)|[Hnej Hj]]; [done|].
        apply list_lookup_insert_Some in Hk as [(-> & <- & _)|[Hnek Hk]]; [done|].
        by eapply (Hdis j k).
    + (* enter *)
      split_and!; [done| |].
      * intros j wj Hj.
        apply list_lookup_insert_Some in Hj as [(-> & <- & _)|[Hne Hj]]; [|by eapply Hset].
        done.
      * intros j k wj wk gj gk Hjk Hj Hk Hatj Hatk Htj Htk.
        apply list_lookup_insert_Some in Hj as [(-> & <- & _)|[Hnej Hj]]; [done|].
        apply list_lookup_insert_Some in Hk as [(-> & <- & _)|[Hnek Hk]]; [done|].
        by eapply (Hdis j k).
    + (* wait *)
      rewrite list_insert_id by done. done.
    + (* closed *)
      split_and!; [done| |].
      * intros j wj Hj.
        apply list_lookup_insert_Some in Hj as [(-> & <- & _)|[Hne Hj]]; [|by eapply Hset].
        done.
      * intros j k wj wk gj gk Hjk Hj Hk Hatj Hatk Htj Htk.
        apply list_lookup_insert_Some in Hj as [(-> & <- & _)|[Hnej Hj]]; [done|].
        apply list_lookup_insert_Some in Hk as [(-> & <- & _)|[Hnek Hk]]; [done|].
        by eapply (Hdis j k).
    + (* take *)
      assert (Hsame : forall h, task_queue.release (task_worker.task w) (futures s) !! h
                                = futures s !! h)
        by (intros h; by apply release_resolved).
      assert (Hf : f ∈ task_queue.queue_ (queue_ s))
        by (rewrite Hq; apply list_elem_of_here).
      split_and!; [done| |].
      * intros j wj Hj.
        apply list_lookup_insert_Some in Hj as [(-> & <- & _)|[Hne Hj]].
        -- exists f. split; [done|]. rewrite Hsame. by apply Hpend.
        -- eapply settled_mono; [| |by eapply Hset].
           ++ intros h Hh _ _. by rewrite Hsame.
           ++ intros h st Hh _. by rewrite Hsame.
      * assert (Hfresh : forall j wj gj, workers_ s !! j = Some wj ->
                                         task_worker.task wj = Some gj ->
                                         state gj <> state f).
        { intros j wj gj Hj Htj Heq.
          destruct (Hheld gj) as [_ Hn]; [by exists j, wj|].
          apply Hn. rewrite Heq. by apply list_elem_of_fmap_2. }
        intros j k wj wk gj gk Hjk Hj Hk Hatj Hatk Htj Htk.
        apply list_lookup_insert_Some in Hj as [(-> & <- & _)|[Hnej Hj]];
          apply list_lookup_insert_Some in Hk as [(-> & <- & _)|[Hnek Hk]];
          simpl in *; try done.
        -- injection Htj as <-. intros Heq. by eapply (Hfresh k wk gk).
        -- injection Htk as <-. by eapply (Hfresh j wj gj).
        -- by eapply (Hdis j k).
    + (* run *)
      destruct Hw as (g & Hg & Hp). assert (g = f) as -> by congruence.
      assert (Hnone : (invoke f (futures s)).2 = None).
      { unfold invoke. rewrite Hp. by destruct (stored f tt). }
      rewrite Hnone in Hl. injection Hl as -> ->.
      assert (Hres : exists st, (invoke f (futures s)).1 !! state f = Some st /\
                                st <> pending).
      { rewrite invoke_lookup. rewrite decide_True by done.
        eexists. split; [done|]. by destruct (stored f tt). }
      split_and!; [done| |].
      * intros j wj Hj.
        apply list_lookup_insert_Some in Hj as [(-> & <- & _)|[Hne Hj]].
        -- intros g Hg'. simpl in Hg'. assert (g = f) as -> by congruence. done.
        -- eapply settled_mono; [|apply invoke_stable|by eapply Hset].
           intros h Hh Hown Hatj. rewrite invoke_other; [done|].
           intros <-. pose proof (Hset j wj Hj) as Hj'. unfold settled in Hj'.
           rewrite Hatj in Hj'. destruct Hj' as (g & Hgj & _).
           apply (Hdis i j w wj f g Hne Hi Hj Hat Hatj Ht Hgj).
           symmetry. by apply Hown.
      * intros j k wj wk gj gk Hjk Hj Hk Hatj Hatk Htj Htk.
        apply list_lookup_insert_Some in Hj as [(-> & <- & _)|[Hnej Hj]]; [done|].
        apply list_lookup_insert_Some in Hk as [(-> & <- & _)|[Hnek Hk]]; [done|].
        by eapply (Hdis j k).
    + (* empty function *)
      destruct Hw as (g & Hg & _). congruence.
  - (* clear *)
    split_and!; [done| |done]. intros i w Hi.
    eapply settled_mono; [|apply abandon_all_stable|by eapply Hset].
    intros h Hh Hown Hat. rewrite abandon_all_lookup.
    case_decide as Hdec; [|done]. destruct Hdec as [Hin _].
    pose proof (Hset i w Hi) as Hw. unfold settled in Hw. rewrite Hat in Hw.
    destruct Hw as (g & Hg & _). destruct (Hheld g) as [_ Hn]; [by exists i, w|].
    destruct Hn. by rewrite (Hown g Hg).
  - (* stop *)
    split_and!; [done| |].
    + intros j wj Hj.
      apply list_lookup_insert_Some in Hj as [(-> & <- & _)|[Hne Hj]]; [|by eapply Hset].
      by apply (Hset j w).
    + intros j k wj wk gj gk Hjk Hj Hk Hatj Hatk Htj Htk.
      apply list_lookup_insert_Some in Hj as [(-> & <- & _)|[Hnej Hj]];
        apply list_lookup_insert_Some in Hk as [(-> & <- & _)|[Hnek Hk]];
        simpl in *; try done.
      * by eapply (Hdis j k w wk).
      * by eapply (Hdis j k wj w).
      * by eapply (Hdis j k).
  - (* members *)
    split_and!; [done| |done]. intros j w Hj.
    eapply settled_mono; [|apply abandon_all_stable|by eapply Hset].
    intros h Hh Hown Hat. rewrite abandon_all_lookup.
    case_decide as Hdec; [|done]. destruct Hdec as [Hin _].
    pose proof (Hset j w Hj) as Hw. unfold settled in Hw. rewrite Hat in Hw.
    destruct Hw as (g & Hg & _). destruct (Hheld g) as [_ Hn]; [by exists j, w|].
    destruct Hn. by rewrite (Hown g Hg).
  - (* join *)
    split_and!; [done| |].
    + intros j wj Hj.
      apply list_lookup_insert_Some in Hj as [(-> & <- & _)|[Hne Hj]]; [|by eapply Hset].
      pose proof (Hset j w Hi) as Hw. unfold settled in *. simpl.
      destruct Hat as [Hat|[Hat|Hat]]; by rewrite Hat in Hw.
    + intros j k wj wk gj gk Hjk Hj Hk Hatj Hatk Htj Htk.
      apply list_lookup_insert_Some in Hj as [(-> & <- & _)|[Hnej Hj]]; [done|].
      apply list_lookup_insert_Some in Hk as [(-> & <- & _)|[Hnek Hk]]; [done|].
      by eapply (Hdis j k).
Qed.

(** Whatever the schedule and whatever the tasks throw, nothing is ever
    written to the sink and no worker thread is lost: the handler in the
    worker's loop is dead code for units built by [enqueue]. *)
Lemma handler_never_entered s :
  reachable s ->
  output s = silent /\
  (forall i w, workers_ s !! i = Some w ->
               task_worker.at_ w <> task_worker.terminated).
Proof.
  intros (n & tr & evs & Hrun).
  assert (H : well_formed s /\ orderly s).
  { eapply (run_invariant (fun s => well_formed s /\ orderly s)); [| |exact Hrun].
    - intros a s0 ev s1 [Hwf Hord] Hs.
      split; [by eapply well_formed_step|by eapply orderly_step].
    - split; [apply well_formed_create|apply orderly_create]. }
  destruct H as [_ (Hout & Hset & _)]. split; [done|].
  intros i w Hi Hat. apply Hset in Hi. unfold settled in Hi. by rewrite Hat in Hi.
Qed.

End silent_sink.

(** * The claims about discarded units, teardown and failing tasks *)
Section pool_claims.
Import future logger task_pool.

Lemma run_destroyed tr s evs s' :
  dtor s = destroyed -> run tr s = Some (evs, s') -> s' = s.
Proof.
  intros Hd. destruct tr as [|a tr]; simpl.
  - by intros [= _ ->].
  - unfold step. by rewrite Hd.
Qed.

Lemma step_keeps_queued f a s ev s1 :
  task_queue.valid_ (queue_ s) = false ->
  f ∈ task_queue.queue_ (queue_ s) ->
  discards a = false ->
  step a s = Some (ev, s1) ->
  dtor s1 = destroyed \/ f ∈ task_queue.queue_ (queue_ s1).
Proof.
  intros Hv Hf Ha Hs. apply step_move in Hs as [_ Hm].
  destruct Hm as [c|i w evs w' q' fs' out' Hi Hm| | | | | | | |];
    simpl; try discriminate; auto.
  - right. apply elem_of_app. by left.
  - right. apply worker_move_task in Hm as [[-> _]|(g & _ & _ & Hv')]; [done|congruence].
Qed.

Lemma run_keeps_queued f tr s evs s' :
  task_queue.valid_ (queue_ s) = false ->
  f ∈ task_queue.queue_ (queue_ s) ->
  forallb (fun a => negb (discards a)) tr = true ->
  run tr s = Some (evs, s') ->
  dtor s' = destroyed \/ f ∈ task_queue.queue_ (queue_ s').
Proof.
  revert s evs. induction tr as [|a tr IH]; intros s evs Hv Hf Htr Hrun.
  - inversion Hrun; subst. by right.
  - apply run_cons in Hrun as (ev & s1 & evs' & Hs & Hr & ->).
    simpl in Htr. apply andb_true_iff in Htr as [Ha Htr].
    apply negb_true_iff in Ha.
    destruct (step_keeps_queued _ _ _ _ _ Hv Hf Ha Hs) as [Hd|Hf1].
    + left. by rewrite (run_destroyed _ _ _ _ Hd Hr).
    + apply (IH s1 evs'); [by eapply step_stays_invalid|done|done|done].
Qed.

(** C5, as stated, fails: a unit submitted to an invalidated queue does not
    keep its future unresolved for ever.  Here the queue is invalidated, one
    unit is submitted, and [clear] destroys it: the future holds a broken
    promise. *)
Lemma stranded_handle_resolved_by_clear :
  ~ (forall tr evs s,
       run ([invalidate; submit (fun _ => returns 7)] ++ tr) (create 1) = Some (evs, s) ->
       futures s !! 0 = Some pending).
Proof. intros H. specialize (H [clear] _ _ eq_refl). discriminate H. Qed.

(** C5, amended: [enqueue] is total on every queue state, valid or not: it
    appends the wrapped unit at the tail and returns the index of a fresh,
    unresolved future.  On an invalidated queue of a pool the unit is never
    dequeued and never executed afterwards; its future stays unresolved for
    as long as the unit is in the queue, and holds a broken promise once the
    backlog has been destroyed ([clear], or the end of the pool's
    destructor); without such a step the unit is still queued. *)
Theorem enqueue_on_invalidated_queue c s evs s1 :
  reachable s ->
  task_queue.valid_ (queue_ s) = false ->
  step (submit c) s = Some (evs, s1) ->
  let f := {| stored := c; state := length (futures s) |} in
  (forall q fs,
     task_queue.enqueue c q fs =
     (length fs,
      {| task_queue.valid_ := task_queue.valid_ q; task_queue.valid := task_queue.valid q;
         task_queue.queue_ := task_queue.queue_ q ++ [{| stored := c; state := length fs |}] |},
      fs ++ [pending])) /\
  evs = [submitted f] /\
  task_queue.queue_ (queue_ s1) = task_queue.queue_ (queue_ s) ++ [f] /\
  futures s !! state f = None /\
  futures s1 = futures s ++ [pending] /\
  forall tr evs' s2,
    run tr s1 = Some (evs', s2) ->
    (forall g, dequeued g ∈ evs' \/ executed g ∈ evs' -> state g <> state f) /\
    ((f ∈ task_queue.queue_ (queue_ s2) /\ futures s2 !! state f = Some pending) \/
     ((f ∉ task_queue.queue_ (queue_ s2)) /\
      futures s2 !! state f = Some (failed (future_error broken_promise)))) /\
    (forallb (fun a => negb (discards a)) tr = true ->
     dtor s2 <> destroyed ->
     f ∈ task_queue.queue_ (queue_ s2) /\ futures s2 !! state f = Some pending).
Proof.
  intros Hreach Hv Hs f.
  apply reachable_well_formed in Hreach as (_ & _ & Hheld).
  pose proof (step_stays_invalid _ _ _ _ Hv Hs) as Hv1.
  apply step_move in Hs as [_ Hm]. inversion Hm; subst. simpl in *.
  split; [reflexivity|]. split; [reflexivity|]. split; [reflexivity|].
  split; [by apply lookup_ge_None_2|]. split; [reflexivity|].
  intros tr evs' s2 Hrun.
  set (s1 := {| queue_ := _; workers_ := workers_ s |}) in *.
  assert (Hin : f ∈ task_queue.queue_ (queue_ s1))
    by (simpl; apply elem_of_app; right; apply list_elem_of_here).
  assert (Hstr : stranded f s1).
  { split_and!; [done| | |].
    - simpl. rewrite length_app. simpl. lia.
    - intros g Hg. apply Hheld in Hg as [Hg _]. simpl. lia.
    - left. split; [done|]. simpl. by rewrite lookup_app_r, Nat.sub_diag by lia. }
  destruct (run_stranded _ _ _ _ _ Hstr Hrun) as [(_ & _ & _ & Hst) Hev].
  split; [exact Hev|]. split.
  - destruct Hst as [Hst|[Hn Hf]]; [by left|right]. split; [|done].
    intros Hin'. apply Hn. by apply list_elem_of_fmap_2.
  - intros Htr Hd.
    destruct (run_keeps_queued f tr s1 evs' s2 Hv Hin Htr Hrun) as [Hd'|Hin']; [done|].
    split; [done|]. destruct Hst as [[_ Hp]|[Hn _]]; [done|].
    destruct Hn. by apply list_elem_of_fmap_2.
Qed.

(** C6, as stated, fails: the futures of cleared units do not stay
    unresolved.  Two units are submitted to a pool without workers and
    [clear] is called: both futures are resolved. *)
Lemma cleared_handles_are_resolved :
  ~ (forall tr evs s,
       run ([submit (fun _ => returns 1); submit (fun _ => returns 2); clear] ++ tr)
         (create 0) = Some (evs, s) ->
       futures s !! 0 = Some pending /\ futures s !! 1 = Some pending).
Proof. intros H. destruct (H [] _ _ eq_refl) as [H0 _]. discriminate H0. Qed.

(** C6, amended: [clear] removes every pending unit and calls none of them,
    leaves the sequence empty, and leaves both validity flags, the workers
    and the sink as they were.  The future of each removed unit, unresolved
    until then, is resolved at once with a broken promise, keeps that state
    in every later run, and the unit is never executed. *)
Theorem clear_discards_backlog s evs s1 :
  reachable s ->
  step clear s = Some (evs, s1) ->
  evs = [] /\
  task_queue.queue_ (queue_ s1) = [] /\
  task_queue.valid_ (queue_ s1) = task_queue.valid_ (queue_ s) /\
  task_queue.valid (queue_ s1) = task_queue.valid (queue_ s) /\
  workers_ s1 = workers_ s /\
  output s1 = output s /\
  length (futures s1) = length (futures s) /\
  forall f,
    f ∈ task_queue.queue_ (queue_ s) ->
    futures s !! state f = Some pending /\
    futures s1 !! state f = Some (failed (future_error broken_promise)) /\
    forall tr evs' s2,
      run tr s1 = Some (evs', s2) ->
      futures s2 !! state f = Some (failed (future_error broken_promise)) /\
      (forall g, dequeued g ∈ evs' \/ executed g ∈ evs' -> state g <> state f).
Proof.
  intros Hreach Hs.
  apply reachable_well_formed in Hreach as (_ & Hpend & Hheld).
  apply step_move in Hs as [_ Hm]. inversion Hm; subst. simpl.
  split_and!; try reflexivity; [apply abandon_all_length|].
  intros f Hf. pose proof (Hpend f Hf) as Hp. split; [exact Hp|].
  set (s1 := {| queue_ := _; workers_ := workers_ s |}) in *.
  assert (H1 : futures s1 !! state f = Some (failed (future_error broken_promise))).
  { simpl. apply stranded_destroy; [by eapply lookup_lt_Some|by left]. }
  split; [exact H1|]. intros tr evs' s2 Hrun. split.
  - by apply (run_resolved_stable _ _ _ _ Hrun).
  - assert (Hu : unowned (state f) s1).
    { split_and!.
      - by eapply lookup_lt_Some.
      - simpl. apply not_elem_of_nil.
      - intros g Hg Heq. apply Hheld in Hg as [_ Hg]. apply Hg.
        rewrite Heq. by apply list_elem_of_fmap_2. }
    by destruct (run_unowned _ _ _ _ _ Hu Hrun).
Qed.

End pool_claims.

(** * Concrete runs *)
Section concrete_runs.
Import future logger task_pool.

(** C3 (defect in the code): on the run [throw_then_return] the worker
    survives the throwing task, the failure is stored in that task's future,
    the second task runs and its future gets the value, and the worker is
    back in [dequeue]; but the sink has received nothing, because the
    packaged task stores what the callable throws and the handler of the
    worker is never entered. *)
Theorem throwing_task_is_captured_not_reported :
  run throw_then_return (create 1) =
  Some ([submitted {| stored := boom; state := 0 |};
         submitted {| stored := answer; state := 1 |};
         dequeued {| stored := boom; state := 0 |};
         executed {| stored := boom; state := 0 |};
         dequeued {| stored := answer; state := 1 |};
         executed {| stored := answer; state := 1 |}],
        {| queue_ := task_queue.create;
           workers_ :=
             [{| task_worker.stop_ := false;
                 task_worker.task := Some {| stored := answer; state := 1 |};
                 task_worker.at_ := task_worker.in_dequeue |}];
           futures := [failed (std_exception "boom"); ready 42];
           output := silent;
           dtor := not_running |}).
Proof. vm_compute. reflexivity. Qed.

Lemma fifo_order_witness :
  forallb producer_consumer fifo_schedule = true /\
  run fifo_schedule (create 1) = Some (fifo_events, fifo_pool) /\
  (submissions fifo_events =
   dequeues fifo_events ++ task_queue.queue_ (queue_ fifo_pool) /\
   (1 = 1 ->
    executions fifo_events `prefix_of` submissions fifo_events /\
    exists held, length held <= 1 /\
                 dequeues fifo_events = executions fifo_events ++ held)).
Proof.
  split; [reflexivity|]. split; [reflexivity|].
  apply (fifo_order 1 fifo_schedule fifo_events fifo_pool); reflexivity.
Defined.

Lemma invalidation_is_irreversible_witness :
  task_queue.valid_ (task_queue.invalidate task_queue.create) = false /\
  task_queue.is_valid
    (task_queue.apply_all
       [task_queue.call_enqueue answer; task_queue.call_dequeue None;
        task_queue.call_clear; task_queue.call_empty; task_queue.call_is_valid]
       (task_queue.invalidate task_queue.create) []).1.2 = false.
Proof.
  split; [reflexivity|]. apply invalidation_is_irreversible. reflexivity.
Defined.

Lemma invalidated_pool_reachable : reachable invalidated_pool.
Proof. exists 1, [invalidate], [invalidated]. reflexivity. Defined.

Lemma enqueue_on_invalidated_queue_witness :
  reachable invalidated_pool /\
  task_queue.valid_ (queue_ invalidated_pool) = false /\
  step (submit answer) invalidated_pool =
    Some ([submitted {| stored := answer; state := 0 |}], stranded_pool) /\
  (let f := {| stored := answer; state := length (futures invalidated_pool) |} in
   (forall q fs,
      task_queue.enqueue answer q fs =
      (length fs,
       {| task_queue.valid_ := task_queue.valid_ q;
          task_queue.valid := task_queue.valid q;
          task_queue.queue_ :=
            task_queue.queue_ q ++ [{| stored := answer; state := length fs |}] |},
       fs ++ [pending])) /\
   [submitted {| stored := answer; state := 0 |}] = [submitted f] /\
   task_queue.queue_ (queue_ stranded_pool) =
     task_queue.queue_ (queue_ invalidated_pool) ++ [f] /\
   futures invalidated_pool !! state f = None /\
   futures stranded_pool = futures invalidated_pool ++ [pending] /\
   forall tr evs' s2,
     run tr stranded_pool = Some (evs', s2) ->
     (forall g, dequeued g ∈ evs' \/ executed g ∈ evs' -> state g <> state f) /\
     ((f ∈ task_queue.queue_ (queue_ s2) /\ futures s2 !! state f = Some pending) \/
      ((f ∉ task_queue.queue_ (queue_ s2)) /\
       futures s2 !! state f = Some (failed (future_error broken_promise)))) /\
     (forallb (fun a => negb (discards a)) tr = true ->
      dtor s2 <> destroyed ->
      f ∈ task_queue.queue_ (queue_ s2) /\ futures s2 !! state f = Some pending)).
Proof.
  split; [exact invalidated_pool_reachable|]. split; [reflexivity|].
  split; [reflexivity|].
  exact (enqueue_on_invalidated_queue answer invalidated_pool _ stranded_pool
           invalidated_pool_reachable eq_refl eq_refl).
Defined.

Lemma backlog_pool_reachable : reachable backlog_pool.
Proof.
  exists 1, [submit boom; submit answer],
    [submitted {| stored := boom; state := 0 |};
     submitted {| stored := answer; state := 1 |}].
  reflexivity.
Defined.

Lemma clear_discards_backlog_witness :
  reachable backlog_pool /\
  step clear backlog_pool = Some ([], cleared_pool) /\
  (@nil event = [] /\
   task_queue.queue_ (queue_ cleared_pool) = [] /\
   task_queue.valid_ (queue_ cleared_pool) = task_queue.valid_ (queue_ backlog_pool) /\
   task_queue.valid (queue_ cleared_pool) = task_queue.valid (queue_ backlog_pool) /\
   workers_ cleared_pool = workers_ backlog_pool /\
   output cleared_pool = output backlog_pool /\
   length (futures cleared_pool) = length (futures backlog_pool) /\
   forall f,
     f ∈ task_queue.queue_ (queue_ backlog_pool) ->
     futures backlog_pool !! state f = Some pending /\
     futures cleared_pool !! state f = Some (failed (future_error broken_promise)) /\
     forall tr evs' s2,
       run tr cleared_pool = Some (evs', s2) ->
       futures s2 !! state f = Some (failed (future_error broken_promise)) /\
       (forall g, dequeued g ∈ evs' \/ executed g ∈ evs' -> state g <> state f)).
Proof.
  split; [exact backlog_pool_reachable|]. split; [reflexivity|].
  exact (clear_discards_backlog backlog_pool [] cleared_pool
           backlog_pool_reachable eq_refl).
Defined.

End concrete_runs.

(** * Further properties of the futures *)
Section futures_facts.
Import future logger task_pool.

Lemma reachable_invariants s : reachable s -> well_formed s /\ orderly s.
Proof.
  intros (n & tr & evs & Hrun).
  eapply (run_invariant (fun s => well_formed s /\ orderly s)); [| |exact Hrun].
  - intros a s0 ev s1 [Hwf Hord] Hs.
    split; [by eapply well_formed_step|by eapply orderly_step].
  - split; [apply well_formed_create|apply orderly_create].
Qed.

Lemma create_reachable n : reachable (create n).
Proof. by exists n, [], []. Qed.

Lemma step_futures_length a s ev s1 :
  step a s = Some (ev, s1) -> length (futures s) <= length (futures s1).
Proof.
  intros Hs. apply step_move in Hs as [_ Hm].
  destruct Hm; simpl; rewrite ?abandon_all_length, ?length_app; simpl; try lia.
  match goal with H : worker_move _ _ _ _ _ _ _ _ _ |- _ =>
    apply worker_move_futures in H as (-> & _) end.
  lia.
Qed.

Lemma run_futures_length tr s evs s' :
  run tr s = Some (evs, s') -> length (futures s) <= length (futures s').
Proof.
  revert s evs. induction tr as [|a tr IH]; intros s evs Hrun.
  - inversion Hrun; subst. lia.
  - apply run_cons in Hrun as (ev & s1 & evs' & Hs & Hr & ->).
    apply step_futures_length in Hs. apply IH in Hr. lia.
Qed.

(** X1: in every state a pool can reach, nothing has been written to the
    sink, no worker thread has been lost to an escaping exception, and a
    worker that is about to call its unit holds a unit (never an empty
    function) whose call stores the outcome and throws nothing: the handler
    in the worker's loop is dead code. *)
Theorem worker_handler_is_dead n tr evs s :
  run tr (create n) = Some (evs, s) ->
  output s = silent /\
  (forall i w, workers_ s !! i = Some w ->
               task_worker.at_ w <> task_worker.terminated) /\
  (forall i w,
     workers_ s !! i = Some w ->
     task_worker.at_ w = task_worker.in_task ->
     exists f,
       task_worker.task w = Some f /\
       invoke f (futures s) = (<[state f := fulfilled f]> (futures s), None)).
Proof.
  intros Hrun.
  assert (Hreach : reachable s) by (by exists n, tr, evs).
  apply reachable_invariants in Hreach as [_ (Hout & Hset & _)].
  split; [exact Hout|]. split.
  - intros i w Hi Hat. apply Hset in Hi. unfold settled in Hi. by rewrite Hat in Hi.
  - intros i w Hi Hat. apply Hset in Hi. unfold settled in Hi. rewrite Hat in Hi.
    destruct Hi as (f & Hf & Hp). exists f. split; [exact Hf|].
    unfold invoke, fulfilled. rewrite Hp. by destruct (stored f tt).
Qed.

(** X5: a future is fulfilled at most once.  Through every run, from any
    state, a future that is ready or failed keeps exactly that state, and no
    future is ever removed. *)
Theorem future_resolves_once tr s evs s' h st :
  run tr s = Some (evs, s') ->
  futures s !! h = Some st ->
  st <> pending ->
  futures s' !! h = Some st /\ length (futures s) <= length (futures s').
Proof.
  intros Hrun Hh Hst. split.
  - by apply (run_resolved_stable _ _ _ _ Hrun).
  - by eapply run_futures_length.
Qed.

Lemma step_executed a s ev s1 f :
  well_formed s -> orderly s ->
  step a s = Some (ev, s1) ->
  executed f ∈ ev ->
  ev = [executed f] /\
  futures s !! state f = Some pending /\
  futures s1 !! state f = Some (fulfilled f).
Proof.
  intros _ (_ & Hset & _) Hs Hin. apply step_move in Hs as [_ Hm].
  assert (Hnil : forall e : event, e ∈ @nil event -> False)
    by (intros e He; by apply not_elem_of_nil in He).
  assert (Hone : forall e e' : event, e ∈ [e'] -> e = e')
    by (intros e e' He; by apply list_elem_of_singleton in He).
  destruct Hm as [c|i w evs w' q' fs' out' Hi Hm| | | | | | | |];
    try (by destruct (Hnil _ Hin)); try (apply Hone in Hin; discriminate).
  pose proof (Hset i w Hi) as Hw. unfold settled in Hw.
  destruct Hm as [| | | | |g l o Hat Ht Hl|];
    try (by destruct (Hnil _ Hin)); try (apply Hone in Hin; discriminate).
  apply Hone in Hin. injection Hin as <-.
  rewrite Hat in Hw. destruct Hw as (g & Hg & Hp).
  assert (g = f) as -> by congruence.
  split; [done|]. split; [done|]. simpl.
  rewrite invoke_lookup, decide_True by done. reflexivity.
Qed.

Lemma elem_of_executions f evs : f ∈ executions evs <-> executed f ∈ evs.
Proof.
  unfold executions. rewrite list_elem_of_omap. split.
  - intros (e & He & Hf). destruct e; try discriminate. by injection Hf as ->.
  - intros He. by exists (executed f).
Qed.

Lemma fulfilled_not_pending f : fulfilled f <> pending.
Proof. unfold fulfilled. by destruct (stored f tt). Qed.

Lemma run_executed tr s evs s' :
  well_formed s -> orderly s ->
  run tr s = Some (evs, s') ->
  NoDup (state <$> executions evs) /\
  (forall f, executed f ∈ evs ->
             (forall st, futures s !! state f = Some st -> st = pending) /\
             futures s' !! state f = Some (fulfilled f)).
Proof.
  revert s evs. induction tr as [|a tr IH]; intros s evs Hwf Hord Hrun.
  - inversion Hrun; subst. split; [constructor|].
    intros f Hf. by apply not_elem_of_nil in Hf.
  - apply run_cons in Hrun as (ev & s1 & evs' & Hs & Hr & ->).
    pose proof (well_formed_step _ _ _ _ Hwf Hs) as Hwf1.
    pose proof (orderly_step _ _ _ _ Hwf Hord Hs) as Hord1.
    destruct (IH _ _ Hwf1 Hord1 Hr) as [Hnd Hex].
    pose proof (step_resolved_stable _ _ _ _ Hs) as Hst1.
    pose proof (run_resolved_stable _ _ _ _ Hr) as Hst'.
    assert (Hlater : forall g, executed g ∈ evs' ->
              forall st, futures s1 !! state g = Some st -> st = pending)
      by (intros g Hg; by apply Hex).
    split.
    + rewrite executions_app, fmap_app. apply NoDup_app. split_and!; [| |exact Hnd].
      * destruct (executions ev) as [|f [|f' l]] eqn:Hev; [constructor|apply NoDup_singleton|].
        exfalso. assert (Hf : executed f ∈ ev).
        { apply elem_of_executions. rewrite Hev. apply list_elem_of_here. }
        destruct (step_executed _ _ _ _ _ Hwf Hord Hs Hf) as (-> & _). discriminate Hev.
      * intros h Hh Hh'.
        apply list_elem_of_fmap in Hh as (f & -> & Hf).
        apply list_elem_of_fmap in Hh' as (g & Heq & Hg).
        apply elem_of_executions in Hf as He.
        apply elem_of_executions in Hg as He'.
        destruct (step_executed _ _ _ _ _ Hwf Hord Hs He) as (_ & _ & Hful).
        rewrite Heq in Hful. apply (Hlater g He') in Hful.
        by apply fulfilled_not_pending in Hful.
    + intros f Hf. apply elem_of_app in Hf as [Hf|Hf].
      * destruct (step_executed _ _ _ _ _ Hwf Hord Hs Hf) as (_ & Hp & Hful).
        split; [intros st Hst; congruence|].
        apply Hst'; [done|apply fulfilled_not_pending].
      * destruct (Hex f Hf) as [Hp Hful]. split; [|done].
        intros st Hst. destruct (decide (st = pending)) as [|Hne]; [done|].
        apply Hp. by apply Hst1.
Qed.

(** X3: in every run of a pool no unit is called twice, and at the end of
    the run the future of every unit that was called holds exactly the
    outcome of its callable: the value it returned or the object it threw. *)
Theorem executed_unit_delivers_outcome n tr evs s :
  run tr (create n) = Some (evs, s) ->
  NoDup (state <$> executions evs) /\
  (forall f, executed f ∈ evs -> futures s !! state f = Some (fulfilled f)).
Proof.
  intros Hrun.
  destruct (reachable_invariants _ (create_reachable n)) as [Hwf Hord].
  destruct (run_executed _ _ _ _ Hwf Hord Hrun) as [Hnd Hex].
  split; [exact Hnd|]. intros f Hf. by apply Hex.
Qed.

End futures_facts.

(** * Delivery: from submission to execution *)
Section delivery.
Import future logger task_pool.

(** X2: on a valid queue with nothing pending, [enqueue] followed by
    [dequeue] is a round trip: the handle is fresh, [dequeue] returns at once
    with the unit that wraps the enqueued callable and fulfils that handle,
    the queue is back in the state it was in, and calling the unit stores the
    callable's outcome in the handle and throws nothing. *)
Theorem enqueue_dequeue_round_trip c q fs :
  task_queue.valid_ q = true ->
  task_queue.queue_ q = [] ->
  let r := task_queue.enqueue c q fs in
  let f := {| stored := c; state := r.1.1 |} in
  fs !! r.1.1 = None /\
  r.2 !! r.1.1 = Some pending /\
  task_queue.dequeue None r.1.2 r.2 = (task_queue.returned true, Some f, q, r.2) /\
  invoke f r.2 = (fs ++ [fulfilled f], None).
Proof.
  intros Hv Hq. destruct q as [v v' pend]. simpl in Hv, Hq. subst v pend.
  simpl. split_and!.
  - by apply lookup_ge_None_2.
  - by rewrite lookup_app_r, Nat.sub_diag by lia.
  - reflexivity.
  - unfold invoke, fulfilled. simpl.
    rewrite lookup_app_r, Nat.sub_diag by lia. simpl.
    destruct (c tt); simpl; by rewrite insert_app_r_alt, Nat.sub_diag by lia.
Qed.

Lemma event_not_in_nil (e : event) : e ∈ @nil event -> False.
Proof. intros He. by apply not_elem_of_nil in He. Qed.

Lemma event_in_singleton (e e' : event) : e ∈ [e'] -> e = e'.
Proof. intros He. by apply list_elem_of_singleton in He. Qed.

Lemma elem_of_dequeues f evs : f ∈ dequeues evs <-> dequeued f ∈ evs.
Proof.
  unfold dequeues. rewrite list_elem_of_omap. split.
  - intros (e & He & Hf). destruct e; try discriminate. by injection Hf as ->.
  - intros He. by exists (dequeued f).
Qed.

Lemma elem_of_submissions f evs : f ∈ submissions evs <-> submitted f ∈ evs.
Proof.
  unfold submissions. rewrite list_elem_of_omap. split.
  - intros (e & He & Hf). destruct e; try discriminate. by injection Hf as ->.
  - intros He. by exists (submitted f).
Qed.

(** What a step that reports a submission, a removal or a call has done. *)
Lemma step_submitted a s ev s1 f :
  step a s = Some (ev, s1) -> submitted f ∈ ev ->
  ev = [submitted f] /\ state f = length (futures s) /\
  length (futures s1) = S (length (futures s)).
Proof.
  intros Hs Hin. apply step_move in Hs as [_ Hm].
  destruct Hm as [c|i w evs w' q' fs' out' Hi Hm| | | | | | | |];
    try (by destruct (event_not_in_nil _ Hin));
    try (apply event_in_singleton in Hin; discriminate).
  - apply event_in_singleton in Hin. injection Hin as ->. simpl.
    rewrite length_app. simpl. split_and!; [done|done|lia].
  - destruct Hm; try (by destruct (event_not_in_nil _ Hin));
      apply event_in_singleton in Hin; discriminate.
Qed.

Lemma step_dequeued a s ev s1 f :
  step a s = Some (ev, s1) -> dequeued f ∈ ev ->
  ev = [dequeued f] /\
  task_queue.valid_ (queue_ s) = true /\
  task_queue.queue_ (queue_ s) = f :: task_queue.queue_ (queue_ s1).
Proof.
  intros Hs Hin. apply step_move in Hs as [_ Hm].
  destruct Hm as [c|i w evs w' q' fs' out' Hi Hm| | | | | | | |];
    try (by destruct (event_not_in_nil _ Hin));
    try (apply event_in_singleton in Hin; discriminate).
  destruct Hm; try (by destruct (event_not_in_nil _ Hin));
    apply event_in_singleton in Hin; try discriminate.
  injection Hin as ->. simpl. done.
Qed.

Lemma step_executed_held a s ev s1 f :
  step a s = Some (ev, s1) -> executed f ∈ ev ->
  ev = [executed f] /\
  exists i w, workers_ s !! i = Some w /\
              task_worker.at_ w = task_worker.in_task /\
              task_worker.task w = Some f.
Proof.
  intros Hs Hin. apply step_move in Hs as [_ Hm].
  destruct Hm as [c|i w evs w' q' fs' out' Hi Hm| | | | | | | |];
    try (by destruct (event_not_in_nil _ Hin));
    try (apply event_in_singleton in Hin; discriminate).
  destruct Hm; try (by destruct (event_not_in_nil _ Hin));
    apply event_in_singleton in Hin; try discriminate.
  injection Hin as ->. split; [done|]. by exists i, w.
Qed.

(** Where a unit found in the queue, or in the hands of a worker about to
    call it, was before the step. *)
Lemma step_queued_before a s ev s1 f :
  step a s = Some (ev, s1) ->
  f ∈ task_queue.queue_ (queue_ s1) ->
  f ∈ task_queue.queue_ (queue_ s) \/
  (ev = [submitted f] /\ state f = length (futures s)).
Proof.
  intros Hs Hin. apply step_move in Hs as [_ Hm].
  destruct Hm as [c|i w evs w' q' fs' out' Hi Hm| | | | | | | |];
    simpl in Hin; try (by left); try (by destruct (not_elem_of_nil f)).
  - apply elem_of_app in Hin as [Hin|Hin]; [by left|].
    apply list_elem_of_singleton in Hin. subst f. by right.
  - left. apply worker_move_task in Hm as [[<- _]|(g & _ & -> & _)]; [done|].
    by apply list_elem_of_further.
Qed.

Lemma step_held_before a s ev s1 i w f :
  step a s = Some (ev, s1) ->
  workers_ s1 !! i = Some w ->
  task_worker.at_ w = task_worker.in_task ->
  task_worker.task w = Some f ->
  (exists w0, workers_ s !! i = Some w0 /\
              task_worker.at_ w0 = task_worker.in_task /\
              task_worker.task w0 = Some f) \/
  ev = [dequeued f].
Proof.
  intros Hs Hi Hat Ht. apply step_move in Hs as [_ Hm].
  destruct Hm as [c|j wj evs w' q' fs' out' Hj Hm| | | | | |j wj Hd Hj| |j wj Hd Hj Hat'];
    simpl in Hi; try (left; by exists w).
  - apply list_lookup_insert_Some in Hi as [(-> & <- & _)|[Hne Hi]]; [|left; by exists w].
    destruct Hm as [| |Hw| | |g l o Hw Hg Hl|]; simpl in *; try discriminate.
    + congruence.
    + right. congruence.
    + exfalso. subst l.
      destruct ((invoke g (futures s)).2) as [e|]; [destruct (what e)|]; discriminate.
  - apply list_lookup_insert_Some in Hi as [(-> & <- & _)|[Hne Hi]]; [|left; by exists w].
    left. by exists wj.
  - apply list_lookup_insert_Some in Hi as [(-> & <- & _)|[Hne Hi]]; [|left; by exists w].
    discriminate.
Qed.

(** An event found at position [k] of [ev ++ evs] either lies in [ev], or
    lies in [evs], and then what precedes it there precedes it here. *)
Lemma earlier_shift (ev evs : list event) k e :
  length ev <= k ->
  (exists j, j < k - length ev /\ evs !! j = Some e) ->
  exists j, j < k /\ (ev ++ evs) !! j = Some e.
Proof.
  intros Hk (j & Hj & He). exists (length ev + j). split; [lia|].
  rewrite lookup_app_r by lia.
  by replace (length ev + j - length ev) with j by lia.
Qed.

Lemma earlier_first (evs : list event) k e :
  1 <= k -> exists j, j < k /\ ([e] ++ evs) !! j = Some e.
Proof. intros Hk. exists 0. split; [lia|done]. Qed.

Lemma dequeued_after_submitted tr s evs s' k f :
  run tr s = Some (evs, s') ->
  evs !! k = Some (dequeued f) ->
  f ∈ task_queue.queue_ (queue_ s) \/
  exists j, j < k /\ evs !! j = Some (submitted f).
Proof.
  revert s evs k. induction tr as [|a tr IH]; intros s evs k Hrun Hk.
  - inversion Hrun; subst. by rewrite lookup_nil in Hk.
  - apply run_cons in Hrun as (ev & s1 & evs' & Hs & Hr & ->).
    apply lookup_app_Some in Hk as [Hk|[Hlen Hk]].
    + apply list_elem_of_lookup_2 in Hk.
      destruct (step_dequeued _ _ _ _ _ Hs Hk) as (_ & _ & ->).
      left. apply list_elem_of_here.
    + destruct (IH _ _ _ Hr Hk) as [Hq|Hj].
      * destruct (step_queued_before _ _ _ _ _ Hs Hq) as [Hq0|[-> _]]; [by left|].
        right. apply earlier_first. simpl in Hlen. lia.
      * right. by apply earlier_shift.
Qed.

Lemma executed_after_dequeued tr s evs s' k f :
  run tr s = Some (evs, s') ->
  evs !! k = Some (executed f) ->
  (exists i w, workers_ s !! i = Some w /\
               task_worker.at_ w = task_worker.in_task /\
               task_worker.task w = Some f) \/
  exists j, j < k /\ evs !! j = Some (dequeued f).
Proof.
  revert s evs k. induction tr as [|a tr IH]; intros s evs k Hrun Hk.
  - inversion Hrun; subst. by rewrite lookup_nil in Hk.
  - apply run_cons in Hrun as (ev & s1 & evs' & Hs & Hr & ->).
    apply lookup_app_Some in Hk as [Hk|[Hlen Hk]].
    + apply list_elem_of_lookup_2 in Hk.
      left. by destruct (step_executed_held _ _ _ _ _ Hs Hk).
    + destruct (IH _ _ _ Hr Hk) as [(i & w & Hi & Hat & Ht)|Hj].
      * destruct (step_held_before _ _ _ _ _ _ _ Hs Hi Hat Ht) as [(w0 & H0)| ->].
        -- left. by exists i, w0.
        -- right. apply earlier_first. simpl in Hlen. lia.
      * right. by apply earlier_shift.
Qed.

Lemma submissions_fresh tr s evs s' :
  run tr s = Some (evs, s') ->
  NoDup (state <$> submissions evs) /\
  (forall f, f ∈ submissions evs -> length (futures s) <= state f).
Proof.
  revert s evs. induction tr as [|a tr IH]; intros s evs Hrun.
  - inversion Hrun; subst. split; [constructor|].
    intros f Hf. by apply not_elem_of_nil in Hf.
  - apply run_cons in Hrun as (ev & s1 & evs' & Hs & Hr & ->).
    destruct (IH _ _ Hr) as [Hnd Hge].
    pose proof (step_futures_length _ _ _ _ Hs) as Hlen.
    rewrite submissions_app, fmap_app.
    destruct (submissions ev) as [|f l] eqn:Hev; simpl.
    + split; [exact Hnd|]. intros g Hg. apply Hge in Hg. lia.
    + assert (Hf : submitted f ∈ ev).
      { apply elem_of_submissions. rewrite Hev. apply list_elem_of_here. }
      destruct (step_submitted _ _ _ _ _ Hs Hf) as (-> & Hst & Hlen1).
      injection Hev as <-. simpl. split.
      * apply NoDup_cons. split; [|exact Hnd]. intros Hin.
        apply list_elem_of_fmap in Hin as (g & Heq & Hg). apply Hge in Hg. lia.
      * intros g Hg. apply elem_of_cons in Hg as [->|Hg]; [lia|].
        apply Hge in Hg. lia.
Qed.

Lemma dequeues_distinct tr s evs s' :
  well_formed s ->
  run tr s = Some (evs, s') ->
  NoDup (state <$> dequeues evs) /\
  (forall f, f ∈ dequeues evs ->
             (state f ∈ state <$> task_queue.queue_ (queue_ s)) \/
             length (futures s) <= state f).
Proof.
  revert s evs. induction tr as [|a tr IH]; intros s evs Hwf Hrun.
  - inversion Hrun; subst. split; [constructor|].
    intros f Hf. by apply not_elem_of_nil in Hf.
  - apply run_cons in Hrun as (ev & s1 & evs' & Hs & Hr & ->).
    pose proof (well_formed_step _ _ _ _ Hwf Hs) as Hwf1.
    destruct (IH _ _ Hwf1 Hr) as [Hnd Hfrom].
    pose proof (step_futures_length _ _ _ _ Hs) as Hlen.
    assert (Hback : forall g, g ∈ dequeues evs' ->
              (state g ∈ state <$> task_queue.queue_ (queue_ s)) \/
              length (futures s) <= state g).
    { intros g Hg. destruct (Hfrom g Hg) as [Hin|Hge]; [|right; lia].
      apply list_elem_of_fmap in Hin as (g' & -> & Hg').
      destruct (step_queued_before _ _ _ _ _ Hs Hg') as [Hq|[_ Hst]].
      - left. by apply list_elem_of_fmap_2.
      - right. lia. }
    rewrite dequeues_app, fmap_app.
    destruct (dequeues ev) as [|f l] eqn:Hev; simpl; [by split|].
    assert (Hf : dequeued f ∈ ev).
    { apply elem_of_dequeues. rewrite Hev. apply list_elem_of_here. }
    destruct (step_dequeued _ _ _ _ _ Hs Hf) as (-> & _ & Hq).
    injection Hev as <-. simpl.
    destruct Hwf as (Hnd0 & Hpend & _). rewrite Hq in Hnd0. simpl in Hnd0.
    apply NoDup_cons in Hnd0 as [Hfresh _].
    assert (Hlt : state f < length (futures s)).
    { eapply lookup_lt_Some, Hpend. rewrite Hq. apply list_elem_of_here. }
    assert (Hlen1 : length (futures s1) = length (futures s)).
    { apply step_move in Hs as [_ Hm]. inversion Hm; subst; simpl.
      match goal with H : worker_move _ _ _ _ _ _ _ _ _ |- _ =>
        by apply worker_move_futures in H as (-> & _) end. }
    split.
    + apply NoDup_cons. split; [|exact Hnd]. intros Hin.
      apply list_elem_of_fmap in Hin as (g & Heq & Hg).
      destruct (Hfrom g Hg) as [Hin|Hge]; [|lia]. by rewrite <- Heq in Hin.
    + intros g Hg. apply elem_of_cons in Hg as [->|Hg]; [|by apply Hback].
      left. rewrite Hq. simpl. apply list_elem_of_here.
Qed.

(** X4: in every run of a pool each submission gets a future of its own, no
    unit is handed out by [dequeue] twice, a unit is dequeued only after it
    was submitted, and it is called only after it was dequeued. *)
Theorem delivery_is_causal_and_unique n tr evs s :
  run tr (create n) = Some (evs, s) ->
  NoDup (state <$> submissions evs) /\
  NoDup (state <$> dequeues evs) /\
  (forall k f, evs !! k = Some (dequeued f) ->
               exists j, j < k /\ evs !! j = Some (submitted f)) /\
  (forall k f, evs !! k = Some (executed f) ->
               exists j, j < k /\ evs !! j = Some (dequeued f)).
Proof.
  intros Hrun. split_and!.
  - by destruct (submissions_fresh _ _ _ _ Hrun).
  - by destruct (dequeues_distinct _ _ _ _ (well_formed_create n) Hrun).
  - intros k f Hk.
    destruct (dequeued_after_submitted _ _ _ _ _ _ Hrun Hk) as [Hq|Hj]; [|done].
    by apply not_elem_of_nil in Hq.
  - intros k f Hk.
    destruct (executed_after_dequeued _ _ _ _ _ _ Hrun Hk)
      as [(i & w & Hi & Hat & Ht)|Hj]; [|done].
    apply create_workers in Hi. by subst w.
Qed.

Lemma step_invalid_held a s ev s1 i w f :
  task_queue.valid_ (queue_ s) = false ->
  step a s = Some (ev, s1) ->
  workers_ s1 !! i = Some w ->
  task_worker.at_ w = task_worker.in_task ->
  task_worker.task w = Some f ->
  exists w0, workers_ s !! i = Some w0 /\
             task_worker.at_ w0 = task_worker.in_task /\
             task_worker.task w0 = Some f.
Proof.
  intros Hv Hs Hi Hat Ht.
  destruct (step_held_before _ _ _ _ _ _ _ Hs Hi Hat Ht) as [H| ->]; [done|].
  destruct (step_dequeued _ _ _ _ f Hs) as (_ & Hv' & _); [apply list_elem_of_here|].
  congruence.
Qed.

(** X6: once the queue is invalid, in every later run nothing more is taken
    from it, and the only units that are still called are those a worker had
    already taken and was about to call. *)
Theorem nothing_dequeued_after_invalidation tr s evs s' :
  task_queue.valid_ (queue_ s) = false ->
  run tr s = Some (evs, s') ->
  dequeues evs = [] /\
  (forall f, executed f ∈ evs ->
             exists i w, workers_ s !! i = Some w /\
                         task_worker.at_ w = task_worker.in_task /\
                         task_worker.task w = Some f).
Proof.
  revert s evs. induction tr as [|a tr IH]; intros s evs Hv Hrun.
  - inversion Hrun; subst. split; [done|].
    intros f Hf. by apply not_elem_of_nil in Hf.
  - apply run_cons in Hrun as (ev & s1 & evs' & Hs & Hr & ->).
    pose proof (step_stays_invalid _ _ _ _ Hv Hs) as Hv1.
    destruct (IH _ _ Hv1 Hr) as [Hdq Hex]. split.
    + rewrite dequeues_app, Hdq, app_nil_r.
      destruct (dequeues ev) as [|f l] eqn:Hev; [done|].
      assert (Hf : dequeued f ∈ ev).
      { apply elem_of_dequeues. rewrite Hev. apply list_elem_of_here. }
      destruct (step_dequeued _ _ _ _ _ Hs Hf) as (_ & Hv' & _). congruence.
    + intros f Hf. apply elem_of_app in Hf as [Hf|Hf].
      * by destruct (step_executed_held _ _ _ _ _ Hs Hf).
      * destruct (Hex f Hf) as (i & w & Hi & Hat & Ht).
        destruct (step_invalid_held _ _ _ _ _ _ _ Hv Hs Hi Hat Ht) as (w0 & H0).
        by exists i, w0.
Qed.

End delivery.

(** * Life and end of the pool *)
Section lifetime.
Import future logger task_pool.

Lemma worker_move_location w q fs out evs w' q' fs' out' :
  worker_move w q fs out evs w' q' fs' out' ->
  task_worker.at_ w = task_worker.at_loop \/
  task_worker.at_ w = task_worker.in_dequeue \/
  task_worker.at_ w = task_worker.in_task.
Proof. destruct 1; auto. Qed.

Lemma release_pending_before o fs h :
  task_queue.release o fs !! h = Some pending -> fs !! h = Some pending.
Proof.
  rewrite release_lookup. destruct o; [|done]. by case_decide.
Qed.

Lemma invoke_pending_before f fs h :
  (invoke f fs).1 !! h = Some pending -> fs !! h = Some pending /\ h <> state f.
Proof.
  rewrite invoke_lookup. case_decide as Hd.
  - intros [= Hf]. by apply fulfilled_not_pending in Hf.
  - intros Hp. split; [done|]. intros ->. by apply Hd.
Qed.

Lemma abandon_all_pending_before pend fs h :
  foldl (fun h f => abandon f h) fs pend !! h = Some pending ->
  fs !! h = Some pending /\ (h ∉ state <$> pend).
Proof.
  rewrite abandon_all_lookup. case_decide as Hd; [done|].
  intros Hp. split; [done|]. intros Hin. by apply Hd.
Qed.

Lemma accounted_create n : accounted (create n).
Proof. intros h Hh. simpl in Hh. by rewrite lookup_nil in Hh. Qed.

Lemma accounted_step a s ev s1 :
  accounted s -> step a s = Some (ev, s1) -> accounted s1.
Proof.
  intros Hacc Hs. apply step_move in Hs as [_ Hm].
  destruct Hm as [c|i w evs w' q' fs' out' Hi Hm| | | | |Hd|i w Hd Hi|i Hd Hi|i w Hd Hi Hat];
    unfold accounted; simpl; try exact Hacc.
  - (* submit *)
    intros h Hh. rewrite fmap_app. simpl.
    apply lookup_app_Some in Hh as [Hh|[Hge Hh]].
    + destruct (Hacc h Hh) as [Hq|Hw]; [|by right].
      left. apply elem_of_app. by left.
    + left. apply elem_of_app. right.
      destruct (h - length (futures s)) as [|d] eqn:Hd; [|by destruct d].
      assert (h = length (futures s)) as -> by lia. apply list_elem_of_here.
  - (* worker *)
    pose proof (lookup_lt_Some _ _ _ Hi) as Hlt.
    assert (Hother : forall h j wj g,
              j <> i -> workers_ s !! j = Some wj ->
              task_worker.at_ wj = task_worker.in_task ->
              task_worker.task wj = Some g -> state g = h ->
              exists j' w1 g',
                <[i:=w']> (workers_ s) !! j' = Some w1 /\
                task_worker.at_ w1 = task_worker.in_task /\
                task_worker.task w1 = Some g' /\ state g' = h).
    { intros h j wj g Hne Hj Hat Ht Hst. exists j, wj, g.
      by rewrite list_lookup_insert_ne. }
    destruct Hm as [Hat Hs|Hat Hs|Hat Hq Hv|Hat Hv|f rest Hat Hv Hq|f l o Hat Ht Hl|Hat Ht];
      intros h Hh; simpl in *.
    + apply release_pending_before in Hh.
      destruct (Hacc h Hh) as [Hq|(j & wj & g & Hj & Hatj & Htj & Hst)]; [by left|].
      right. destruct (decide (j = i)) as [->|Hne]; [congruence|]. eauto.
    + destruct (Hacc h Hh) as [Hq|(j & wj & g & Hj & Hatj & Htj & Hst)]; [by left|].
      right. destruct (decide (j = i)) as [->|Hne]; [congruence|]. eauto.
    + rewrite list_insert_id by done. by apply Hacc.
    + destruct (Hacc h Hh) as [Hq|(j & wj & g & Hj & Hatj & Htj & Hst)]; [by left|].
      right. destruct (decide (j = i)) as [->|Hne]; [congruence|]. eauto.
    + apply release_pending_before in Hh.
      destruct (Hacc h Hh) as [Hin|(j & wj & g & Hj & Hatj & Htj & Hst)].
      * rewrite Hq in Hin. simpl in Hin. apply elem_of_cons in Hin as [->|Hin]; [|by left].
        right. eexists i, _, f. rewrite list_lookup_insert_eq by done. done.
      * right. destruct (decide (j = i)) as [->|Hne]; [congruence|]. eauto.
    + apply invoke_pending_before in Hh as [Hh Hne].
      destruct (Hacc h Hh) as [Hin|(j & wj & g & Hj & Hatj & Htj & Hst)]; [by left|].
      right. destruct (decide (j = i)) as [->|Hne']; [congruence|]. eauto.
    + destruct (Hacc h Hh) as [Hin|(j & wj & g & Hj & Hatj & Htj & Hst)]; [by left|].
      right. destruct (decide (j = i)) as [->|Hne']; [congruence|]. eauto.
  - (* clear *)
    intros h Hh. apply abandon_all_pending_before in Hh as [Hh Hn].
    destruct (Hacc h Hh) as [Hin|Hw]; [done|by right].
  - (* stop *)
    intros h Hh.
    destruct (Hacc h Hh) as [Hin|(j & wj & g & Hj & Hatj & Htj & Hst)]; [by left|].
    right. destruct (decide (j = i)) as [->|Hne].
    + assert (wj = w) as -> by congruence.
      exists i, (task_worker.request_stop w), g.
      rewrite list_lookup_insert_eq by (by eapply lookup_lt_Some). done.
    + exists j, wj, g. by rewrite list_lookup_insert_ne.
  - (* members *)
    intros h Hh. apply abandon_all_pending_before in Hh as [Hh Hn].
    destruct (Hacc h Hh) as [Hin|Hw]; [done|by right].
  - (* join *)
    intros h Hh.
    destruct (Hacc h Hh) as [Hin|(j & wj & g & Hj & Hatj & Htj & Hst)]; [by left|].
    right. destruct (decide (j = i)) as [->|Hne].
    + assert (wj = w) as -> by congruence.
      destruct Hat as [Hat|[Hat|Hat]]; congruence.
    + exists j, wj, g. by rewrite list_lookup_insert_ne.
Qed.

Lemma teardown_progress_create n : teardown_progress (create n).
Proof. done. Qed.

Lemma teardown_progress_step a s ev s1 :
  teardown_progress s -> step a s = Some (ev, s1) -> teardown_progress s1.
Proof.
  intros Hp Hs. apply step_move in Hs as [Hlive Hm]. unfold teardown_progress in *.
  destruct Hm as [c|i w evs w' q' fs' out' Hi Hm| | | | |Hd|i w Hd Hi|i Hd Hi|i w Hd Hi Hat];
    simpl; try exact Hp.
  - destruct (dtor s) as [|k b|]; done.
  - (* worker *)
    pose proof (worker_move_location _ _ _ _ _ _ _ _ _ Hm) as Hloc.
    pose proof (worker_move_stop _ _ _ _ _ _ _ _ _ Hm) as Hstop.
    destruct (dtor s) as [|k b|]; [done| |done].
    destruct Hp as [Hdel Hcur]. split.
    + intros j wj Hj Hwj.
      apply list_lookup_insert_Some in Hwj as [(-> & <- & _)|[Hne Hwj]]; [|eauto].
      apply (Hdel _ _ Hj) in Hi. rewrite Hi in Hloc.
      destruct Hloc as [?|[?|?]]; discriminate.
    + intros Hb. destruct (Hcur Hb) as (wk & Hk & Hsk).
      destruct (decide (k = i)) as [->|Hne].
      * exists w'. rewrite list_lookup_insert_eq by (by eapply lookup_lt_Some).
        split; [done|]. congruence.
      * exists wk. by rewrite list_lookup_insert_ne.
  - destruct (dtor s) as [|k b|]; done.
  - (* invalidate by the destructor *)
    split; [intros j wj Hj; lia|done].
  - (* stop *)
    rewrite Hd in Hp. destruct Hp as [Hdel _]. split.
    + intros j wj Hj Hwj. rewrite list_lookup_insert_ne in Hwj by lia. eauto.
    + intros _. exists (task_worker.request_stop w).
      by rewrite list_lookup_insert_eq by (by eapply lookup_lt_Some).
  - (* members *)
    rewrite Hd in Hp. destruct Hp as [Hdel _]. split; [|done].
    intros j wj Hwj. apply (Hdel j); [|done].
    apply lookup_ge_None_1 in Hi. apply lookup_lt_Some in Hwj. lia.
  - (* join *)
    rewrite Hd in Hp. destruct Hp as [Hdel _]. split; [|done].
    intros j wj Hj Hwj.
    apply list_lookup_insert_Some in Hwj as [(-> & <- & _)|[Hne Hwj]]; [done|].
    apply (Hdel j); [lia|done].
Qed.

Lemma lifecycle_step a s ev s1 :
  (forall i w, workers_ s !! i = Some w -> lifecycle w) ->
  step a s = Some (ev, s1) ->
  (forall i w, workers_ s1 !! i = Some w -> lifecycle w) /\
  length (workers_ s1) = length (workers_ s).
Proof.
  intros Hl Hs. apply step_move in Hs as [_ Hm].
  destruct Hm as [c|i w evs w' q' fs' out' Hi Hm| | | | |Hd|i w Hd Hi|i Hd Hi|i w Hd Hi Hat];
    simpl; rewrite ?length_insert; try (split; [exact Hl|reflexivity]);
    (split; [|reflexivity]); intros j wj Hj;
    apply list_lookup_insert_Some in Hj as [(-> & <- & _)|[Hne Hj]]; eauto;
    pose proof (Hl _ _ Hi) as [Hun Hend]; unfold lifecycle.
  - destruct Hm as [Hw Hs|Hw Hs|Hw Hq Hv|Hw Hv|f rest Hw Hv Hq|f l o Hw Ht Hl'|Hw Ht];
      simpl; try (split; [done|intros [?|?]; (done || congruence)]).
    split.
    + intros ->.
      destruct ((invoke f (futures s)).2) as [e|]; [destruct (what e)|]; discriminate.
    + intros [-> | ->];
        destruct ((invoke f (futures s)).2) as [e|]; [destruct (what e)| |destruct (what e)|];
        discriminate.
  - simpl. split; [done|]. done.
  - simpl. split; [done|]. intros _.
    destruct Hat as [Hat|[Hat|Hat]]; [done| |]; apply Hend; auto.
Qed.

(** X9: a pool keeps the number of workers it was constructed with; every
    worker has been started; and a worker's thread has ended only if the
    destructor has set its stop flag, which it does only after invalidating
    the queue: a closed queue alone does not end a worker. *)
Theorem workers_fixed_and_end_only_on_stop n tr evs s :
  run tr (create n) = Some (evs, s) ->
  length (workers_ s) = n /\
  (forall i w,
     workers_ s !! i = Some w ->
     task_worker.at_ w <> task_worker.unstarted /\
     (task_worker.at_ w = task_worker.exited \/
      task_worker.at_ w = task_worker.deleted ->
      task_worker.stop_ w = true /\
      dtor s <> not_running /\
      task_queue.valid_ (queue_ s) = false)).
Proof.
  intros Hrun.
  assert (H : ((forall i w, workers_ s !! i = Some w -> lifecycle w) /\
               length (workers_ s) = n) /\ teardown_inv s).
  { eapply (run_invariant
              (fun s => ((forall i w, workers_ s !! i = Some w -> lifecycle w) /\
                         length (workers_ s) = n) /\ teardown_inv s));
      [| |exact Hrun].
    - intros a s0 ev s1 [[Hl Hn] Ht] Hs. split; [|by eapply teardown_inv_step].
      destruct (lifecycle_step _ _ _ _ Hl Hs) as [Hl1 Hn1]. split; [done|congruence].
    - split; [|apply teardown_inv_create]. split.
      + intros i w Hi. apply create_workers in Hi. subst w. split; [done|].
        intros [?|?]; discriminate.
      + simpl. rewrite spawn_eq. simpl. apply length_replicate. }
  destruct H as [[Hl Hn] [Hq Hw]]. split; [exact Hn|].
  intros i w Hi. destruct (Hl i w Hi) as [Hun Hend]. split; [exact Hun|].
  intros Hat. pose proof (Hend Hat) as Hstop. split; [exact Hstop|].
  pose proof (Hw i w Hi Hstop) as Hd. split; [exact Hd|]. by apply Hq.
Qed.

(** X7: when the destructor of a pool has finished, no future is left
    unresolved, every worker has been joined and deleted, and the queue is
    empty and invalid. *)
Theorem no_future_pending_after_destructor n tr evs s :
  run tr (create n) = Some (evs, s) ->
  dtor s = destroyed ->
  (forall h st, futures s !! h = Some st -> st <> pending) /\
  (forall i w, workers_ s !! i = Some w ->
               task_worker.at_ w = task_worker.deleted) /\
  task_queue.queue_ (queue_ s) = [] /\
  task_queue.valid_ (queue_ s) = false.
Proof.
  intros Hrun Hd.
  assert (H : accounted s /\ teardown_progress s /\ teardown_inv s).
  { eapply (run_invariant
              (fun s => accounted s /\ teardown_progress s /\ teardown_inv s));
      [| |exact Hrun].
    - intros a s0 ev s1 (Ha & Hp & Ht) Hs.
      split_and!; [by eapply accounted_step|by eapply teardown_progress_step|
                   by eapply teardown_inv_step].
    - split_and!; [apply accounted_create|apply teardown_progress_create|
                   apply teardown_inv_create]. }
  destruct H as (Hacc & Hp & [Hq _]). unfold teardown_progress in Hp.
  rewrite Hd in Hp. destruct Hp as [Hdel Hempty]. split_and!.
  - intros h st Hh ->.
    destruct (Hacc h Hh) as [Hin|(i & w & g & Hi & Hat & _)].
    + rewrite Hempty in Hin. by apply not_elem_of_nil in Hin.
    + apply Hdel in Hi. congruence.
  - exact Hdel.
  - exact Hempty.
  - apply Hq. congruence.
Qed.

End lifetime.

(** * The destructor's way to its end, in the pool layer *)
Section no_deadlock.
Import future logger task_pool.

Lemma reachable_teardown s : reachable s -> teardown_inv s /\ teardown_progress s.
Proof.
  intros (n & tr & evs & Hrun).
  eapply (run_invariant (fun s => teardown_inv s /\ teardown_progress s));
    [| |exact Hrun].
  - intros a s0 ev s1 [Ht Hp] Hs.
    split; [by eapply teardown_inv_step|by eapply teardown_progress_step].
  - split; [apply teardown_inv_create|apply teardown_progress_create].
Qed.

Lemma step_worker_eq i w s evs w' q' fs' out' :
  dtor s <> destroyed ->
  workers_ s !! i = Some w ->
  task_worker.step w (queue_ s) (futures s) (output s) = Some (evs, w', q', fs', out') ->
  step (worker i) s =
  Some (evs, {| queue_ := q'; workers_ := <[i := w']> (workers_ s); futures := fs';
                output := out'; dtor := dtor s |}).
Proof.
  intros Hd Hi Hs. unfold step, perform, set_worker. rewrite Hi, Hs.
  by destruct (dtor s).
Qed.

Lemma step_in_task_pending w q fs out g :
  task_worker.at_ w = task_worker.in_task ->
  task_worker.task w = Some g ->
  fs !! state g = Some pending ->
  task_worker.step w q fs out =
  Some ([executed g], task_worker.goto task_worker.at_loop w, q,
        <[state g := fulfilled g]> fs, out).
Proof.
  intros Hat Hg Hp. unfold task_worker.step, invoke, fulfilled.
  rewrite Hat, Hg, Hp. by destruct (stored g tt).
Qed.

Lemma run_one a s ev s1 : step a s = Some (ev, s1) -> run [a] s = Some (ev ++ [], s1).
Proof. intros Hs. simpl. by rewrite Hs. Qed.

(** A worker at the head of its loop with the stop flag set leaves. *)
Lemma exit_from_loop s i w :
  dtor s <> destroyed ->
  workers_ s !! i = Some w ->
  task_worker.at_ w = task_worker.at_loop ->
  task_worker.stop_ w = true ->
  exists evs s' w',
    run [worker i] s = Some (evs, s') /\
    dtor s' = dtor s /\
    length (workers_ s') = length (workers_ s) /\
    workers_ s' !! i = Some w' /\
    task_worker.at_ w' = task_worker.exited.
Proof.
  intros Hd Hi Hat Hstop. pose proof (lookup_lt_Some _ _ _ Hi) as Hlt.
  eexists _, _, _. split.
  - apply run_one, (step_worker_eq i w); [done|done|].
    unfold task_worker.step, atomic.load. rewrite Hat, Hstop. reflexivity.
  - simpl. rewrite length_insert, list_lookup_insert_eq by done. done.
Qed.

(** With the queue invalid and its stop flag set, a worker of a reachable
    pool gets, by its own steps, to a point where [join] returns. *)
Lemma worker_can_exit s i w :
  reachable s ->
  dtor s <> destroyed ->
  task_queue.valid_ (queue_ s) = false ->
  workers_ s !! i = Some w ->
  task_worker.stop_ w = true ->
  exists tr evs s' w',
    forallb worker_or_teardown tr = true /\
    run tr s = Some (evs, s') /\
    dtor s' = dtor s /\
    length (workers_ s') = length (workers_ s) /\
    workers_ s' !! i = Some w' /\
    negb (task_worker.joinable w') || task_worker.join_returns w' = true.
Proof.
  intros Hreach Hd Hv Hi Hstop. pose proof (lookup_lt_Some _ _ _ Hi) as Hlt.
  apply reachable_invariants in Hreach as [_ (_ & Hset & _)].
  pose proof (Hset i w Hi) as Hw. unfold settled in Hw.
  assert (Hhere : forall l, task_worker.at_ w = l ->
            negb (task_worker.joinable w) || task_worker.join_returns w = true ->
            exists tr evs s' w',
              forallb worker_or_teardown tr = true /\
              run tr s = Some (evs, s') /\ dtor s' = dtor s /\
              length (workers_ s') = length (workers_ s) /\
              workers_ s' !! i = Some w' /\
              negb (task_worker.joinable w') || task_worker.join_returns w' = true).
  { intros l _ Hj. by exists [], [], s, w. }
  assert (Hvia : forall ev s1,
            step (worker i) s = Some (ev, s1) ->
            dtor s1 = dtor s ->
            length (workers_ s1) = length (workers_ s) ->
            workers_ s1 !! i = Some (task_worker.goto task_worker.at_loop w) ->
            exists tr evs s' w',
              forallb worker_or_teardown tr = true /\
              run tr s = Some (evs, s') /\ dtor s' = dtor s /\
              length (workers_ s') = length (workers_ s) /\
              workers_ s' !! i = Some w' /\
              negb (task_worker.joinable w') || task_worker.join_returns w' = true).
  { intros ev s1 Hs Hd1 Hlen1 Hi1.
    destruct (exit_from_loop s1 i _ (eq_ind_r (fun d => d <> destroyed) Hd Hd1)
                Hi1 eq_refl Hstop) as (evs2 & s2 & w2 & Hr2 & Hd2 & Hlen2 & Hi2 & Hat2).
    exists [worker i; worker i], (ev ++ evs2), s2, w2. split_and!.
    - reflexivity.
    - apply (run_app [worker i] [worker i] s ev s1 evs2 s2); [|done].
      apply run_one in Hs. by rewrite app_nil_r in Hs.
    - congruence.
    - congruence.
    - done.
    - unfold task_worker.joinable, task_worker.join_returns. by rewrite Hat2. }
  destruct (task_worker.at_ w) eqn:Hat.
  - eapply Hhere; [done|]. unfold task_worker.joinable. by rewrite Hat.
  - destruct (exit_from_loop s i w Hd Hi Hat Hstop)
      as (evs1 & s1 & w1 & Hr1 & Hd1 & Hlen1 & Hi1 & Hat1).
    exists [worker i], evs1, s1, w1. split_and!; try done.
    unfold task_worker.joinable, task_worker.join_returns. by rewrite Hat1.
  - eapply Hvia.
    + apply (step_worker_eq i w); [done|done|].
      unfold task_worker.step. rewrite Hat.
      by rewrite (dequeue_invalid _ _ _ Hv).
    + done.
    + simpl. by rewrite length_insert.
    + simpl. by rewrite list_lookup_insert_eq.
  - destruct Hw as (g & Hg & Hp). eapply Hvia.
    + apply (step_worker_eq i w); [done|done|].
      by apply step_in_task_pending.
    + done.
    + simpl. by rewrite length_insert.
    + simpl. by rewrite list_lookup_insert_eq.
  - eapply Hhere; [done|]. unfold task_worker.joinable, task_worker.join_returns.
    by rewrite Hat.
  - done.
  - eapply Hhere; [done|]. unfold task_worker.joinable. by rewrite Hat.
Qed.

Lemma can_finish_after tr s evs s1 :
  forallb worker_or_teardown tr = true ->
  run tr s = Some (evs, s1) ->
  can_finish s1 -> can_finish s.
Proof.
  intros Htr Hrun (tr' & evs' & s' & Htr' & Hrun' & Hd').
  exists (tr ++ tr'), (evs ++ evs'), s'. split_and!; [|by eapply run_app|done].
  rewrite forallb_app, Htr, Htr'. reflexivity.
Qed.

(** The destructor waiting in [join] for worker [i] gets past it. *)
Lemma finish_join s i :
  reachable s ->
  dtor s = deleting i true ->
  (forall s3, reachable s3 -> dtor s3 = deleting (S i) false ->
              length (workers_ s3) = length (workers_ s) -> can_finish s3) ->
  can_finish s.
Proof.
  intros Hreach Hd Hnext.
  destruct (reachable_teardown _ Hreach) as [[Hq _] Hp].
  unfold teardown_progress in Hp. rewrite Hd in Hp.
  destruct Hp as [_ Hcur]. destruct (Hcur eq_refl) as (w & Hi & Hstop).
  assert (Hlive : dtor s <> destroyed) by congruence.
  assert (Hv : task_queue.valid_ (queue_ s) = false) by (apply Hq; congruence).
  destruct (worker_can_exit s i w Hreach Hlive Hv Hi Hstop)
    as (tr & evs & s2 & w2 & Htr & Hrun & Hd2 & Hlen2 & Hi2 & Hj2).
  pose proof (reachable_run _ _ _ _ Hreach Hrun) as Hreach2.
  apply (can_finish_after tr s evs s2 Htr Hrun).
  set (s3 := {| queue_ := queue_ s2;
                workers_ := <[i := task_worker.goto task_worker.deleted w2]> (workers_ s2);
                futures := futures s2; output := output s2;
                dtor := deleting (S i) false |}).
  assert (Hs3 : step teardown s2 = Some ([joined i], s3)).
  { unfold step, perform, teardown_step, set_worker. rewrite Hd2, Hd, Hi2, Hj2. done. }
  apply (can_finish_after [teardown] s2 ([joined i] ++ []) s3); [done|by apply run_one|].
  apply Hnext; [|done|].
  - apply (reachable_run [teardown] s2 ([joined i] ++ []) s3 Hreach2). by apply run_one.
  - simpl. rewrite length_insert. exact Hlen2.
Qed.

Lemma finish_loop k s i :
  reachable s ->
  dtor s = deleting i false ->
  length (workers_ s) - i <= k ->
  can_finish s.
Proof.
  revert s i. induction k as [|k IH]; intros s i Hreach Hd Hk;
    destruct (workers_ s !! i) as [w|] eqn:Hi.
  - apply lookup_lt_Some in Hi. lia.
  - eexists [teardown], _, _. split; [done|]. split.
    + simpl. unfold step, perform, teardown_step. rewrite Hd, Hi. reflexivity.
    + reflexivity.
  - set (s1 := {| queue_ := queue_ s;
                  workers_ := <[i := task_worker.request_stop w]> (workers_ s);
                  futures := futures s; output := output s;
                  dtor := deleting i true |}).
    assert (Hs1 : step teardown s = Some ([stopped i], s1)).
    { unfold step, perform, teardown_step, set_worker. by rewrite Hd, Hi. }
    apply (can_finish_after [teardown] s ([stopped i] ++ []) s1); [done|by apply run_one|].
    apply (finish_join s1 i).
    + apply (reachable_run [teardown] s ([stopped i] ++ []) s1 Hreach). by apply run_one.
    + reflexivity.
    + intros s3 Hreach3 Hd3 Hlen3. apply (IH s3 (S i)); [done|done|].
      rewrite Hlen3. simpl. rewrite length_insert. lia.
  - eexists [teardown], _, _. split; [done|]. split.
    + simpl. unfold step, perform, teardown_step. rewrite Hd, Hi. reflexivity.
    + reflexivity.
Qed.

(** With calls that always return and blocked threads that check again on
    their own, the workers and the destructor can bring the destructor to
    its end. *)
Lemma destructor_can_finish s :
  reachable s ->
  dtor s <> destroyed ->
  exists tr evs s',
    forallb worker_or_teardown tr = true /\
    run tr s = Some (evs, s') /\
    dtor s' = destroyed.
Proof.
  intros Hreach Hlive. change (can_finish s).
  destruct (dtor s) as [|i [|]|] eqn:Hd; [| | |done].
  - set (s1 := {| queue_ := task_queue.invalidate (queue_ s); workers_ := workers_ s;
                  futures := futures s; output := output s;
                  dtor := deleting 0 false |}).
    assert (Hs1 : step teardown s = Some ([invalidated], s1)).
    { unfold step, perform, teardown_step. by rewrite Hd. }
    apply (can_finish_after [teardown] s ([invalidated] ++ []) s1); [done|by apply run_one|].
    apply (finish_loop (length (workers_ s1)) s1 0); [|done|lia].
    apply (reachable_run [teardown] s ([invalidated] ++ []) s1 Hreach). by apply run_one.
  - apply (finish_join s i Hreach Hd). intros s3 Hreach3 Hd3 _.
    by apply (finish_loop (length (workers_ s3)) s3 (S i)); [| |lia].
  - by apply (finish_loop (length (workers_ s)) s i); [| |lia].
Qed.

End no_deadlock.

(** * Edge cases: no workers, and [stop] without [invalidate] *)
Section edge_cases.
Import future logger task_pool.

Lemma step_without_workers a s ev s1 :
  workers_ s = [] ->
  (forall h st, futures s !! h = Some st ->
                st = pending \/ st = failed (future_error broken_promise)) ->
  step a s = Some (ev, s1) ->
  workers_ s1 = [] /\
  (forall h st, futures s1 !! h = Some st ->
                st = pending \/ st = failed (future_error broken_promise)) /\
  dequeues ev = [] /\ executions ev = [].
Proof.
  intros Hw Hfs Hs. apply step_move in Hs as [_ Hm].
  assert (Hdestroy : forall pend h st,
            foldl (fun h f => abandon f h) (futures s) pend !! h = Some st ->
            st = pending \/ st = failed (future_error broken_promise)).
  { intros pend h st. rewrite abandon_all_lookup. case_decide; [|by apply Hfs].
    intros [= <-]. by right. }
  destruct Hm as [c|i w evs w' q' fs' out' Hi Hm| | | | | |i w Hd Hi| |i w Hd Hi Hat];
    simpl; try (by rewrite Hw in Hi); try (by eauto).
  split_and!; [done| |done|done].
  intros h st Hh. apply lookup_app_Some in Hh as [Hh|[_ Hh]]; [by eapply Hfs|].
  destruct (h - length (futures s)) as [|d]; [|by destruct d].
  injection Hh as <-. by left.
Qed.

Lemma submissions_allocated tr s evs s' f :
  run tr s = Some (evs, s') -> submitted f ∈ evs -> state f < length (futures s').
Proof.
  revert s evs. induction tr as [|a tr IH]; intros s evs Hrun Hf.
  - inversion Hrun; subst. by apply not_elem_of_nil in Hf.
  - apply run_cons in Hrun as (ev & s1 & evs' & Hs & Hr & ->).
    apply elem_of_app in Hf as [Hf|Hf]; [|by eapply IH].
    destruct (step_submitted _ _ _ _ _ Hs Hf) as (_ & Hst & Hlen).
    apply run_futures_length in Hr. lia.
Qed.

Lemma run_without_workers tr s evs s' :
  workers_ s = [] ->
  (forall h st, futures s !! h = Some st ->
                st = pending \/ st = failed (future_error broken_promise)) ->
  run tr s = Some (evs, s') ->
  workers_ s' = [] /\
  (forall h st, futures s' !! h = Some st ->
                st = pending \/ st = failed (future_error broken_promise)) /\
  dequeues evs = [] /\ executions evs = [].
Proof.
  revert s evs. induction tr as [|a tr IH]; intros s evs Hw Hfs Hrun.
  - inversion Hrun; by subst.
  - apply run_cons in Hrun as (ev & s1 & evs' & Hs & Hr & ->).
    destruct (step_without_workers _ _ _ _ Hw Hfs Hs) as (Hw1 & Hfs1 & Hdq & Hex).
    destruct (IH _ _ Hw1 Hfs1 Hr) as (Hw' & Hfs' & Hdq' & Hex').
    rewrite dequeues_app, executions_app, Hdq, Hex, Hdq', Hex'. done.
Qed.

(** X10: a pool constructed with no workers is legal and inert: in every
    run no worker step is ever possible, nothing is dequeued or executed,
    and the future of every submitted task stays unresolved until the
    backlog is destroyed, when it gets a broken promise; it never gets a
    value. *)
Theorem pool_without_workers_runs_nothing tr evs s :
  run tr (create 0) = Some (evs, s) ->
  workers_ s = [] /\
  (forall i, step (worker i) s = None) /\
  dequeues evs = [] /\
  executions evs = [] /\
  (forall f, submitted f ∈ evs ->
             futures s !! state f = Some pending \/
             futures s !! state f = Some (failed (future_error broken_promise))).
Proof.
  intros Hrun.
  destruct (run_without_workers tr (create 0) evs s) as (Hw & Hfs & Hdq & Hex);
    [done| |done|].
  { intros h st Hh. simpl in Hh. by rewrite lookup_nil in Hh. }
  split_and!; [done| |done|done|].
  - intros i. unfold step, perform. rewrite Hw. by destruct (dtor s).
  - intros f Hf. pose proof (submissions_allocated _ _ _ _ _ Hrun Hf) as Hlt.
    apply lookup_lt_is_Some_2 in Hlt as [st Hst]. rewrite Hst.
    destruct (Hfs _ _ Hst) as [-> | ->]; auto.
Qed.

(** X11: [stop()] alone does not end a worker that is blocked in [dequeue]
    on a valid, empty queue: after the store to the stop flag the thread
    stays where it is for any number of its steps, with nothing changed, so
    [join] never returns.  Once the queue is invalidated the same worker
    leaves [dequeue] and its loop in two steps, destroying what its variable
    held, and [join] returns. *)
Theorem stop_needs_invalidate w q fs out k :
  task_queue.valid_ q = true ->
  task_queue.queue_ q = [] ->
  task_worker.at_ w = task_worker.in_dequeue ->
  worker_steps k (task_worker.request_stop w) q fs out =
    Some (task_worker.request_stop w, q, fs, out) /\
  task_worker.joinable (task_worker.request_stop w) = true /\
  task_worker.join_returns (task_worker.request_stop w) = false /\
  exists w',
    worker_steps 2 (task_worker.request_stop w) (task_queue.invalidate q) fs out =
      Some (w', task_queue.invalidate q,
            task_queue.release (task_worker.task w) fs, out) /\
    task_worker.join_returns w' = true.
Proof.
  intros Hv Hq Hat. split_and!.
  - induction k as [|k IH]; [done|]. simpl.
    unfold task_worker.step. simpl. rewrite Hat.
    by rewrite (dequeue_valid_nil _ _ _ Hv Hq).
  - unfold task_worker.joinable. simpl. by rewrite Hat.
  - unfold task_worker.join_returns. simpl. by rewrite Hat.
  - eexists. split.
    + simpl. unfold task_worker.step at 1. simpl. rewrite Hat.
      rewrite (dequeue_invalid _ (task_queue.invalidate q) _ eq_refl).
      unfold task_worker.step. simpl. reflexivity.
    + reflexivity.
Qed.

End edge_cases.

(** * The workers of a live pool *)
Section draining.
Import future logger task_pool.

Lemma reachable_lifecycle s i w :
  reachable s -> workers_ s !! i = Some w -> lifecycle w.
Proof.
  intros (n & tr & evs & Hrun). revert i w.
  eapply (run_invariant
            (fun s => forall i w, workers_ s !! i = Some w -> lifecycle w));
    [| |exact Hrun].
  - intros a s0 ev s1 Hl Hs. by destruct (lifecycle_step _ _ _ _ Hl Hs).
  - intros i w Hi. apply create_workers in Hi. subst w. split; [done|].
    intros [?|?]; discriminate.
Qed.

(** While the destructor has not been called, a worker is in its loop with
    its stop flag clear. *)
Lemma live_worker s i w :
  reachable s -> dtor s = not_running -> workers_ s !! i = Some w ->
  task_worker.stop_ w = false /\
  (task_worker.at_ w = task_worker.at_loop \/
   task_worker.at_ w = task_worker.in_dequeue \/
   task_worker.at_ w = task_worker.in_task).
Proof.
  intros Hreach Hd Hi.
  destruct (reachable_teardown _ Hreach) as [[_ Hstop] _].
  destruct (reachable_lifecycle _ _ _ Hreach Hi) as [Hun Hend].
  apply reachable_invariants in Hreach as [_ (_ & Hset & _)].
  pose proof (Hset i w Hi) as Hw. unfold settled in Hw.
  assert (Hs : task_worker.stop_ w = false).
  { destruct (task_worker.stop_ w) eqn:Hs; [|done]. by destruct (Hstop i w Hi Hs). }
  split; [exact Hs|].
  destruct (task_worker.at_ w); auto; try done;
    rewrite Hend in Hs by auto; discriminate.
Qed.

End draining.

(** * The scheduler: sleeping threads and calls that take time *)
Section scheduling.
Import future logger task_pool.

Lemma with_sleepers_Some sl r ev st' :
  scheduler.with_sleepers sl r = Some (ev, st') ->
  r = Some (ev, scheduler.pool st') /\ scheduler.asleep st' = sl.
Proof. destruct r as [[ev0 s0]|]; [|discriminate]. by intros [= <- <-]. Qed.

Lemma elem_of_remove i j sl : j ∈ scheduler.remove i sl <-> j ∈ sl /\ j <> i.
Proof. unfold scheduler.remove. rewrite list_elem_of_filter. tauto. Qed.

Lemma notify_one_Some woken sl sl' :
  scheduler.notify_one woken sl = Some sl' ->
  (woken = None /\ sl = [] /\ sl' = []) \/
  (exists i, woken = Some i /\ i ∈ sl /\ sl' = scheduler.remove i sl).
Proof.
  unfold scheduler.notify_one. destruct woken as [i|].
  - case_bool_decide; [|discriminate]. intros [= <-]. right. by exists i.
  - destruct sl; [|discriminate]. intros [= <-]. by left.
Qed.

Lemma goes_to_sleep_true w q :
  scheduler.goes_to_sleep w q = true <->
  task_worker.at_ w = task_worker.in_dequeue /\
  task_queue.queue_ q = [] /\ task_queue.valid_ q = true.
Proof.
  unfold scheduler.goes_to_sleep, task_queue.wait_pred.
  destruct (task_worker.at_ w), (task_queue.queue_ q), (task_queue.valid_ q);
    simpl; intuition congruence.
Qed.

(** A worker that goes to sleep has changed nothing. *)
Lemma worker_move_asleep w q fs out evs w' q' fs' out' :
  worker_move w q fs out evs w' q' fs' out' ->
  scheduler.goes_to_sleep w q = true ->
  w' = w /\ q' = q.
Proof.
  intros Hm Hsl. apply goes_to_sleep_true in Hsl as (Hat & Hq & Hv).
  destruct Hm; try done; congruence.
Qed.

Lemma first_worker_awake (ws : list task_worker.t) :
  ws <> [] -> exists j, j < length ws /\ j ∉ @nil nat.
Proof.
  intros Hw. exists 0. split; [|apply not_elem_of_nil].
  destruct ws; [done|simpl; lia].
Qed.

Variable completes : task_queue.function_t -> heap -> bool.

(** What a move of the scheduler is in terms of the pool. *)
Lemma sched_step_worker i st ev st' :
  scheduler.step completes (scheduler.worker i) st = Some (ev, st') ->
  exists w,
    workers_ (scheduler.pool st) !! i = Some w /\
    (i ∉ scheduler.asleep st) /\
    scheduler.call_returns completes w (futures (scheduler.pool st)) = true /\
    step (worker i) (scheduler.pool st) = Some (ev, scheduler.pool st') /\
    scheduler.asleep st' =
      (if scheduler.goes_to_sleep w (queue_ (scheduler.pool st))
       then i :: scheduler.asleep st else scheduler.asleep st).
Proof.
  simpl. destruct (workers_ (scheduler.pool st) !! i) as [w|]; [|discriminate].
  case_bool_decide as Hin; [discriminate|]. simpl.
  destruct (scheduler.call_returns completes w _) eqn:Hret; [|discriminate]. simpl.
  intros H. apply with_sleepers_Some in H as [Hs Hsl]. by exists w.
Qed.

Lemma sched_step_teardown st ev st' :
  scheduler.step completes scheduler.teardown st = Some (ev, st') ->
  step teardown (scheduler.pool st) = Some (ev, scheduler.pool st') /\
  scheduler.asleep st' =
    (if scheduler.teardown_notifies (scheduler.pool st) then []
     else scheduler.asleep st).
Proof. simpl. intros H. by apply with_sleepers_Some in H. Qed.

Lemma sched_step_pool m st ev st' :
  scheduler.step completes m st = Some (ev, st') ->
  match scheduler.action_of m with
  | Some a => step a (scheduler.pool st) = Some (ev, scheduler.pool st')
  | None => ev = [] /\ scheduler.pool st' = scheduler.pool st
  end.
Proof.
  destruct m as [c woken|i|i| | | | |]; intros H.
  - simpl in *. destruct (scheduler.notify_one woken _); [|discriminate].
    by apply with_sleepers_Some in H as [? _].
  - by apply sched_step_worker in H as (w & _ & _ & _ & ? & _).
  - simpl in *. case_bool_decide; [|discriminate]. by injection H as <- <-.
  - simpl in *. by apply with_sleepers_Some in H as [? _].
  - simpl in *. by apply with_sleepers_Some in H as [? _].
  - simpl in *. by apply with_sleepers_Some in H as [? _].
  - simpl in *. by apply with_sleepers_Some in H as [? _].
  - by apply sched_step_teardown in H as [? _].
Qed.

Lemma sched_run_cons m ms st evs st' :
  scheduler.run completes (m :: ms) st = Some (evs, st') ->
  exists ev st1 evs',
    scheduler.step completes m st = Some (ev, st1) /\
    scheduler.run completes ms st1 = Some (evs', st') /\ evs = ev ++ evs'.
Proof.
  simpl. destruct (scheduler.step completes m st) as [[ev st1]|]; [|discriminate].
  destruct (scheduler.run completes ms st1) as [[evs' st2]|] eqn:Hr; [|discriminate].
  intros [= <- <-]. by exists ev, st1, evs'.
Qed.

Lemma sched_run_app ms1 ms2 st evs1 st1 evs2 st2 :
  scheduler.run completes ms1 st = Some (evs1, st1) ->
  scheduler.run completes ms2 st1 = Some (evs2, st2) ->
  scheduler.run completes (ms1 ++ ms2) st = Some (evs1 ++ evs2, st2).
Proof.
  revert st evs1. induction ms1 as [|m ms1 IH]; intros st evs1 H1 H2.
  - inversion H1; subst. exact H2.
  - apply sched_run_cons in H1 as (ev & st' & evs' & Hs & Hr & ->).
    simpl. rewrite Hs, (IH _ _ Hr H2). by rewrite app_assoc.
Qed.

Lemma sched_run_step m ms st ev st1 evs st' :
  scheduler.step completes m st = Some (ev, st1) ->
  scheduler.run completes ms st1 = Some (evs, st') ->
  scheduler.run completes (m :: ms) st = Some (ev ++ evs, st').
Proof. intros Hs Hr. simpl. by rewrite Hs, Hr. Qed.

Lemma sched_run_one m st ev st1 :
  scheduler.step completes m st = Some (ev, st1) ->
  scheduler.run completes [m] st = Some (ev ++ [], st1).
Proof. intros Hs. simpl. by rewrite Hs. Qed.

Lemma sched_reachable_run ms st evs st' :
  scheduler.reachable completes st ->
  scheduler.run completes ms st = Some (evs, st') ->
  scheduler.reachable completes st'.
Proof.
  intros (n & ms0 & evs0 & H0) H. exists n, (ms0 ++ ms), (evs0 ++ evs).
  by eapply sched_run_app.
Qed.

Lemma sched_run_invariant (P : scheduler.t -> Prop) :
  (forall m st ev st1, P st -> scheduler.step completes m st = Some (ev, st1) -> P st1) ->
  forall ms st evs st', P st -> scheduler.run completes ms st = Some (evs, st') -> P st'.
Proof.
  intros Hstep. induction ms as [|m ms IH]; intros st evs st' HP Hrun.
  - inversion Hrun; by subst.
  - apply sched_run_cons in Hrun as (ev & st1 & evs' & Hs & Hr & ->). eauto.
Qed.

(** Every run of the scheduler is a run of the pool, with the same events
    and the same final state. *)
Lemma sched_run_pool ms : forall st evs st',
  scheduler.run completes ms st = Some (evs, st') ->
  exists tr, run tr (scheduler.pool st) = Some (evs, scheduler.pool st').
Proof.
  induction ms as [|m ms IH]; intros st evs st' Hrun.
  - inversion Hrun; subst. by exists [].
  - apply sched_run_cons in Hrun as (ev & st1 & evs' & Hs & Hr & ->).
    destruct (IH _ _ _ Hr) as (tr & Htr). apply sched_step_pool in Hs.
    destruct (scheduler.action_of m) as [a|].
    + exists (a :: tr). simpl. by rewrite Hs, Htr.
    + destruct Hs as [-> <-]. by exists tr.
Qed.

Lemma sched_reachable_pool st :
  scheduler.reachable completes st -> reachable (scheduler.pool st).
Proof.
  intros (n & ms & evs & Hrun). apply sched_run_pool in Hrun as (tr & Htr).
  by exists n, tr, evs.
Qed.

Lemma sched_invariants_create n :
  released (scheduler.create n) /\ sleepers_wait (scheduler.create n) /\
  someone_awake (scheduler.create n).
Proof.
  split_and!.
  - done.
  - intros i Hi. simpl in Hi. by apply not_elem_of_nil in Hi.
  - intros Hq. by simpl in Hq.
Qed.

(** Nobody sleeps on an invalid queue, only workers inside [dequeue] sleep,
    and not all workers sleep while units are pending. *)
Lemma sched_invariants_step m st ev st1 :
  released st /\ sleepers_wait st /\ someone_awake st ->
  scheduler.step completes m st = Some (ev, st1) ->
  released st1 /\ sleepers_wait st1 /\ someone_awake st1.
Proof.
  intros (Hrel & Hsl & Haw) Hs. destruct st as [s sl], st1 as [s1 sl1].
  unfold released, sleepers_wait, someone_awake in *. simpl in *.
  destruct m as [c woken|i|i| | | | |].
  - (* submit *)
    simpl in Hs. destruct (scheduler.notify_one woken sl) as [sl'|] eqn:Hn; [|discriminate].
    apply with_sleepers_Some in Hs as [Hb Heq]. simpl in *. subst sl'.
    apply step_move in Hb as [_ Hm]. inversion Hm; subst; simpl.
    apply notify_one_Some in Hn as [(-> & -> & ->)|(i & -> & Hi & ->)].
    + split_and!; [done| |intros _; apply first_worker_awake].
      intros i Hi. by apply not_elem_of_nil in Hi.
    + split_and!.
      * intros Hv. rewrite (Hrel Hv) in Hi. by apply not_elem_of_nil in Hi.
      * intros j Hj. apply elem_of_remove in Hj as [Hj _]. by apply Hsl.
      * intros _ _. exists i. split.
        -- destruct (Hsl i Hi) as (w & Hw & _). by eapply lookup_lt_Some.
        -- intros H. by apply elem_of_remove in H as [_ H].
  - (* worker *)
    apply sched_step_worker in Hs as (w & Hi & Hin & _ & Hb & Heq). simpl in *.
    apply step_move in Hb as [_ Hm].
    inversion Hm as [|i' w0 evs w' q' fs' out' Hi0 Hw| | | | | | | |]; subst.
    assert (w0 = w) as -> by congruence. simpl.
    destruct (scheduler.goes_to_sleep w (queue_ s)) eqn:Hsleep.
    + destruct (worker_move_asleep _ _ _ _ _ _ _ _ _ Hw Hsleep) as [-> ->].
      apply goes_to_sleep_true in Hsleep as (Hat & Hq & Hv).
      rewrite list_insert_id by done. split_and!.
      * congruence.
      * intros j Hj. apply elem_of_cons in Hj as [->|Hj]; [by exists w|by apply Hsl].
      * intros Hne. by rewrite Hq in Hne.
    + split_and!.
      * intros Hv. apply Hrel. by apply worker_move_valid in Hw as [<- _].
      * intros j Hj. rewrite list_lookup_insert_ne; [by apply Hsl|].
        intros ->. by apply Hin.
      * rewrite length_insert. intros Hq Hws. apply Haw.
        -- apply worker_move_task in Hw as [[<- _]|(f & _ & -> & _)]; done.
        -- intros E. rewrite E in Hi. by rewrite lookup_nil in Hi.
  - (* spurious wake-up *)
    simpl in Hs. case_bool_decide as Hi; [|discriminate]. injection Hs as <- <- <-.
    split_and!.
    + intros Hv. rewrite (Hrel Hv) in Hi. by apply not_elem_of_nil in Hi.
    + intros j Hj. apply elem_of_remove in Hj as [Hj _]. by apply Hsl.
    + intros Hq Hws. destruct (Haw Hq Hws) as (j & Hj & Hn). exists j. split; [done|].
      intros H. by apply elem_of_remove in H as [H _].
  - (* clear *)
    simpl in Hs. apply with_sleepers_Some in Hs as [_ Heq]. simpl in Heq. subst sl1.
    split_and!; [done| |intros _; apply first_worker_awake].
    intros i Hi. by apply not_elem_of_nil in Hi.
  - (* invalidate *)
    simpl in Hs. apply with_sleepers_Some in Hs as [_ Heq]. simpl in Heq. subst sl1.
    split_and!; [done| |intros _; apply first_worker_awake].
    intros i Hi. by apply not_elem_of_nil in Hi.
  - (* empty *)
    simpl in Hs. apply with_sleepers_Some in Hs as [Hb <-]. simpl in Hb.
    apply step_move in Hb as [_ Hm]. by inversion Hm; subst.
  - (* is_valid *)
    simpl in Hs. apply with_sleepers_Some in Hs as [Hb <-]. simpl in Hb.
    apply step_move in Hb as [_ Hm]. by inversion Hm; subst.
  - (* teardown *)
    apply sched_step_teardown in Hs as [Hb Heq]. simpl in *.
    unfold scheduler.teardown_notifies in Heq.
    apply step_move in Hb as [_ Hm].
    inversion Hm as [| | | | | |Hd|i w Hd Hi|i Hd Hi|i w Hd Hi Hat]; subst; simpl;
      rewrite Hd in *; rewrite ?Hi in *.
    + split_and!; [done| |intros _; apply first_worker_awake].
      intros i Hi. by apply not_elem_of_nil in Hi.
    + split_and!; [done| |].
      2:{ intros Hq Hws. rewrite length_insert. apply Haw; [done|].
          intros E. rewrite E in Hi. by rewrite lookup_nil in Hi. }
      intros j Hj. destruct (Hsl j Hj) as (wj & Hwj & Hatj).
      destruct (decide (j = i)) as [->|Hne].
      * exists (task_worker.request_stop w).
        rewrite list_lookup_insert_eq by (by eapply lookup_lt_Some).
        split; [done|]. simpl. congruence.
      * exists wj. by rewrite list_lookup_insert_ne.
    + split_and!; [done| |intros _; apply first_worker_awake].
      intros j Hj. by apply not_elem_of_nil in Hj.
    + split_and!; [done| |].
      2:{ intros Hq Hws. rewrite length_insert. apply Haw; [done|].
          intros E. rewrite E in Hi. by rewrite lookup_nil in Hi. }
      intros j Hj. destruct (Hsl j Hj) as (wj & Hwj & Hatj).
      destruct (decide (j = i)) as [->|Hne].
      * assert (wj = w) as -> by congruence.
        destruct Hat as [Hat|[Hat|Hat]]; congruence.
      * exists wj. by rewrite list_lookup_insert_ne.
Qed.

Lemma sched_reachable_invariants st :
  scheduler.reachable completes st ->
  released st /\ sleepers_wait st /\ someone_awake st.
Proof.
  intros (n & ms & evs & Hrun).
  eapply (sched_run_invariant
            (fun st => released st /\ sleepers_wait st /\ someone_awake st));
    [| |exact Hrun].
  - intros m st0 ev st1. apply sched_invariants_step.
  - apply sched_invariants_create.
Qed.

End scheduling.

(** * The order of the destructor's steps *)
Section teardown_order.
Import future logger task_pool.

Lemma worker_move_no_stop_join w q fs out evs w' q' fs' out' :
  worker_move w q fs out evs w' q' fs' out' -> stop_join_events evs = [].
Proof. by destruct 1. Qed.

Lemma create_length n : length (workers_ (create n)) = n.
Proof. simpl. rewrite spawn_eq. simpl. apply length_replicate. Qed.

(** Each step of the pool adds to the stops and joins done so far exactly
    what takes the destructor to its next position. *)
Lemma stop_join_log_step n a s ev s1 :
  length (workers_ s) = n -> dtor_bounded s ->
  step a s = Some (ev, s1) ->
  stop_join_log n (dtor s) ++ stop_join_events ev = stop_join_log n (dtor s1) /\
  length (workers_ s1) = n /\ dtor_bounded s1.
Proof.
  intros Hn Hb Hs. apply step_move in Hs as [_ Hm]. unfold dtor_bounded in *.
  destruct Hm as [c|i w evs w' q' fs' out' Hi Hm| | | | |Hd|i w Hd Hi|i Hd Hi|i w Hd Hi Hat];
    simpl; rewrite ?length_insert, ?app_nil_r; try done.
  - by rewrite (worker_move_no_stop_join _ _ _ _ _ _ _ _ _ Hm), app_nil_r.
  - rewrite Hd. simpl. split_and!; [done|done|lia].
  - rewrite Hd in *. simpl. rewrite app_nil_r.
    split_and!; [done|done|by eapply lookup_lt_Some].
  - rewrite Hd in *. simpl. rewrite app_nil_r.
    apply lookup_ge_None_1 in Hi. by assert (i = n) as -> by lia.
  - rewrite Hd in *. simpl. rewrite <- app_assoc.
    split_and!; [done|done|lia].
Qed.

Lemma stop_join_log_run n tr : forall s evs s',
  length (workers_ s) = n -> dtor_bounded s ->
  run tr s = Some (evs, s') ->
  stop_join_log n (dtor s) ++ stop_join_events evs = stop_join_log n (dtor s').
Proof.
  induction tr as [|a tr IH]; intros s evs s' Hn Hb Hrun.
  - inversion Hrun; subst. simpl. by rewrite app_nil_r.
  - apply run_cons in Hrun as (ev & s1 & evs' & Hs & Hr & ->).
    destruct (stop_join_log_step n _ _ _ _ Hn Hb Hs) as (Hlog & Hn1 & Hb1).
    unfold stop_join_events in *. rewrite omap_app, app_assoc, Hlog.
    by apply IH.
Qed.

Lemma undeleted_create n : undeleted (create n).
Proof. intros j w Hj Hat. apply create_workers in Hj. by subst w. Qed.

Lemma undeleted_step a s ev s1 :
  undeleted s -> step a s = Some (ev, s1) -> undeleted s1.
Proof.
  intros Hu Hs. apply step_move in Hs as [_ Hm]. unfold undeleted in *.
  destruct Hm as [c|i w evs w' q' fs' out' Hi Hm| | | | |Hd|i w Hd Hi|i Hd Hi|i w Hd Hi Hat];
    simpl; try exact Hu.
  - intros j wj Hj Hatj.
    apply list_lookup_insert_Some in Hj as [(-> & <- & _)|[Hne Hj]];
      [|by apply (Hu j wj)].
    exfalso. destruct Hm as [| | | | |f l o Hw Hf Hl|]; simpl in Hatj;
      try discriminate; try congruence.
    subst l. destruct ((invoke f (futures s)).2) as [e|]; [destruct (what e)|];
      discriminate.
  - intros j wj Hj Hatj. pose proof (Hu _ _ Hj Hatj) as H. by rewrite Hd in H.
  - intros j wj Hj Hatj.
    apply list_lookup_insert_Some in Hj as [(-> & <- & _)|[Hne Hj]].
    + pose proof (Hu _ _ Hi Hatj) as H. rewrite Hd in H. lia.
    + pose proof (Hu _ _ Hj Hatj) as H. by rewrite Hd in H.
  - done.
  - intros j wj Hj Hatj.
    apply list_lookup_insert_Some in Hj as [(-> & <- & _)|[Hne Hj]]; [lia|].
    pose proof (Hu _ _ Hj Hatj) as H. rewrite Hd in H. lia.
Qed.

Lemma reachable_undeleted s : reachable s -> undeleted s.
Proof.
  intros (n & tr & evs & Hrun).
  eapply (run_invariant undeleted); [|apply undeleted_create|exact Hrun].
  intros a s0 ev s1. apply undeleted_step.
Qed.

(** The worker the destructor is joining has its stop flag set, and has
    been started and not yet deleted. *)
Lemma joined_worker s i w :
  reachable s -> dtor s = deleting i true -> workers_ s !! i = Some w ->
  task_worker.stop_ w = true /\
  task_worker.at_ w <> task_worker.unstarted /\
  task_worker.at_ w <> task_worker.deleted.
Proof.
  intros Hreach Hd Hi.
  destruct (reachable_teardown _ Hreach) as [_ Hp].
  unfold teardown_progress in Hp. rewrite Hd in Hp.
  destruct Hp as [_ Hcur]. destruct (Hcur eq_refl) as (w0 & Hi0 & Hstop).
  assert (w0 = w) as -> by congruence.
  destruct (reachable_lifecycle _ _ _ Hreach Hi) as [Hun _].
  split_and!; [done|done|].
  intros Hat. pose proof (reachable_undeleted _ Hreach _ _ Hi Hat) as H.
  rewrite Hd in H. lia.
Qed.

(** C8: the destructor of a pool of [n] workers, in every run, with the
    workers asleep in [dequeue] or inside calls that may never return.
    Every stop comes after an [invalidate] and every join after the stop of
    the same worker; the stops and joins done are exactly [stop 0; join 0;
    stop 1; join 1; ...] up to where the destructor is, and all of them,
    for each of the [n] workers, once it has finished.  From its first step
    on the queue is invalid and no worker is left asleep in [dequeue]: the
    [notify_all] of [invalidate] has released them, and a worker inside
    [dequeue] returns false from it.  The queue is invalid whenever a
    worker has its stop flag set.  A join is completed only for a worker
    whose thread has left its loop, and the destructor cannot move while
    the worker it joins is still running.  At the end every worker is
    deleted with its stop flag set. *)
Theorem teardown_invalidates_first completes n ms evs st :
  scheduler.run completes ms (scheduler.create n) = Some (evs, st) ->
  (forall k i, evs !! k = Some (stopped i) ->
               exists j, j < k /\ evs !! j = Some invalidated) /\
  (forall k i, evs !! k = Some (joined i) ->
               exists j, j < k /\ evs !! j = Some (stopped i)) /\
  stop_join_events evs = stop_join_log n (dtor (scheduler.pool st)) /\
  (dtor (scheduler.pool st) <> not_running ->
   task_queue.valid_ (queue_ (scheduler.pool st)) = false /\
   scheduler.asleep st = []) /\
  (forall i w, workers_ (scheduler.pool st) !! i = Some w ->
               task_worker.stop_ w = true ->
               task_queue.valid_ (queue_ (scheduler.pool st)) = false) /\
  (forall w, dtor (scheduler.pool st) <> not_running ->
             task_worker.at_ w = task_worker.in_dequeue ->
             task_worker.step w (queue_ (scheduler.pool st))
               (futures (scheduler.pool st)) (output (scheduler.pool st)) =
             Some ([], task_worker.goto task_worker.at_loop w,
                   queue_ (scheduler.pool st), futures (scheduler.pool st),
                   output (scheduler.pool st))) /\
  (forall i ev st1,
     scheduler.step completes scheduler.teardown st = Some (ev, st1) ->
     joined i ∈ ev ->
     exists w, workers_ (scheduler.pool st) !! i = Some w /\
               task_worker.at_ w = task_worker.exited /\
               task_worker.stop_ w = true) /\
  (forall i w,
     dtor (scheduler.pool st) = deleting i true ->
     workers_ (scheduler.pool st) !! i = Some w ->
     task_worker.at_ w <> task_worker.exited ->
     scheduler.step completes scheduler.teardown st = None) /\
  (dtor (scheduler.pool st) = destroyed ->
   length (workers_ (scheduler.pool st)) = n /\
   forall i w, workers_ (scheduler.pool st) !! i = Some w ->
               task_worker.at_ w = task_worker.deleted /\
               task_worker.stop_ w = true).
Proof.
  intros Hsched.
  assert (Hsr : scheduler.reachable completes st) by (by exists n, ms, evs).
  destruct (sched_reachable_invariants _ _ Hsr) as (Hrel & _ & _).
  pose proof (sched_reachable_pool _ _ Hsr) as Hreach.
  apply sched_run_pool in Hsched as (tr & Hrun). simpl in Hrun.
  destruct (reachable_teardown _ Hreach) as [[Hq Hw] Hp].
  assert (Hlen : length (workers_ (scheduler.pool st)) = n).
  { rewrite <- (create_length n).
    eapply (run_invariant (fun s => length (workers_ s) = length (workers_ (create n))));
      [|reflexivity|exact Hrun].
    intros a s0 ev s1 Hl Hs. apply step_move in Hs as [_ Hm].
    destruct Hm; simpl; by rewrite ?length_insert. }
  split_and!.
  - by apply (stop_follows_invalidate _ _ _ _ Hrun).
  - intros k i Hk. by destruct (join_follows_stop _ _ _ _ Hrun _ _ Hk).
  - exact (stop_join_log_run n tr (create n) evs (scheduler.pool st) (create_length n) I
             Hrun).
  - intros Hd. split; [by apply Hq|]. apply Hrel. by apply Hq.
  - intros i w Hi Hstop. eauto.
  - intros w Hd Hat. unfold task_worker.step. rewrite Hat.
    by rewrite (dequeue_invalid _ _ _ (Hq Hd)).
  - intros i ev st1 Hs Hin. apply sched_step_teardown in Hs as [Hs _].
    apply step_move in Hs as [_ Hm].
    pose proof (pool_move_events _ _ _ _ Hm) as (_ & Hjoin & _ & _).
    pose proof (Hjoin _ Hin) as Hd.
    inversion Hm as [| | | | | |Hd'|i' w Hd' Hi|i' Hd' Hi|i' w Hd' Hi Hat]; subst;
      try congruence.
    assert (i' = i) as -> by congruence.
    destruct (joined_worker _ _ _ Hreach Hd Hi) as (Hstop & Hun & Hdel).
    exists w. by destruct Hat as [Hat|[Hat|Hat]].
  - intros i w Hd Hi Hat. simpl.
    destruct (joined_worker _ _ _ Hreach Hd Hi) as (_ & Hun & Hdel).
    unfold step, perform, teardown_step. rewrite Hd, Hi.
    unfold task_worker.joinable, task_worker.join_returns.
    by destruct (task_worker.at_ w).
  - intros Hd. split; [exact Hlen|]. intros i w Hi.
    unfold teardown_progress in Hp. rewrite Hd in Hp. destruct Hp as [Hdel _].
    split; [by eapply Hdel|].
    destruct (reachable_lifecycle _ _ _ Hreach Hi) as [_ Hend].
    apply Hend. right. by eapply Hdel.
Qed.

End teardown_order.

(** * When the destructor finishes *)
Section completion.
Import future logger task_pool.

Lemma lifted_worker_or_teardown tr :
  forallb worker_or_teardown tr = true ->
  forallb scheduler.worker_or_teardown (scheduler.move_of <$> tr) = true.
Proof.
  induction tr as [|a tr IH]; [done|]. simpl. intros H.
  apply andb_true_iff in H as [Ha Htr]. apply andb_true_iff.
  split; [by destruct a|by apply IH].
Qed.

Variable completes : task_queue.function_t -> heap -> bool.

Lemma never_blocks_step a s ev s1 :
  task_queue.valid_ (queue_ s) = false ->
  never_blocks completes s -> step a s = Some (ev, s1) ->
  never_blocks completes s1.
Proof.
  intros Hv Hnb Hs i w f Hi Hat Ht.
  destruct (step_invalid_held _ _ _ _ _ _ _ Hv Hs Hi Hat Ht) as (w0 & Hi0 & Hat0 & Ht0).
  by eapply Hnb.
Qed.

(** With the queue invalid, nobody asleep and no call that may block, a
    step of a worker or of the destructor is a move of the scheduler. *)
Lemma lift_step_invalid a st ev s1 :
  scheduler.asleep st = [] ->
  task_queue.valid_ (queue_ (scheduler.pool st)) = false ->
  worker_or_teardown a = true ->
  never_blocks completes (scheduler.pool st) ->
  step a (scheduler.pool st) = Some (ev, s1) ->
  scheduler.step completes (scheduler.move_of a) st =
  Some (ev, {| scheduler.pool := s1; scheduler.asleep := [] |}).
Proof.
  intros Hsl Hv Ha Hnb Hs. destruct a as [c|i| | | | |]; try discriminate; simpl.
  - destruct (workers_ (scheduler.pool st) !! i) as [w|] eqn:Hi.
    2:{ unfold step, perform in Hs. rewrite Hi in Hs. by destruct (dtor _). }
    assert (Hret : scheduler.call_returns completes w (futures (scheduler.pool st)) = true).
    { unfold scheduler.call_returns, scheduler.in_call.
      destruct (task_worker.at_ w) eqn:Hat; try done.
      destruct (task_worker.task w) as [f|] eqn:Ht; [|done]. by eapply Hnb. }
    assert (Hns : scheduler.goes_to_sleep w (queue_ (scheduler.pool st)) = false).
    { destruct (scheduler.goes_to_sleep _ _) eqn:E; [|done].
      apply goes_to_sleep_true in E as (_ & _ & E). congruence. }
    rewrite Hsl, Hret, Hns, Hs.
    case_bool_decide as Hin; [by apply not_elem_of_nil in Hin|]. done.
  - rewrite Hs, Hsl. simpl. by destruct (scheduler.teardown_notifies _).
Qed.

Lemma lift_run_invalid tr : forall st evs s',
  scheduler.asleep st = [] ->
  task_queue.valid_ (queue_ (scheduler.pool st)) = false ->
  forallb worker_or_teardown tr = true ->
  never_blocks completes (scheduler.pool st) ->
  run tr (scheduler.pool st) = Some (evs, s') ->
  scheduler.run completes (scheduler.move_of <$> tr) st =
  Some (evs, {| scheduler.pool := s'; scheduler.asleep := [] |}).
Proof.
  induction tr as [|a tr IH]; intros st evs s' Hsl Hv Htr Hnb Hrun.
  - inversion Hrun; subst. destruct st as [s sl]. simpl in *. by subst sl.
  - apply run_cons in Hrun as (ev & s1 & evs' & Hs & Hr & ->).
    simpl in Htr. apply andb_true_iff in Htr as [Ha Htr].
    rewrite fmap_cons.
    apply (sched_run_step _ _ _ _ _ _ _ _ (lift_step_invalid _ _ _ _ Hsl Hv Ha Hnb Hs)).
    apply IH; simpl; try done.
    + by eapply step_stays_invalid.
    + by eapply never_blocks_step.
Qed.

(** A worker inside a call that never returns stays there, whatever the
    others do. *)
Lemma hung_worker_step i f m st ev st1 :
  (forall fs, completes f fs = false) ->
  (exists w, workers_ (scheduler.pool st) !! i = Some w /\
             task_worker.at_ w = task_worker.in_task /\
             task_worker.task w = Some f) ->
  scheduler.step completes m st = Some (ev, st1) ->
  exists w, workers_ (scheduler.pool st1) !! i = Some w /\
            task_worker.at_ w = task_worker.in_task /\
            task_worker.task w = Some f.
Proof.
  intros Hhang (w & Hi & Hat & Ht) Hs.
  assert (Hother : forall a,
            (forall j, a <> worker j) ->
            step a (scheduler.pool st) = Some (ev, scheduler.pool st1) ->
            exists w, workers_ (scheduler.pool st1) !! i = Some w /\
                      task_worker.at_ w = task_worker.in_task /\
                      task_worker.task w = Some f).
  { intros a Ha Hb. apply step_move in Hb as [_ Hm].
    destruct Hm as [c|j wj evs w' q' fs' out' Hj Hm| | | | |Hd|j wj Hd Hj|j Hd Hj|j wj Hd Hj Hatj];
      simpl; try (by exists w).
    - by destruct (Ha j).
    - destruct (decide (j = i)) as [->|Hne].
      + assert (wj = w) as -> by congruence. exists (task_worker.request_stop w).
        by rewrite list_lookup_insert_eq by (by eapply lookup_lt_Some).
      + exists w. by rewrite list_lookup_insert_ne.
    - destruct (decide (j = i)) as [->|Hne].
      + assert (wj = w) as -> by congruence.
        destruct Hatj as [Hatj|[Hatj|Hatj]]; congruence.
      + exists w. by rewrite list_lookup_insert_ne. }
  destruct m as [c woken|j|j| | | | |];
    try (apply sched_step_pool in Hs; simpl in Hs; eapply Hother; [|exact Hs];
         by intros ?).
  - apply sched_step_worker in Hs as (wj & Hj & _ & Hret & Hb & _).
    destruct (decide (j = i)) as [->|Hne].
    + assert (wj = w) as -> by congruence.
      unfold scheduler.call_returns, scheduler.in_call in Hret.
      rewrite Hat, Ht, Hhang in Hret. discriminate.
    + apply step_move in Hb as [_ Hm].
      inversion Hm as [|j' w0 evs w' q' fs' out' Hj0 Hw| | | | | | | |]; subst. simpl.
      exists w. by rewrite list_lookup_insert_ne.
  - apply sched_step_pool in Hs as [_ Hp]. simpl in Hp. rewrite Hp. by exists w.
Qed.

(** X8: when the destructor of a pool finishes.  From every state a pool
    can reach before its destructor has finished, with some workers asleep
    in [dequeue] and others in the middle of a task: if every call in
    progress returns, there is a schedule of worker and destructor steps
    alone, without any spurious wake-up, that brings the destructor to its
    end; if some worker is inside a call that never returns, the destructor
    never finishes, whatever happens. *)
Theorem teardown_completes_unless_a_task_hangs st :
  scheduler.reachable completes st ->
  dtor (scheduler.pool st) <> destroyed ->
  (never_blocks completes (scheduler.pool st) ->
   exists ms evs st',
     forallb scheduler.worker_or_teardown ms = true /\
     scheduler.run completes ms st = Some (evs, st') /\
     dtor (scheduler.pool st') = destroyed) /\
  (forall i w f,
     workers_ (scheduler.pool st) !! i = Some w ->
     task_worker.at_ w = task_worker.in_task ->
     task_worker.task w = Some f ->
     (forall fs, completes f fs = false) ->
     forall ms evs st',
       scheduler.run completes ms st = Some (evs, st') ->
       dtor (scheduler.pool st') <> destroyed).
Proof.
  intros Hsr Hlive. split.
  - intros Hnb.
    destruct (sched_reachable_invariants _ _ Hsr) as (Hrel & _ & _).
    pose proof (sched_reachable_pool _ _ Hsr) as Hreach.
    destruct (reachable_teardown _ Hreach) as [[Hq _] _].
    assert (Hcase : dtor (scheduler.pool st) = not_running \/
                    dtor (scheduler.pool st) <> not_running)
      by (destruct (dtor (scheduler.pool st)); [by left|by right|by right]).
    destruct Hcase as [Hd|Hd].
    + set (s1 := {| queue_ := task_queue.invalidate (queue_ (scheduler.pool st));
                    workers_ := workers_ (scheduler.pool st);
                    futures := futures (scheduler.pool st);
                    output := output (scheduler.pool st);
                    dtor := deleting 0 false |}).
      set (st1 := {| scheduler.pool := s1; scheduler.asleep := [] |}).
      assert (Hb1 : step teardown (scheduler.pool st) = Some ([invalidated], s1)).
      { unfold step, perform, teardown_step. by rewrite Hd. }
      assert (Hs1 : scheduler.step completes scheduler.teardown st = Some ([invalidated], st1)).
      { simpl. rewrite Hb1. unfold scheduler.teardown_notifies. by rewrite Hd. }
      assert (Hreach1 : reachable s1).
      { apply (reachable_run [teardown] _ ([invalidated] ++ []) s1 Hreach).
        by apply run_one. }
      destruct (destructor_can_finish s1 Hreach1) as (tr & evs & s' & Htr & Hrun & Hd');
        [done|].
      exists (scheduler.teardown :: (scheduler.move_of <$> tr)), ([invalidated] ++ evs),
        {| scheduler.pool := s'; scheduler.asleep := [] |}.
      split_and!; [by apply lifted_worker_or_teardown| |done].
      simpl. rewrite Hb1. unfold scheduler.teardown_notifies. rewrite Hd. simpl.
      change {| scheduler.pool := s1;
                scheduler.asleep := scheduler.notify_all (scheduler.asleep st) |}
        with st1.
      by rewrite (lift_run_invalid tr st1 evs s').
    + destruct (destructor_can_finish _ Hreach Hlive) as (tr & evs & s' & Htr & Hrun & Hd').
      exists (scheduler.move_of <$> tr), evs,
        {| scheduler.pool := s'; scheduler.asleep := [] |}.
      split_and!; [by apply lifted_worker_or_teardown| |done].
      apply lift_run_invalid; auto.
  - intros i w f Hi Hat Ht Hhang ms evs st' Hrun Hd.
    assert (Hheld : exists w, workers_ (scheduler.pool st') !! i = Some w /\
                              task_worker.at_ w = task_worker.in_task /\
                              task_worker.task w = Some f).
    { eapply (sched_run_invariant completes
                (fun st => exists w, workers_ (scheduler.pool st) !! i = Some w /\
                                     task_worker.at_ w = task_worker.in_task /\
                                     task_worker.task w = Some f));
        [|by exists w|exact Hrun].
      intros m st0 ev st1 H0 Hs. by eapply hung_worker_step. }
    destruct Hheld as (w' & Hi' & Hat' & _).
    pose proof (sched_reachable_run _ _ _ _ _ Hsr Hrun) as Hsr'.
    apply sched_reachable_pool in Hsr'.
    destruct (reachable_teardown _ Hsr') as [_ Hp].
    unfold teardown_progress in Hp. rewrite Hd in Hp. destruct Hp as [Hdel _].
    apply Hdel in Hi'. congruence.
Qed.

End completion.

(** * Draining the queue *)
Section backlog.
Import future logger task_pool.

Variable completes : task_queue.function_t -> heap -> bool.

(** A worker that is awake, is not held up inside a call and does not go
    to sleep takes its step, and the sleepers stay as they are. *)
Lemma sched_worker_step i w st ev s1 :
  workers_ (scheduler.pool st) !! i = Some w ->
  i ∉ scheduler.asleep st ->
  scheduler.call_returns completes w (futures (scheduler.pool st)) = true ->
  scheduler.goes_to_sleep w (queue_ (scheduler.pool st)) = false ->
  step (worker i) (scheduler.pool st) = Some (ev, s1) ->
  scheduler.step completes (scheduler.worker i) st =
  Some (ev, {| scheduler.pool := s1; scheduler.asleep := scheduler.asleep st |}).
Proof.
  intros Hi Hin Hret Hns Hs. simpl. rewrite Hi, Hret, Hns, Hs.
  by case_bool_decide.
Qed.

(** A worker of a live pool that is awake gets back to [dequeue] by its own
    steps, if the call it may be in returns: it takes nothing from the
    queue and completes the unit it holds. *)
Lemma awake_worker_returns_to_dequeue st i w :
  scheduler.reachable completes st ->
  dtor (scheduler.pool st) = not_running ->
  workers_ (scheduler.pool st) !! i = Some w ->
  i ∉ scheduler.asleep st ->
  (forall g, scheduler.in_call w = Some g ->
             completes g (futures (scheduler.pool st)) = true) ->
  exists ms evs st' w',
    forallb (scheduler.only_worker i) ms = true /\
    scheduler.run completes ms st = Some (evs, st') /\
    dequeues evs = [] /\
    queue_ (scheduler.pool st') = queue_ (scheduler.pool st) /\
    dtor (scheduler.pool st') = not_running /\
    scheduler.asleep st' = scheduler.asleep st /\
    workers_ (scheduler.pool st') !! i = Some w' /\
    task_worker.at_ w' = task_worker.in_dequeue /\
    (forall g, scheduler.in_call w = Some g ->
               futures (scheduler.pool st') !! state g = Some (fulfilled g)).
Proof.
  intros Hsr Hd Hi Hin Hret. pose proof (lookup_lt_Some _ _ _ Hi) as Hlt.
  pose proof (sched_reachable_pool _ _ Hsr) as Hreach.
  destruct (live_worker _ _ _ Hreach Hd Hi) as [Hstop Hloc].
  assert (Hlive : dtor (scheduler.pool st) <> destroyed) by congruence.
  assert (Henter : forall st0 w0,
            dtor (scheduler.pool st0) = not_running ->
            workers_ (scheduler.pool st0) !! i = Some w0 ->
            i ∉ scheduler.asleep st0 ->
            task_worker.at_ w0 = task_worker.at_loop ->
            task_worker.stop_ w0 = false ->
            scheduler.step completes (scheduler.worker i) st0 =
            Some ([], {| scheduler.pool :=
                           {| queue_ := queue_ (scheduler.pool st0);
                              workers_ := <[i := task_worker.goto task_worker.in_dequeue w0]>
                                            (workers_ (scheduler.pool st0));
                              futures := futures (scheduler.pool st0);
                              output := output (scheduler.pool st0);
                              dtor := dtor (scheduler.pool st0) |};
                         scheduler.asleep := scheduler.asleep st0 |})).
  { intros st0 w0 Hd0 Hi0 Hin0 Hat0 Hs0. apply (sched_worker_step i w0); try done.
    - unfold scheduler.call_returns, scheduler.in_call. by rewrite Hat0.
    - unfold scheduler.goes_to_sleep. by rewrite Hat0.
    - apply (step_worker_eq i w0); [congruence|done|].
      unfold task_worker.step, atomic.load. by rewrite Hat0, Hs0. }
  destruct Hloc as [Hat|[Hat|Hat]].
  - eexists [scheduler.worker i], _, _, _. split_and!.
    + simpl. by repeat case_bool_decide.
    + apply sched_run_one, (Henter st w); done.
    + reflexivity.
    + reflexivity.
    + exact Hd.
    + reflexivity.
    + simpl. by rewrite list_lookup_insert_eq.
    + reflexivity.
    + intros g Hg. unfold scheduler.in_call in Hg. by rewrite Hat in Hg.
  - exists [], [], st, w. split_and!; try done.
    intros g Hg. unfold scheduler.in_call in Hg. by rewrite Hat in Hg.
  - apply reachable_invariants in Hreach as [_ (_ & Hset & _)].
    pose proof (Hset i w Hi) as Hw. unfold settled in Hw. rewrite Hat in Hw.
    destruct Hw as (g & Hg & Hp). pose proof (lookup_lt_Some _ _ _ Hp) as Hlt'.
    assert (Hcall : scheduler.in_call w = Some g)
      by (unfold scheduler.in_call; by rewrite Hat).
    set (s1 := {| queue_ := queue_ (scheduler.pool st);
                  workers_ := <[i := task_worker.goto task_worker.at_loop w]>
                                (workers_ (scheduler.pool st));
                  futures := <[state g := fulfilled g]> (futures (scheduler.pool st));
                  output := output (scheduler.pool st);
                  dtor := dtor (scheduler.pool st) |}).
    set (st1 := {| scheduler.pool := s1; scheduler.asleep := scheduler.asleep st |}).
    assert (Hs1 : scheduler.step completes (scheduler.worker i) st = Some ([executed g], st1)).
    { apply (sched_worker_step i w); try done.
      - unfold scheduler.call_returns. rewrite Hcall. by apply Hret.
      - unfold scheduler.goes_to_sleep. by rewrite Hat.
      - apply (step_worker_eq i w); [done|done|]. by apply step_in_task_pending. }
    assert (Hi1 : workers_ (scheduler.pool st1) !! i =
                  Some (task_worker.goto task_worker.at_loop w))
      by (simpl; by rewrite list_lookup_insert_eq).
    pose proof (Henter st1 _ Hd Hi1 Hin eq_refl Hstop) as Hs2.
    eexists [scheduler.worker i; scheduler.worker i], _, _, _. split_and!.
    + simpl. by repeat case_bool_decide.
    + eapply sched_run_step; [exact Hs1|]. apply sched_run_one. exact Hs2.
    + reflexivity.
    + reflexivity.
    + exact Hd.
    + reflexivity.
    + simpl. rewrite list_lookup_insert_eq; [done|]. by rewrite length_insert.
    + reflexivity.
    + intros g' Hg'. assert (g' = g) as -> by congruence.
      simpl. by rewrite list_lookup_insert_eq.
Qed.

Lemma awake_worker_drains pend : forall st i w,
  scheduler.reachable completes st ->
  dtor (scheduler.pool st) = not_running ->
  task_queue.valid_ (queue_ (scheduler.pool st)) = true ->
  workers_ (scheduler.pool st) !! i = Some w ->
  i ∉ scheduler.asleep st ->
  task_worker.at_ w = task_worker.in_dequeue ->
  task_queue.queue_ (queue_ (scheduler.pool st)) = pend ->
  (forall f, f ∈ pend -> forall fs, completes f fs = true) ->
  exists ms evs st',
    forallb (scheduler.only_worker i) ms = true /\
    scheduler.run completes ms st = Some (evs, st') /\
    dequeues evs = pend /\
    task_queue.queue_ (queue_ (scheduler.pool st')) = [] /\
    (forall f, f ∈ pend ->
               futures (scheduler.pool st') !! state f = Some (fulfilled f)).
Proof.
  induction pend as [|f rest IH]; intros st i w Hsr Hd Hv Hi Hin Hat Hq Hok.
  - exists [], [], st. split_and!; try done.
    intros f Hf. by apply not_elem_of_nil in Hf.
  - pose proof (lookup_lt_Some _ _ _ Hi) as Hlt.
    set (w1 := {| task_worker.stop_ := task_worker.stop_ w;
                  task_worker.task := Some f;
                  task_worker.at_ := task_worker.in_task |}).
    set (s1 := {| queue_ :=
                    {| task_queue.valid_ := task_queue.valid_ (queue_ (scheduler.pool st));
                       task_queue.valid := task_queue.valid (queue_ (scheduler.pool st));
                       task_queue.queue_ := rest |};
                  workers_ := <[i := w1]> (workers_ (scheduler.pool st));
                  futures := task_queue.release (task_worker.task w)
                               (futures (scheduler.pool st));
                  output := output (scheduler.pool st);
                  dtor := dtor (scheduler.pool st) |}).
    set (st1 := {| scheduler.pool := s1; scheduler.asleep := scheduler.asleep st |}).
    assert (Hs1 : scheduler.step completes (scheduler.worker i) st = Some ([dequeued f], st1)).
    { apply (sched_worker_step i w); try done.
      - unfold scheduler.call_returns, scheduler.in_call. by rewrite Hat.
      - destruct (scheduler.goes_to_sleep _ _) eqn:E; [|done].
        apply goes_to_sleep_true in E as (_ & E & _). congruence.
      - apply (step_worker_eq i w); [congruence|done|].
        unfold task_worker.step. rewrite Hat.
        by rewrite (dequeue_valid_cons _ _ _ _ _ Hv Hq). }
    pose proof (sched_run_one _ _ _ _ _ Hs1) as Hr1.
    pose proof (sched_reachable_run _ _ _ _ _ Hsr Hr1) as Hsr1.
    assert (Hi1 : workers_ (scheduler.pool st1) !! i = Some w1)
      by (simpl; by rewrite list_lookup_insert_eq).
    destruct (awake_worker_returns_to_dequeue st1 i w1 Hsr1 Hd Hi1 Hin)
      as (ms2 & evs2 & st2 & w2 & Hms2 & Hr2 & Hdq2 & Hq2 & Hd2 & Hsl2 & Hi2 & Hat2 & Hful2).
    { intros g Hg. injection Hg as <-. apply Hok, list_elem_of_here. }
    pose proof (sched_reachable_run _ _ _ _ _ Hsr1 Hr2) as Hsr2.
    destruct (IH st2 i w2 Hsr2 Hd2)
      as (ms3 & evs3 & st3 & Hms3 & Hr3 & Hdq3 & Hq3 & Hful3);
      [by rewrite Hq2|done|by rewrite Hsl2|done|by rewrite Hq2| |].
    { intros g Hg. by apply Hok, list_elem_of_further. }
    exists ([scheduler.worker i] ++ ms2 ++ ms3), (([dequeued f] ++ []) ++ evs2 ++ evs3), st3.
    split_and!.
    + rewrite !forallb_app, Hms2, Hms3. simpl. by case_bool_decide.
    + eapply sched_run_app; [exact Hr1|]. by eapply sched_run_app.
    + rewrite !dequeues_app, Hdq2, Hdq3. reflexivity.
    + exact Hq3.
    + intros g Hg. apply elem_of_cons in Hg as [->|Hg]; [|by apply Hful3].
      destruct (sched_run_pool _ _ _ _ _ Hr3) as (tr3 & Htr3).
      apply (run_resolved_stable _ _ _ _ Htr3); [|apply fulfilled_not_pending].
      by apply Hful2.
Qed.

(** X12: no queued task is lost to a missed wake-up.  In every state a pool
    can reach while its destructor has not been called and its queue is
    valid: if units are pending, not all workers are asleep in [dequeue];
    and a worker that is not asleep can, by its own steps alone, empty the
    queue, provided the call it may be in and the calls of the pending
    units return.  It dequeues the pending units in queue order, and at the
    end the future of each of them holds the outcome of its callable. *)
Theorem awake_worker_drains_backlog st :
  scheduler.reachable completes st ->
  dtor (scheduler.pool st) = not_running ->
  task_queue.valid_ (queue_ (scheduler.pool st)) = true ->
  (task_queue.queue_ (queue_ (scheduler.pool st)) <> [] ->
   workers_ (scheduler.pool st) <> [] ->
   exists j, j < length (workers_ (scheduler.pool st)) /\ j ∉ scheduler.asleep st) /\
  (forall i w,
     workers_ (scheduler.pool st) !! i = Some w ->
     i ∉ scheduler.asleep st ->
     (forall f,
        f ∈ task_queue.queue_ (queue_ (scheduler.pool st)) \/
        scheduler.in_call w = Some f ->
        forall fs, completes f fs = true) ->
     exists ms evs st',
       forallb (scheduler.only_worker i) ms = true /\
       scheduler.run completes ms st = Some (evs, st') /\
       dequeues evs = task_queue.queue_ (queue_ (scheduler.pool st)) /\
       task_queue.queue_ (queue_ (scheduler.pool st')) = [] /\
       (forall f, f ∈ task_queue.queue_ (queue_ (scheduler.pool st)) ->
                  futures (scheduler.pool st') !! state f = Some (fulfilled f))).
Proof.
  intros Hsr Hd Hv. split.
  - by destruct (sched_reachable_invariants _ _ Hsr) as (_ & _ & Haw).
  - intros i w Hi Hin Hok.
    destruct (awake_worker_returns_to_dequeue st i w Hsr Hd Hi Hin)
      as (ms1 & evs1 & st1 & w1 & Hms1 & Hr1 & Hdq1 & Hq1 & Hd1 & Hsl1 & Hi1 & Hat1 & _).
    { intros g Hg. apply Hok. by right. }
    pose proof (sched_reachable_run _ _ _ _ _ Hsr Hr1) as Hsr1.
    destruct (awake_worker_drains (task_queue.queue_ (queue_ (scheduler.pool st)))
                st1 i w1 Hsr1 Hd1)
      as (ms2 & evs2 & st2 & Hms2 & Hr2 & Hdq2 & Hq2 & Hful2);
      [by rewrite Hq1|done|by rewrite Hsl1|done|by rewrite Hq1| |].
    { intros f Hf. apply Hok. by left. }
    exists (ms1 ++ ms2), (evs1 ++ evs2), st2. split_and!.
    + rewrite forallb_app, Hms1, Hms2. reflexivity.
    + by eapply sched_run_app.
    + rewrite dequeues_app, Hdq1, Hdq2. reflexivity.
    + exact Hq2.
    + exact Hful2.
Qed.

End backlog.

(** * The further properties on concrete runs *)
Section concrete_coverage.
Import future logger task_pool.

Lemma worker_handler_is_dead_witness :
  run held_schedule (create 1) = Some (held_events, held_pool) /\
  (output held_pool = silent /\
   (forall i w, workers_ held_pool !! i = Some w ->
                task_worker.at_ w <> task_worker.terminated) /\
   (forall i w,
      workers_ held_pool !! i = Some w ->
      task_worker.at_ w = task_worker.in_task ->
      exists f,
        task_worker.task w = Some f /\
        invoke f (futures held_pool) =
        (<[state f := fulfilled f]> (futures held_pool), None))).
Proof.
  split; [reflexivity|].
  apply (worker_handler_is_dead 1 held_schedule held_events). reflexivity.
Defined.

Lemma enqueue_dequeue_round_trip_witness :
  task_queue.valid_ task_queue.create = true /\
  task_queue.queue_ task_queue.create = [] /\
  (let r := task_queue.enqueue boom task_queue.create [ready 1] in
   let f := {| stored := boom; state := r.1.1 |} in
   [ready 1] !! r.1.1 = None /\
   r.2 !! r.1.1 = Some pending /\
   task_queue.dequeue None r.1.2 r.2 =
     (task_queue.returned true, Some f, task_queue.create, r.2) /\
   invoke f r.2 = ([ready 1] ++ [fulfilled f], None)).
Proof.
  split; [reflexivity|]. split; [reflexivity|].
  apply (enqueue_dequeue_round_trip boom task_queue.create [ready 1]); reflexivity.
Defined.

Lemma executed_unit_delivers_outcome_witness :
  run fifo_schedule (create 1) = Some (fifo_events, fifo_pool) /\
  (NoDup (state <$> executions fifo_events) /\
   (forall f, executed f ∈ fifo_events ->
              futures fifo_pool !! state f = Some (fulfilled f))).
Proof.
  split; [reflexivity|].
  apply (executed_unit_delivers_outcome 1 fifo_schedule). reflexivity.
Defined.

Lemma delivery_is_causal_and_unique_witness :
  run fifo_schedule (create 1) = Some (fifo_events, fifo_pool) /\
  (NoDup (state <$> submissions fifo_events) /\
   NoDup (state <$> dequeues fifo_events) /\
   (forall k f, fifo_events !! k = Some (dequeued f) ->
                exists j, j < k /\ fifo_events !! j = Some (submitted f)) /\
   (forall k f, fifo_events !! k = Some (executed f) ->
                exists j, j < k /\ fifo_events !! j = Some (dequeued f))).
Proof.
  split; [reflexivity|].
  apply (delivery_is_causal_and_unique 1 fifo_schedule fifo_events fifo_pool).
  reflexivity.
Defined.

Lemma future_resolves_once_witness :
  run [clear] fifo_pool = Some ([], cleared_fifo_pool) /\
  futures fifo_pool !! 0 = Some (failed (std_exception "boom")) /\
  failed (std_exception "boom") <> pending /\
  (futures cleared_fifo_pool !! 0 = Some (failed (std_exception "boom")) /\
   length (futures fifo_pool) <= length (futures cleared_fifo_pool)).
Proof.
  split; [reflexivity|]. split; [reflexivity|]. split; [discriminate|].
  apply (future_resolves_once [clear] fifo_pool [] cleared_fifo_pool);
    [reflexivity|reflexivity|discriminate].
Defined.

Lemma nothing_dequeued_after_invalidation_witness :
  task_queue.valid_ (queue_ stranded_pool) = false /\
  run [worker 0; worker 0; worker 0] stranded_pool = Some ([], spinning_pool) /\
  (dequeues [] = [] /\
   (forall f, executed f ∈ @nil event ->
              exists i w, workers_ stranded_pool !! i = Some w /\
                          task_worker.at_ w = task_worker.in_task /\
                          task_worker.task w = Some f)).
Proof.
  split; [reflexivity|]. split; [reflexivity|].
  apply (nothing_dequeued_after_invalidation
           [worker 0; worker 0; worker 0] stranded_pool [] spinning_pool);
    reflexivity.
Defined.

Lemma no_future_pending_after_destructor_witness :
  run teardown_schedule (create 1) = Some (teardown_events, torn_down_pool) /\
  dtor torn_down_pool = destroyed /\
  ((forall h st, futures torn_down_pool !! h = Some st -> st <> pending) /\
   (forall i w, workers_ torn_down_pool !! i = Some w ->
                task_worker.at_ w = task_worker.deleted) /\
   task_queue.queue_ (queue_ torn_down_pool) = [] /\
   task_queue.valid_ (queue_ torn_down_pool) = false).
Proof.
  split; [reflexivity|]. split; [reflexivity|].
  apply (no_future_pending_after_destructor 1 teardown_schedule teardown_events);
    reflexivity.
Defined.

Lemma workers_fixed_and_end_only_on_stop_witness :
  run teardown_schedule (create 1) = Some (teardown_events, torn_down_pool) /\
  (length (workers_ torn_down_pool) = 1 /\
   (forall i w,
      workers_ torn_down_pool !! i = Some w ->
      task_worker.at_ w <> task_worker.unstarted /\
      (task_worker.at_ w = task_worker.exited \/
       task_worker.at_ w = task_worker.deleted ->
       task_worker.stop_ w = true /\
       dtor torn_down_pool <> not_running /\
       task_queue.valid_ (queue_ torn_down_pool) = false))).
Proof.
  split; [reflexivity|].
  apply (workers_fixed_and_end_only_on_stop 1 teardown_schedule teardown_events).
  reflexivity.
Defined.

Lemma pool_without_workers_runs_nothing_witness :
  run idle_schedule (create 0) = Some (idle_events, idle_pool) /\
  (workers_ idle_pool = [] /\
   (forall i, step (worker i) idle_pool = None) /\
   dequeues idle_events = [] /\
   executions idle_events = [] /\
   (forall f, submitted f ∈ idle_events ->
              futures idle_pool !! state f = Some pending \/
              futures idle_pool !! state f =
              Some (failed (future_error broken_promise)))).
Proof.
  split; [reflexivity|].
  apply (pool_without_workers_runs_nothing idle_schedule idle_events idle_pool).
  reflexivity.
Defined.

Lemma stop_needs_invalidate_witness :
  task_queue.valid_ task_queue.create = true /\
  task_queue.queue_ task_queue.create = [] /\
  task_worker.at_ blocked_worker = task_worker.in_dequeue /\
  (worker_steps 5 (task_worker.request_stop blocked_worker) task_queue.create [] silent =
     Some (task_worker.request_stop blocked_worker, task_queue.create, [], silent) /\
   task_worker.joinable (task_worker.request_stop blocked_worker) = true /\
   task_worker.join_returns (task_worker.request_stop blocked_worker) = false /\
   exists w',
     worker_steps 2 (task_worker.request_stop blocked_worker)
       (task_queue.invalidate task_queue.create) [] silent =
       Some (w', task_queue.invalidate task_queue.create,
             task_queue.release (task_worker.task blocked_worker) [], silent) /\
     task_worker.join_returns w' = true).
Proof.
  split; [reflexivity|]. split; [reflexivity|]. split; [reflexivity|].
  apply (stop_needs_invalidate blocked_worker task_queue.create [] silent 5);
    reflexivity.
Defined.

Lemma teardown_invalidates_first_witness :
  scheduler.run prompt two_worker_teardown (scheduler.create 2) =
    Some (two_worker_events, two_worker_end) /\
  scheduler.run prompt (take 4 two_worker_teardown) (scheduler.create 2) =
    Some ([], both_asleep) /\
  scheduler.asleep both_asleep = [1; 0] /\
  ((forall k i, two_worker_events !! k = Some (stopped i) ->
                exists j, j < k /\ two_worker_events !! j = Some invalidated) /\
   (forall k i, two_worker_events !! k = Some (joined i) ->
                exists j, j < k /\ two_worker_events !! j = Some (stopped i)) /\
   stop_join_events two_worker_events =
     stop_join_log 2 (dtor (scheduler.pool two_worker_end)) /\
   (dtor (scheduler.pool two_worker_end) <> not_running ->
    task_queue.valid_ (queue_ (scheduler.pool two_worker_end)) = false /\
    scheduler.asleep two_worker_end = []) /\
   (forall i w, workers_ (scheduler.pool two_worker_end) !! i = Some w ->
                task_worker.stop_ w = true ->
                task_queue.valid_ (queue_ (scheduler.pool two_worker_end)) = false) /\
   (forall w, dtor (scheduler.pool two_worker_end) <> not_running ->
              task_worker.at_ w = task_worker.in_dequeue ->
              task_worker.step w (queue_ (scheduler.pool two_worker_end))
                (futures (scheduler.pool two_worker_end))
                (output (scheduler.pool two_worker_end)) =
              Some ([], task_worker.goto task_worker.at_loop w,
                    queue_ (scheduler.pool two_worker_end),
                    futures (scheduler.pool two_worker_end),
                    output (scheduler.pool two_worker_end))) /\
   (forall i ev st1,
      scheduler.step prompt scheduler.teardown two_worker_end = Some (ev, st1) ->
      joined i ∈ ev ->
      exists w, workers_ (scheduler.pool two_worker_end) !! i = Some w /\
                task_worker.at_ w = task_worker.exited /\
                task_worker.stop_ w = true) /\
   (forall i w,
      dtor (scheduler.pool two_worker_end) = deleting i true ->
      workers_ (scheduler.pool two_worker_end) !! i = Some w ->
      task_worker.at_ w <> task_worker.exited ->
      scheduler.step prompt scheduler.teardown two_worker_end = None) /\
   (dtor (scheduler.pool two_worker_end) = destroyed ->
    length (workers_ (scheduler.pool two_worker_end)) = 2 /\
    forall i w, workers_ (scheduler.pool two_worker_end) !! i = Some w ->
                task_worker.at_ w = task_worker.deleted /\
                task_worker.stop_ w = true)).
Proof.
  split; [vm_compute; reflexivity|]. split; [vm_compute; reflexivity|].
  split; [reflexivity|].
  apply (teardown_invalidates_first prompt 2 two_worker_teardown).
  vm_compute. reflexivity.
Defined.

Lemma held_awake_reachable completes : scheduler.reachable completes held_awake.
Proof. exists 1, held_moves, held_events. reflexivity. Defined.

Lemma teardown_completes_unless_a_task_hangs_witness :
  (scheduler.reachable prompt held_awake /\
   dtor (scheduler.pool held_awake) <> destroyed /\
   never_blocks prompt (scheduler.pool held_awake) /\
   exists ms evs st',
     forallb scheduler.worker_or_teardown ms = true /\
     scheduler.run prompt ms held_awake = Some (evs, st') /\
     dtor (scheduler.pool st') = destroyed) /\
  (scheduler.reachable hanging held_awake /\
   dtor (scheduler.pool held_awake) <> destroyed /\
   workers_ (scheduler.pool held_awake) !! 0 =
     Some {| task_worker.stop_ := false;
             task_worker.task := Some {| stored := boom; state := 0 |};
             task_worker.at_ := task_worker.in_task |} /\
   (forall fs, hanging {| stored := boom; state := 0 |} fs = false) /\
   forall ms evs st',
     scheduler.run hanging ms held_awake = Some (evs, st') ->
     dtor (scheduler.pool st') <> destroyed).
Proof.
  assert (Hlive : dtor (scheduler.pool held_awake) <> destroyed) by discriminate.
  assert (Hnb : never_blocks prompt (scheduler.pool held_awake)) by (by intros i w f).
  split.
  - split; [apply held_awake_reachable|]. split; [exact Hlive|]. split; [exact Hnb|].
    exact (proj1 (teardown_completes_unless_a_task_hangs prompt held_awake
                    (held_awake_reachable prompt) Hlive) Hnb).
  - split; [apply held_awake_reachable|]. split; [exact Hlive|].
    split; [reflexivity|]. split; [reflexivity|].
    exact (proj2 (teardown_completes_unless_a_task_hangs hanging held_awake
                    (held_awake_reachable hanging) Hlive)
             0 _ {| stored := boom; state := 0 |} eq_refl eq_refl eq_refl
             (fun fs => eq_refl)).
Defined.

Lemma awake_worker_drains_backlog_witness :
  scheduler.reachable prompt backlog_awake /\
  dtor (scheduler.pool backlog_awake) = not_running /\
  task_queue.valid_ (queue_ (scheduler.pool backlog_awake)) = true /\
  (exists j, j < length (workers_ (scheduler.pool backlog_awake)) /\
             j ∉ scheduler.asleep backlog_awake) /\
  exists ms evs st',
    forallb (scheduler.only_worker 0) ms = true /\
    scheduler.run prompt ms backlog_awake = Some (evs, st') /\
    dequeues evs = task_queue.queue_ (queue_ (scheduler.pool backlog_awake)) /\
    task_queue.queue_ (queue_ (scheduler.pool st')) = [] /\
    (forall f, f ∈ task_queue.queue_ (queue_ (scheduler.pool backlog_awake)) ->
               futures (scheduler.pool st') !! state f = Some (fulfilled f)).
Proof.
  assert (Hreach : scheduler.reachable prompt backlog_awake).
  { exists 1, backlog_moves,
      [submitted {| stored := boom; state := 0 |};
       submitted {| stored := answer; state := 1 |}].
    reflexivity. }
  split; [exact Hreach|]. split; [reflexivity|]. split; [reflexivity|].
  destruct (awake_worker_drains_backlog prompt backlog_awake Hreach eq_refl eq_refl)
    as [Hawake Hdrain].
  split.
  - apply Hawake; discriminate.
  - apply (Hdrain 0 (task_worker.start task_worker.create) eq_refl).
    + apply not_elem_of_nil.
    + intros f _ fs. reflexivity.
Defined.

End concrete_coverage.
